(** * FIRST and FOLLOW sets of a context-free grammar

    Shallow embedding of [Grammar::first] and [Grammar::follow]
    (Grammar.h, Grammar.cpp) and the properties of their results, and of
    the stream operators of Grammar.cpp and quoted.h.

    The C++ functions recurse without memoisation, so they need not return.
    Every recursive function of the embedding therefore takes a [fuel]
    argument, the call depth still available: a call made with no fuel left
    yields [None], and a caller that receives [None] yields [None].  "The
    call returns the set [F]" is [exists fuel, f fuel ... = Some F]; "the
    call recurses without bound" is [forall fuel, f fuel ... = None]. *)

From stdpp Require Import base option list sets gmap strings.
From stdpp Require Import sorting.
From Stdlib Require Import Ascii.

Open Scope string_scope.
Open Scope nat_scope.

(** ** Data model (Grammar.h) *)

(** [typedef std::string symbol] *)
Abbreviation symbol := string (only parsing).
(** [typedef std::set<symbol> symbol_set] *)
Abbreviation symbol_set := (gset string) (only parsing).
(** [typedef std::vector<symbol> symbol_sequence] *)
Abbreviation symbol_sequence := (list string) (only parsing).
(** [typedef std::pair<symbol, symbol_sequence> rule] *)
Abbreviation rule := (string * list string)%type (only parsing).

(** [typedef std::set<rule> rule_set].  The code only ever walks the rule set
    with a range-for, so it is kept as the list of its elements in iteration
    order (increasing for the lexicographic order on pairs). *)
Abbreviation rule_set := (list (string * list string)) (only parsing).

(** The grammar components. *)
Record Grammar := mkGrammar {
  non_terminals : symbol_set;
  terminals : symbol_set;
  rules : rule_set;
  start : symbol
}.

(** [symbol{}], the empty string, stands for the empty derivation. *)
Definition epsilon : symbol := "".

Definition has_terminal (g : Grammar) (s : symbol) : bool :=
  bool_decide (s ∈ terminals g).

Definition has_non_terminal (g : Grammar) (s : symbol) : bool :=
  bool_decide (s ∈ non_terminals g).

(** [had = (set.erase(symbol{}) == 1)]: the set without the empty symbol, and
    whether the empty symbol was in it. *)
Definition erase_epsilon (s : symbol_set) : symbol_set * bool :=
  (s ∖ {[epsilon]}, bool_decide (epsilon ∈ s)).

(** ** [Grammar::first] *)

Section first_loops.
(** The recursive call [first_single(...)] available to the loops. *)
Variable rec : symbol -> option symbol_set.

(** Inner loop of [first_single] (Grammar.cpp:45-65) over the body of one
    rule, threading [first_set].  The boolean tells whether the iterator
    reached [r.second.end()]. *)
Fixpoint scan_body (sym : symbol) (body : symbol_sequence)
    (first_set : symbol_set) : option (symbol_set * bool) :=
  match body with
  | [] => Some (first_set, true)
  | b :: rest =>
      if decide (b = sym) then scan_body sym rest first_set
      else
        match rec b with
        | None => None
        | Some sub_first_set =>
            let '(sub, had_empty_string) := erase_epsilon sub_first_set in
            let first_set' := first_set ∪ sub in
            if had_empty_string then scan_body sym rest first_set'
            else Some (first_set', false)
        end
  end.

(** Outer loop of [first_single] (Grammar.cpp:38-70) over the rules. *)
Fixpoint scan_rules (sym : symbol) (rs : list rule)
    (first_set : symbol_set) : option symbol_set :=
  match rs with
  | [] => Some first_set
  | r :: rs' =>
      if decide (r.1 = sym) then
        match scan_body sym r.2 first_set with
        | None => None
        | Some (first_set', at_end) =>
            scan_rules sym rs'
              (if at_end then first_set' ∪ {[epsilon]} else first_set')
        end
      else scan_rules sym rs' first_set
  end.

(** The loop of [first] itself (Grammar.cpp:79-84) over the sequence. *)
Fixpoint scan_seq (seq : symbol_sequence)
    (first_set : symbol_set) : option (symbol_set * bool) :=
  match seq with
  | [] => Some (first_set, true)
  | s :: rest =>
      match rec s with
      | None => None
      | Some sub_first_set =>
          let '(sub, had_empty_string) := erase_epsilon sub_first_set in
          let first_set' := first_set ∪ sub in
          if had_empty_string then scan_seq rest first_set'
          else Some (first_set', false)
      end
  end.
End first_loops.

(** The lambda [first_single] (Grammar.cpp:27-72). *)
Fixpoint first_single (fuel : nat) (g : Grammar) (sym : symbol)
    : option symbol_set :=
  match fuel with
  | O => None
  | S fuel' =>
      if bool_decide (sym = epsilon) || has_terminal g sym then Some {[sym]}
      else scan_rules (first_single fuel' g) sym (rules g) ∅
  end.

(** [Grammar::first] (Grammar.cpp:22-87). *)
Definition first (fuel : nat) (g : Grammar) (seq : symbol_sequence)
    : option symbol_set :=
  match seq with
  | [] => Some ∅
  | _ =>
      match scan_seq (first_single fuel g) seq ∅ with
      | None => None
      | Some (first_set, at_end) =>
          Some (if at_end then first_set ∪ {[epsilon]} else first_set)
      end
  end.

(** ** [Grammar::follow] *)

(** [std::find(body.begin(), body.end(), nt)] followed by the construction of
    [after] from the position past the match: [None] when [nt] is not in the
    body, otherwise the symbols after its first occurrence. *)
Fixpoint find_after (nt : symbol) (body : symbol_sequence)
    : option symbol_sequence :=
  match body with
  | [] => None
  | b :: rest => if decide (b = nt) then Some rest else find_after nt rest
  end.

Section follow_loop.
(** The calls [this->first(...)] and [this->follow(...)]. *)
Variable first_rec : symbol_sequence -> option symbol_set.
Variable follow_rec : symbol -> option symbol_set.

(** The loop of [follow] (Grammar.cpp:98-134), threading [follow_set]. *)
Fixpoint follow_rules (nt : symbol) (rs : list rule)
    (follow_set : symbol_set) : option symbol_set :=
  match rs with
  | [] => Some follow_set
  | r :: rs' =>
      if decide (r.1 = nt) then follow_rules nt rs' follow_set
      else
        match find_after nt r.2 with
        | None => follow_rules nt rs' follow_set
        | Some after =>
            match first_rec after with
            | None => None
            | Some first_of_after =>
                let '(foa, had_empty_string) :=
                  erase_epsilon first_of_after in
                let follow_set' := follow_set ∪ foa in
                if bool_decide (after = []) || had_empty_string then
                  match follow_rec r.1 with
                  | None => None
                  | Some sub_follow_set =>
                      follow_rules nt rs' (follow_set' ∪ sub_follow_set)
                  end
                else follow_rules nt rs' follow_set'
            end
        end
  end.
End follow_loop.

(** [Grammar::follow] (Grammar.cpp:90-136). *)
Fixpoint follow (fuel : nat) (g : Grammar) (nt : symbol)
    : option symbol_set :=
  match fuel with
  | O => None
  | S fuel' =>
      follow_rules (first fuel' g) (follow fuel' g) nt (rules g)
        (if decide (nt = start g) then {[epsilon]} else ∅)
  end.

(** ** Notions used to state and prove the properties *)

(** What a loop returns when started from [acc], given what it returns when
    started from the empty set. *)
Definition add_acc (acc : symbol_set) (r : option (symbol_set * bool))
    : option (symbol_set * bool) :=
  match r with
  | None => None
  | Some (F, e) => Some (acc ∪ F, e)
  end.

(** One turn of the loop of [first_single] over the rules. *)
Definition rule_step (rec : symbol -> option symbol_set) (sym : symbol)
    (r : rule) (first_set : symbol_set) : option symbol_set :=
  if decide (r.1 = sym) then
    match scan_body rec sym r.2 first_set with
    | None => None
    | Some (first_set', at_end) =>
        Some (if at_end then first_set' ∪ {[epsilon]} else first_set')
    end
  else Some first_set.

(** One turn of the loop of [follow]. *)
Definition follow_step (first_rec : symbol_sequence -> option symbol_set)
    (follow_rec : symbol -> option symbol_set) (nt : symbol) (r : rule)
    (follow_set : symbol_set) : option symbol_set :=
  if decide (r.1 = nt) then Some follow_set
  else
    match find_after nt r.2 with
    | None => Some follow_set
    | Some after =>
        match first_rec after with
        | None => None
        | Some first_of_after =>
            let '(foa, had_empty_string) := erase_epsilon first_of_after in
            let follow_set' := follow_set ∪ foa in
            if bool_decide (after = []) || had_empty_string then
              match follow_rec r.1 with
              | None => None
              | Some sub_follow_set => Some (follow_set' ∪ sub_follow_set)
              end
            else Some follow_set'
        end
    end.

(** A loop that feeds an accumulator through one step per element. *)
Fixpoint run_steps {R : Type} (step : R -> symbol_set -> option symbol_set)
    (rs : list R) (acc : symbol_set) : option symbol_set :=
  match rs with
  | [] => Some acc
  | r :: rs' => step r acc ≫= run_steps step rs'
  end.

(** [rec'] returns whatever [rec] returns. *)
Definition rec_le {A : Type} (rec rec' : A -> option symbol_set) : Prop :=
  ∀ x F, rec x = Some F -> rec' x = Some F.

(** Every element of [F] is a declared terminal of [g] or the empty symbol. *)
Definition terminals_or_epsilon (g : Grammar) (F : symbol_set) : Prop :=
  ∀ x, x ∈ F -> x = epsilon ∨ x ∈ terminals g.

(** Every set [rec] returns satisfies [P]. *)
Definition returns_only {A : Type} (P : symbol_set -> Prop)
    (rec : A -> option symbol_set) : Prop :=
  ∀ x F, rec x = Some F -> P F.

(** The grammar [g] with its rules visited in the order [rs]. *)
Definition with_rules (g : Grammar) (rs : list rule) : Grammar :=
  mkGrammar (non_terminals g) (terminals g) rs (start g).

(** The largest rank of a rule head. *)
Definition max_head_rank (rank : symbol -> nat) (rs : list rule) : nat :=
  foldr (λ r m, rank r.1 `max` m) 0 rs.

(** [x] occurs nowhere in [g]. *)
Definition absent (g : Grammar) (x : symbol) : Prop :=
  (x ≠ start g) ∧ (x ∉ terminals g) ∧ (x ∉ non_terminals g) ∧
  Forall (λ r : rule, (r.1 ≠ x) ∧ (x ∉ r.2)) (rules g).

(** No rule of [g] has head [N]. *)
Definition no_rule (g : Grammar) (N : symbol) : Prop :=
  Forall (λ r : rule, r.1 ≠ N) (rules g).

(** ** The calls that a call makes *)

(** A call of one of the three recursive functions. *)
Inductive call : Type :=
| first_single_of (sym : symbol)
| first_of (seq : symbol_sequence)
| follow_of (nt : symbol).

(** What the call returns at call depth [fuel]. *)
Definition run (fuel : nat) (g : Grammar) (c : call) : option symbol_set :=
  match c with
  | first_single_of sym => first_single fuel g sym
  | first_of seq => first fuel g seq
  | follow_of nt => follow fuel g nt
  end.

(** The call returns, and the set it returns holds the empty symbol. *)
Definition gives_epsilon (g : Grammar) (c : call) : Prop :=
  ∃ fuel F, run fuel g c = Some F ∧ epsilon ∈ F.

(** [calls g c c']: the call [c] makes the call [c'], once the calls it makes
    before that one have returned.
    - [first(seq)] asks for [first_single(b)] of a symbol [b] of [seq] when
      every symbol before it gave the empty symbol (Grammar.cpp:79-84);
    - [first_single(sym)], for a [sym] that is neither the empty symbol nor
      a terminal, asks for [first_single(b)] of a symbol [b] other than
      [sym] in the body of a rule of [sym] when every symbol before it is
      [sym] or gave the empty symbol (Grammar.cpp:45-65);
    - [follow(nt)] asks for [first(after)] in every rule with another head
      that holds [nt], where [after] is what follows its first occurrence
      (Grammar.cpp:105-120);
    - and it asks for [follow] of that head when [after] is empty or gave
      the empty symbol (Grammar.cpp:130-133). *)
Inductive calls (g : Grammar) : call -> call -> Prop :=
| calls_seq (pre : symbol_sequence) b post :
    Forall (λ b', gives_epsilon g (first_single_of b')) pre ->
    calls g (first_of (pre ++ b :: post)%list) (first_single_of b)
| calls_body sym (pre : symbol_sequence) b post :
    sym ≠ epsilon -> sym ∉ terminals g ->
    (sym, (pre ++ b :: post)%list) ∈ rules g -> b ≠ sym ->
    Forall (λ b', b' = sym ∨ gives_epsilon g (first_single_of b')) pre ->
    calls g (first_single_of sym) (first_single_of b)
| calls_after nt h body after :
    (h, body) ∈ rules g -> h ≠ nt -> find_after nt body = Some after ->
    calls g (follow_of nt) (first_of after)
| calls_head nt h body after :
    (h, body) ∈ rules g -> h ≠ nt -> find_after nt body = Some after ->
    after = [] ∨ gives_epsilon g (first_of after) ->
    calls g (follow_of nt) (follow_of h).

(** Every chain of calls that starts with [c] ends. *)
Inductive calls_end (g : Grammar) (c : call) : Prop :=
| calls_end_intro : (∀ c', calls g c c' -> calls_end g c') -> calls_end g c.

(** The symbols of a rule body whose FIRST set the scan of
    [first_single(sym)] may ask for: the symbols other than [sym], up to and
    including the first declared terminal other than the empty symbol, at
    which the scan stops. *)
Fixpoint scanned (g : Grammar) (sym : symbol) (body : symbol_sequence)
    : symbol_sequence :=
  match body with
  | [] => []
  | b :: rest =>
      if decide (b = sym) then scanned g sym rest
      else if has_terminal g b && negb (bool_decide (b = epsilon)) then [b]
      else b :: scanned g sym rest
  end.

(** No symbol of [after] is a declared terminal other than the empty
    symbol: otherwise [first(after)] cannot hold the empty symbol. *)
Definition may_give_epsilon (g : Grammar) (after : symbol_sequence) : bool :=
  forallb (λ b, negb (has_terminal g b) || bool_decide (b = epsilon)) after.

(** [rank] orders the symbols along the calls that the rules can cause: in
    every rule, a symbol whose FIRST set the scan of the head may ask for is
    a terminal, the empty symbol, or ranks below the head; and a body symbol
    other than the head ranks below the head when what follows its first
    occurrence may give the empty symbol. *)
Definition guarded (rank : symbol -> nat) (g : Grammar) : bool :=
  forallb
    (λ r : rule,
       forallb
         (λ b, has_terminal g b || bool_decide (b = epsilon) ||
               (rank b <? rank r.1))
         (scanned g r.1 r.2) &&
       forallb
         (λ nt, bool_decide (nt = r.1) ||
                match find_after nt r.2 with
                | Some after =>
                    negb (may_give_epsilon g after) || (rank nt <? rank r.1)
                | None => true
                end)
         r.2)
    (rules g).

(** ** The grammars of the scenarios *)

(** Terminals a, b; non-terminals S, A; start S; rules S = A b, A = a, A = ε. *)
Definition scenario1 : Grammar :=
  mkGrammar {["S"; "A"]} {["a"; "b"]}
    [("A", []); ("A", ["a"]); ("S", ["A"; "b"])] "S".

(** Terminals a, b; start S; rules S = S a, S = b. *)
Definition scenario2 : Grammar :=
  mkGrammar {["S"]} {["a"; "b"]}
    [("S", ["S"; "a"]); ("S", ["b"])] "S".

(** Start S; rules S = A, A = S, A = ε. *)
Definition cyclic : Grammar :=
  mkGrammar {["S"; "A"]} ∅
    [("A", []); ("A", ["S"]); ("S", ["A"])] "S".

(** Non-terminals A, B, N; rules A = B, A = N, B = A; N has no rule. *)
Definition zero_rule_cycle : Grammar :=
  mkGrammar {["A"; "B"; "N"]} ∅
    [("A", ["B"]); ("A", ["N"]); ("B", ["A"])] "A".

(** Terminals a, b; non-terminals S, A; start S; rules A = a, S = A a A b. *)
Definition multi_occurrence : Grammar :=
  mkGrammar {["S"; "A"]} {["a"; "b"]}
    [("A", ["a"]); ("S", ["A"; "a"; "A"; "b"])] "S".

(** Terminal a; non-terminals S, N; start S; rule S = N a; N has no rule. *)
Definition ruleless : Grammar :=
  mkGrammar {["S"; "N"]} {["a"]} [("S", ["N"; "a"])] "S".

(** Terminals a and the empty symbol, which the code takes as a terminal like
    any other; non-terminal S; start S; rule S = a. *)
Definition epsilon_terminal : Grammar :=
  mkGrammar {["S"]} {[epsilon; "a"]} [("S", ["a"])] "S".

(** Terminals (, ), id; start E; rules E = T, T = F, F = ( E ), F = id. *)
Definition expression : Grammar :=
  mkGrammar {["E"; "T"; "F"]} {["("; ")"; "id"]}
    [("E", ["T"]); ("F", ["("; "E"; ")"]); ("F", ["id"]); ("T", ["F"])] "E".

(** A rank for [expression]: E above T, T above F, F above the terminals. *)
Definition rank_E_T_F (s : symbol) : nat :=
  if decide (s = "E") then 3 else if decide (s = "T") then 2
  else if decide (s = "F") then 1 else 0.

(** A rank for [scenario1] and [ruleless]: S above A, A above the rest. *)
Definition rank_S_A (s : symbol) : nat :=
  if decide (s = "S") then 2 else if decide (s = "A") then 1 else 0.

(** The step after a scan: [if (it == end) first_set.insert(symbol{})]. *)
Definition close_scan (r : symbol_set * bool) : symbol_set :=
  if r.2 then r.1 ∪ {[epsilon]} else r.1.

(** The body of a rule of [sym] as the inner loop of [first_single] sees it:
    the occurrences of [sym] itself are stepped over. *)
Definition without_self (sym : symbol) (body : symbol_sequence)
    : symbol_sequence :=
  filter (λ b, b ≠ sym) body.

(** What one rule [sym = body] adds to [first_single(sym)] at call depth
    [S fuel]: the empty symbol when nothing is left of the body once the
    occurrences of [sym] are stepped over, and [first] of what is left
    otherwise. *)
Definition body_first (fuel : nat) (g : Grammar) (sym : symbol)
    (body : symbol_sequence) : option symbol_set :=
  match without_self sym body with
  | [] => Some {[epsilon]}
  | rest => first fuel g rest
  end.

(** ** The streams the code reads and writes

    The part of [std::istream] and [std::ostream] that quoted.h and the
    stream operators of Grammar.cpp use, over an in-memory character
    sequence, as the C++ standard describes it for the classic locale.
    The bad bit is never set on such a stream and the input field width,
    which the code never sets, is 0. *)

(** [std::isspace] in the classic locale: space, tab, line feed, vertical
    tab, form feed, carriage return. *)
Definition isspace (c : ascii) : bool :=
  Ascii.eqb c " " || Ascii.eqb c "009" || Ascii.eqb c "010" ||
  Ascii.eqb c "011" || Ascii.eqb c "012" || Ascii.eqb c "013".

(** An input stream: the characters not yet read, [eofbit], [failbit], and
    whether the flag [skipws] is set. *)
Record istream := mkIstream {
  buf : string;
  eofbit : bool;
  failbit : bool;
  skipws : bool
}.

(** [is.good()] *)
Definition good (ins : istream) : bool := negb (eofbit ins) && negb (failbit ins).

(** [is.setstate(...)]: raises [eofbit] when [e], [failbit] when [f]. *)
Definition setstate (e f : bool) (ins : istream) : istream :=
  mkIstream (buf ins) (eofbit ins || e) (failbit ins || f) (skipws ins).

Definition set_buf (b : string) (ins : istream) : istream :=
  mkIstream b (eofbit ins) (failbit ins) (skipws ins).

(** [is >> std::noskipws], [is >> std::skipws], [is.flags(old)] *)
Definition set_skipws (s : bool) (ins : istream) : istream :=
  mkIstream (buf ins) (eofbit ins) (failbit ins) s.

(** The characters left once the leading white space is dropped. *)
Fixpoint skip_spaces (b : string) : string :=
  match b with
  | EmptyString => EmptyString
  | String c rest => if isspace c then skip_spaces rest else b
  end.

(** The characters up to the first white space, and the ones from there. *)
Fixpoint take_token (b : string) : string * string :=
  match b with
  | EmptyString => (EmptyString, EmptyString)
  | String c rest =>
      if isspace c then (EmptyString, b)
      else let '(t, r) := take_token rest in (String c t, r)
  end.

(** [istream::sentry(is, noskip)]: on a stream that is not good, sets
    [failbit] and fails; otherwise, unless [noskip] or the flag [skipws] is
    off, skips white space, and fails with [eofbit] and [failbit] when
    that reaches the end. *)
Definition sentry (noskip : bool) (ins : istream) : istream * bool :=
  if good ins then
    if negb noskip && skipws ins then
      match skip_spaces (buf ins) with
      | EmptyString => (setstate true true (set_buf EmptyString ins), false)
      | b => (set_buf b ins, true)
      end
    else (ins, true)
  else (setstate false true ins, false).

(** [is >> c] for a character [c]: [None] when nothing was extracted. *)
Definition extract_char (ins : istream) : istream * option ascii :=
  let '(ins1, ok) := sentry false ins in
  if ok then
    match buf ins1 with
    | EmptyString => (setstate true true ins1, None)
    | String c rest => (set_buf rest ins1, Some c)
    end
  else (ins1, None).

(** [is.unget()], where [c] is the character read last: clears [eofbit] and
    steps the sequence back by one character. *)
Definition unget (c : ascii) (ins : istream) : istream :=
  let ins0 := mkIstream (buf ins) false (failbit ins) (skipws ins) in
  if good ins0 then set_buf (String c (buf ins0)) ins0
  else setstate false true ins0.

(** [is >> str] for a [std::string]: the string is emptied and receives the
    characters up to the next white space; [eofbit] is set when the end is
    reached and [failbit] when no character was stored.  The second
    component is the new value of [str]. *)
Definition extract_string (ins : istream) (str : string) : istream * string :=
  let '(ins1, ok) := sentry false ins in
  if ok then
    let '(tok, rest) := take_token (buf ins1) in
    (setstate (bool_decide (rest = EmptyString))
       (bool_decide (tok = EmptyString)) (set_buf rest ins1), tok)
  else (ins1, str).

(** An output stream: the characters written, the field width (a
    [std::streamsize], which is signed), whether the adjustment is
    [ios_base::left], and the fill character.

    An output operation yields [None] when it does not return: it throws,
    or its behaviour is undefined. *)
Record ostream := mkOstream {
  written : string;
  width : Z;
  adjust_left : bool;
  fill : ascii
}.

(** [n] copies of [c]. *)
Fixpoint string_rep (n : nat) (c : ascii) : string :=
  match n with
  | O => EmptyString
  | S n' => String c (string_rep n' c)
  end.

(** [os << str] for a [std::string]: padded with the fill character up to
    the field width when the width is larger than the size of [str], after
    the text when the adjustment is left and before it otherwise; the width
    is reset. *)
Definition insert_string (os : ostream) (str : string) : ostream :=
  let pad :=
    string_rep (Z.to_nat (width os - Z.of_nat (String.length str)))
      (fill os) in
  mkOstream
    (written os ++ (if adjust_left os then str ++ pad else pad ++ str))%string
    0 (adjust_left os) (fill os).

(** ** quoted.h *)

(** The loop of [operator<<] for [_quoted_ostr] (quoted.h:60-66): every
    delimiter and every escape character gets an escape character before
    it. *)
Fixpoint escape_chars (delim escape : ascii) (str : string) : string :=
  match str with
  | EmptyString => EmptyString
  | String c rest =>
      if Ascii.eqb c delim || Ascii.eqb c escape then
        String escape (String c (escape_chars delim escape rest))
      else String c (escape_chars delim escape rest)
  end.

(** The vector [seq] of [operator<<] for [_quoted_ostr] once the string is
    in it (quoted.h:59-67): the delimiter, the escaped characters, the
    delimiter. *)
Definition quoted_text (delim escape : ascii) (str : string) : string :=
  String delim (escape_chars delim escape str ++ String delim EmptyString).

(** A [std::streamsize] converted to [std::size_t], as the comparison and
    the subtractions of quoted.h:68-75 do with [os.width()], whose other
    operand is a [std::size_t]: the value modulo 2^64. *)
Definition to_size_t (z : Z) : Z := (z mod 2 ^ 64)%Z.

(** No [std::vector<char>] holds more than [PTRDIFF_MAX] characters: a
    [push_back] that would go beyond that throws.  Below that size the
    memory is taken to suffice. *)
Definition vector_max_size : Z := (2 ^ 63 - 1)%Z.

(** [std::fill_n(std::back_inserter(seq), count, c)] *)
Definition fill_n (seq : string) (count : Z) (c : ascii) : option string :=
  if (Z.of_nat (String.length seq) + count <=? vector_max_size)%Z then
    Some (seq ++ string_rep (Z.to_nat count) c)%string
  else None.

(** [std::copy(temp.begin(), temp.end(), std::back_inserter(seq))] *)
Definition copy_back (temp seq : string) : option string :=
  if (Z.of_nat (String.length seq) + Z.of_nat (String.length temp) <=?
      vector_max_size)%Z then
    Some (seq ++ temp)%string
  else None.

(** [os << put_quoted(str, delim, escape)] (quoted.h:49-84).  The size of
    [seq] is compared with the field width, and taken from it, as a
    [std::size_t].  In the branch for an adjustment other than left, [seq]
    is cleared before the number of fill characters is computed from its
    size. *)
Definition put_quoted (delim escape : ascii) (os : ostream) (str : string)
    : option ostream :=
  let seq := quoted_text delim escape str in
  let padded :=
    if (Z.of_nat (String.length seq) <? to_size_t (width os))%Z then
      if adjust_left os then
        fill_n seq (to_size_t (width os - Z.of_nat (String.length seq)))
          (fill os)
      else
        let temp := seq in
        let seq := EmptyString in
        fill_n seq (to_size_t (width os - Z.of_nat (String.length seq)))
          (fill os) ≫= copy_back temp
    else Some seq in
  match padded with
  | None => None
  | Some seq' =>
      Some (mkOstream (written os ++ seq')%string 0 (adjust_left os) (fill os))
  end.

(** The [while] loop of [operator>>] for [_quoted_istr] (quoted.h:127-132),
    where [fuel] bounds the number of turns. *)
Fixpoint quoted_loop (fuel : nat) (delim escape : ascii) (ins : istream)
    (str : string) : istream * string :=
  match fuel with
  | O => (ins, str)
  | S fuel' =>
      match extract_char ins with
      | (ins1, None) => (ins1, str)
      | (ins1, Some c) =>
          if Ascii.eqb c escape then
            match extract_char ins1 with
            | (ins2, None) => (ins2, str)
            | (ins2, Some c') =>
                quoted_loop fuel' delim escape ins2
                  (str ++ String c' EmptyString)
            end
          else if Ascii.eqb c delim then (ins1, str)
          else
            quoted_loop fuel' delim escape ins1 (str ++ String c EmptyString)
      end
  end.

(** [is >> get_quoted(str, delim, escape)] (quoted.h:108-136).  The loop
    reads at least one character per turn, so it is given one turn more than
    there are characters. *)
Definition get_quoted (delim escape : ascii) (ins : istream) (str : string)
    : istream * string :=
  match extract_char ins with
  | (ins1, None) => (ins1, str)
  | (ins1, Some c) =>
      if negb (Ascii.eqb c delim) then extract_string (unget c ins1) str
      else
        let oldflags := skipws ins1 in
        let ins2 := set_skipws false ins1 in
        let '(ins3, str') :=
          quoted_loop (S (String.length (buf ins2))) delim escape ins2
            EmptyString in
        (set_skipws oldflags ins3, str')
  end.

(** ** The stream operators for a symbol (Grammar.cpp) *)

(** The default delimiter and escape character of quoted.h: the double quote
    and the backslash. *)
Definition default_delim : ascii := "034".
Definition default_escape : ascii := "092".

(** [os << Grammar::put(g, sym)] (Grammar.cpp:140-152): the empty symbol and
    the terminals are written quoted, every other symbol as it is. *)
Definition put_symbol (g : Grammar) (os : ostream) (sym : symbol)
    : option ostream :=
  if bool_decide (sym = epsilon) || has_terminal g sym then
    put_quoted default_delim default_escape os sym
  else Some (insert_string os sym).

(** [is >> Grammar::get(sym)] (Grammar.cpp:244-249). *)
Definition get_symbol (ins : istream) (sym : symbol) : istream * symbol :=
  get_quoted default_delim default_escape ins sym.

(** ** The stream operators for a symbol sequence (Grammar.cpp) *)

(** [os << c] for a character: as for a string of one character. *)
Definition insert_char (os : ostream) (c : ascii) : ostream :=
  insert_string os (String c EmptyString).

(** The characters up to the first line feed, and the ones after it when
    there is one. *)
Fixpoint take_line (b : string) : string * option string :=
  match b with
  | EmptyString => (EmptyString, None)
  | String c rest =>
      if Ascii.eqb c "010" then (EmptyString, Some rest)
      else let '(l, r) := take_line rest in (String c l, r)
  end.

(** [is >> std::ws]: after a sentry that skips nothing, drops white space;
    sets [eofbit], not [failbit], when that reaches the end. *)
Definition std_ws (ins : istream) : istream :=
  let '(ins1, ok) := sentry true ins in
  if ok then
    let b := skip_spaces (buf ins1) in
    setstate (bool_decide (b = EmptyString)) false (set_buf b ins1)
  else ins1.

(** [std::getline(is, str)]: after a sentry that skips nothing, [str] is
    emptied and receives the characters up to the next line feed, which is
    read and dropped; without a line feed [eofbit] is set, and [failbit] too
    when nothing at all was read. *)
Definition getline (ins : istream) (str : string) : istream * string :=
  let '(ins1, ok) := sentry true ins in
  if ok then
    match take_line (buf ins1) with
    | (line, Some rest) => (set_buf rest ins1, line)
    | (line, None) =>
        (setstate true (bool_decide (line = EmptyString))
           (set_buf EmptyString ins1), line)
    end
  else (ins1, str).

(** [std::stringstream ss{line}] *)
Definition stringstream (line : string) : istream :=
  mkIstream line false false true.

(** The loop of [operator<<] for a symbol sequence (Grammar.cpp:159-168) on
    the sequence [x :: rest]: every symbol but the last is followed by a
    space. *)
Fixpoint put_symbols (g : Grammar) (os : ostream) (x : symbol)
    (rest : symbol_sequence) : option ostream :=
  match rest with
  | [] => put_symbol g os x
  | y :: rest' =>
      match put_symbol g os x with
      | None => None
      | Some os1 => put_symbols g (insert_char os1 " ") y rest'
      end
  end.

(** [os << Grammar::put(g, seq)] (Grammar.cpp:154-170).  For the empty
    sequence the bound [size()-1] of the loop wraps around and the iterator
    is read past the end: the behaviour is undefined, rendered as [None]. *)
Definition put_symbol_sequence (g : Grammar) (os : ostream)
    (seq : symbol_sequence) : option ostream :=
  match seq with
  | [] => None
  | x :: rest => put_symbols g os x rest
  end.

(** The loop [while (ss >> Grammar::get(sym)) seq.push_back(sym)]
    (Grammar.cpp:279-281), where [fuel] bounds the number of turns. *)
Fixpoint symbols_loop (fuel : nat) (ss : istream) (sym : symbol)
    (seq : symbol_sequence) : symbol_sequence :=
  match fuel with
  | O => seq
  | S fuel' =>
      let '(ss1, sym1) := get_symbol ss sym in
      if failbit ss1 then seq
      else symbols_loop fuel' ss1 sym1 (seq ++ [sym1])
  end.

(** [is >> Grammar::get(seq)] (Grammar.cpp:268-283).  Every turn of the loop
    reads at least one character of the line, so the loop is given one turn
    more than the line has characters. *)
Definition get_symbol_sequence (ins : istream) : istream * symbol_sequence :=
  let ins1 := std_ws ins in
  if failbit ins1 then (ins1, [])
  else
    let '(ins2, line) := getline ins1 EmptyString in
    if failbit ins2 then (ins2, [])
    else
      (ins2,
       symbols_loop (S (String.length line)) (stringstream line)
         EmptyString []).

(** ** The stream operators for sets, rules and the grammar (Grammar.cpp) *)

(** The elements of a [std::set<symbol>] in iteration order: increasing for
    [operator<] of [std::string], the lexicographic order on the character
    codes. *)
Definition set_order (S : symbol_set) : symbol_sequence :=
  merge_sort String.le (elements S).

(** [os << Grammar::put(g, set)] (Grammar.cpp:172-188): the same loop as for
    a sequence, over the set in iteration order; undefined for the empty
    set. *)
Definition put_symbol_set (g : Grammar) (os : ostream) (S : symbol_set)
    : option ostream :=
  put_symbol_sequence g os (set_order S).

(** The loop [while (ss >> Grammar::get(sym)) set.insert(sym)]
    (Grammar.cpp:262-264). *)
Fixpoint symbol_set_loop (fuel : nat) (ss : istream) (sym : symbol)
    (S : symbol_set) : symbol_set :=
  match fuel with
  | O => S
  | S fuel' =>
      let '(ss1, sym1) := get_symbol ss sym in
      if failbit ss1 then S
      else symbol_set_loop fuel' ss1 sym1 (S ∪ {[sym1]})
  end.

(** [is >> Grammar::get(set)] (Grammar.cpp:251-266). *)
Definition get_symbol_set (ins : istream) : istream * symbol_set :=
  let ins1 := std_ws ins in
  if failbit ins1 then (ins1, ∅)
  else
    let '(ins2, line) := getline ins1 EmptyString in
    if failbit ins2 then (ins2, ∅)
    else
      (ins2,
       symbol_set_loop (S (String.length line)) (stringstream line)
         EmptyString ∅).

(** [os << Grammar::put(g, r)] (Grammar.cpp:190-201): the head, the text
    [" = "], the body. *)
Definition put_rule (g : Grammar) (os : ostream) (r : rule) : option ostream :=
  match put_symbol g os r.1 with
  | None => None
  | Some os1 => put_symbol_sequence g (insert_string os1 " = ") r.2
  end.

(** [is >> Grammar::get(r)] (Grammar.cpp:285-299).  The second component is
    the new value of [r]. *)
Definition get_rule (ins : istream) (r : rule) : istream * rule :=
  let '(ins1, head) := get_symbol ins r.1 in
  if failbit ins1 then (ins1, (head, r.2))
  else
    let '(ins2, equals) := get_symbol ins1 EmptyString in
    if failbit ins2 then (ins2, (head, r.2))
    else if bool_decide (equals ≠ "=") then
      (setstate false true ins2, (head, r.2))
    else
      let '(ins3, body) := get_symbol_sequence ins2 in (ins3, (head, body)).

(** [os << std::endl]: a line feed, written without regard to the field
    width. *)
Definition endl (os : ostream) : ostream :=
  mkOstream (written os ++ String "010" EmptyString)%string (width os)
    (adjust_left os) (fill os).

(** The loop of [operator<<] for a rule set (Grammar.cpp:208-217) on the
    rules [r :: rest]: every rule but the last is followed by a line
    feed. *)
Fixpoint put_rules (g : Grammar) (os : ostream) (r : rule) (rest : list rule)
    : option ostream :=
  match rest with
  | [] => put_rule g os r
  | r' :: rest' =>
      match put_rule g os r with
      | None => None
      | Some os1 => put_rules g (endl os1) r' rest'
      end
  end.

(** [os << Grammar::put(g, rules)] (Grammar.cpp:203-219); undefined for the
    empty rule set. *)
Definition put_rule_set (g : Grammar) (os : ostream) (rs : rule_set)
    : option ostream :=
  match rs with
  | [] => None
  | r :: rest => put_rules g os r rest
  end.

(** [operator<] on [symbol_sequence]: lexicographic. *)
Fixpoint sequence_compare (l1 l2 : symbol_sequence) : comparison :=
  match l1, l2 with
  | [], [] => Eq
  | [], _ :: _ => Lt
  | _ :: _, [] => Gt
  | x :: l1', y :: l2' =>
      match String.compare x y with
      | Eq => sequence_compare l1' l2'
      | c => c
      end
  end.

(** [operator<] on [rule]: the heads first, then the bodies. *)
Definition rule_compare (r1 r2 : rule) : comparison :=
  match String.compare r1.1 r2.1 with
  | Eq => sequence_compare r1.2 r2.2
  | c => c
  end.

(** [rules.insert(r)] on the rule set in iteration order: [r] goes before
    the first greater rule, and nowhere when it is there already. *)
Fixpoint rule_set_insert (r : rule) (rs : rule_set) : rule_set :=
  match rs with
  | [] => [r]
  | r' :: rs' =>
      match rule_compare r r' with
      | Lt => r :: rs
      | Eq => rs
      | Gt => r' :: rule_set_insert r rs'
      end
  end.

(** The loop of [operator>>] for a rule set (Grammar.cpp:310-315), where
    [fuel] bounds the number of turns; [line] and [r] are the variables of
    these names. *)
Fixpoint rules_loop (fuel : nat) (ins : istream) (line : string) (r : rule)
    (rs : rule_set) : istream * rule_set :=
  match fuel with
  | O => (ins, rs)
  | S fuel' =>
      let '(ins1, line1) := getline ins line in
      if failbit ins1 then (ins1, rs)
      else if bool_decide (line1 = EmptyString) then (ins1, rs)
      else
        let '(ss1, r1) := get_rule (stringstream line1) r in
        if failbit ss1 then (ins1, rs)
        else rules_loop fuel' ins1 line1 r1 (rule_set_insert r1 rs)
  end.

(** [is >> Grammar::get(rules)] (Grammar.cpp:301-317).  Every turn that
    goes on reads at least one character, so the loop is given one turn more
    than there are characters. *)
Definition get_rule_set (ins : istream) : istream * rule_set :=
  let ins1 := std_ws ins in
  if failbit ins1 then (ins1, [])
  else
    rules_loop (S (String.length (buf ins1))) ins1 EmptyString
      (EmptyString, []) [].

(** [os << Grammar::put(g)] (Grammar.cpp:221-242). *)
Definition put_grammar (g : Grammar) (os : ostream) : option ostream :=
  match put_symbol_set g os (non_terminals g) with
  | None => None
  | Some os1 =>
      match put_symbol_set g (endl (endl os1)) (terminals g) with
      | None => None
      | Some os2 =>
          match put_rule_set g (endl (endl os2)) (rules g) with
          | None => None
          | Some os3 => put_symbol g (endl (endl os3)) (start g)
          end
      end
  end.

(** [is >> Grammar::get(g)] (Grammar.cpp:319-330).  The second component is
    the new value of [g]. *)
Definition get_grammar (ins : istream) (g : Grammar) : istream * Grammar :=
  let '(ins1, nts) := get_symbol_set ins in
  let g1 := mkGrammar nts (terminals g) (rules g) (start g) in
  if failbit ins1 then (ins1, g1)
  else
    let '(ins2, ts) := get_symbol_set ins1 in
    let g2 := mkGrammar nts ts (rules g) (start g) in
    if failbit ins2 then (ins2, g2)
    else
      let '(ins3, rs) := get_rule_set ins2 in
      let g3 := mkGrammar nts ts rs (start g) in
      if failbit ins3 then (ins3, g3)
      else
        let '(ins4, st) := get_symbol ins3 (start g) in
        (ins4, mkGrammar nts ts rs st).

(** ** Notions used to state the properties of the stream operators *)

(** Every character of [s] satisfies [p]. *)
Fixpoint string_forallb (p : ascii -> bool) (s : string) : bool :=
  match s with
  | EmptyString => true
  | String c rest => p c && string_forallb p rest
  end.

(** A text that [get_quoted] reads as an unquoted token: not empty, not
    starting with the delimiter, without white space. *)
Definition plain (delim : ascii) (t : string) : bool :=
  match t with
  | EmptyString => false
  | String c _ =>
      negb (Ascii.eqb c delim) && string_forallb (λ c, negb (isspace c)) t
  end.

(** The text is empty or starts with white space: a token before it ends
    there. *)
Definition ends_token (rest : string) : bool :=
  match rest with
  | EmptyString => true
  | String c _ => isspace c
  end.

(** A symbol that can be written and read back: it holds no line feed, and
    it is the empty symbol or a terminal (these are written quoted), or it
    is read as an unquoted token. *)
Definition writable (g : Grammar) (sym : symbol) : bool :=
  string_forallb (λ c, negb (Ascii.eqb c "010")) sym &&
  (bool_decide (sym = epsilon) || has_terminal g sym ||
   plain default_delim sym).

(** The text of a symbol, as [put_symbol] writes it with no field width. *)
Definition symbol_text (g : Grammar) (sym : symbol) : string :=
  if bool_decide (sym = epsilon) || has_terminal g sym then
    quoted_text default_delim default_escape sym
  else sym.

(** The text of the sequence [x :: rest]: the texts of the symbols with one
    space between them. *)
Fixpoint symbols_text (g : Grammar) (x : symbol) (rest : symbol_sequence)
    : string :=
  match rest with
  | [] => symbol_text g x
  | y :: rest' =>
      (symbol_text g x ++ String " " (symbols_text g y rest'))%string
  end.

(** The text is empty or starts with a line feed: a line before it ends
    there. *)
Definition ends_line (tail : string) : bool :=
  match tail with
  | EmptyString => true
  | String c _ => Ascii.eqb c "010"
  end.

(** What is left of [tail] once the line feed that starts it is read. *)
Definition after_line_feed (tail : string) : string :=
  match tail with
  | EmptyString => EmptyString
  | String _ more => more
  end.

(** The text of the rule [h = x rest]. *)
Definition rule_text (g : Grammar) (h x : symbol) (rest : symbol_sequence)
    : string :=
  (symbol_text g h ++ " = " ++ symbols_text g x rest)%string.

(** A rule that can be written and read back: a writable head and a
    non-empty body of writable symbols. *)
Definition writable_rule (g : Grammar) (r : rule) : bool :=
  writable g r.1 &&
  match r.2 with
  | [] => false
  | _ :: _ => forallb (writable g) r.2
  end.

(** The line of a rule with a non-empty body. *)
Definition rule_line (g : Grammar) (r : rule) : string :=
  match r.2 with
  | [] => EmptyString
  | x :: rest => rule_text g r.1 x rest
  end.

(** The text of the rules [r :: rest]: one line each, with a line feed
    between two lines. *)
Fixpoint rules_text (g : Grammar) (r : rule) (rest : list rule) : string :=
  match rest with
  | [] => rule_line g r
  | r' :: rest' =>
      (rule_line g r ++ String "010" (rules_text g r' rest'))%string
  end.

(** The rules are in strictly increasing order, as the elements of a
    [std::set<rule>] are in iteration order. *)
Fixpoint ascending (rs : list rule) : bool :=
  match rs with
  | [] => true
  | r :: rs' =>
      forallb
        (λ r', match rule_compare r r' with Lt => true | _ => false end) rs'
      && ascending rs'
  end.

(** A grammar that [put_grammar] can write and [get_grammar] read back: no
    component is empty, every symbol is writable, every rule has a body, and
    the rules are in the order of the rule set. *)
Definition printable (g : Grammar) : bool :=
  negb (bool_decide (non_terminals g = ∅)) &&
  negb (bool_decide (terminals g = ∅)) &&
  forallb (writable g) (elements (non_terminals g)) &&
  forallb (writable g) (elements (terminals g)) &&
  negb (bool_decide (rules g = [])) &&
  forallb (writable_rule g) (rules g) && ascending (rules g) &&
  writable g (start g).

(** The number of characters of the text written by [put_quoted] before
    padding. *)
Definition quoted_length (delim escape : ascii) (str : string) : nat :=
  String.length (escape_chars delim escape str) + 2.

(** ** The loops add to their accumulator *)

Lemma scan_body_acc rec sym body acc :
  scan_body rec sym body acc = add_acc acc (scan_body rec sym body ∅).
Proof.
  revert acc. induction body as [|b rest IH]; intros acc; simpl.
  - f_equal. f_equal. set_solver.
  - destruct (decide (b = sym)); [apply IH|].
    destruct (rec b) as [F|]; [|done]. simpl.
    destruct (bool_decide (epsilon ∈ F)).
    + rewrite (IH (acc ∪ _)), (IH (∅ ∪ _)).
      destruct (scan_body rec sym rest ∅) as [[F' e]|]; [|done]. simpl.
      f_equal. f_equal. set_solver.
    + simpl. f_equal. f_equal. set_solver.
Qed.

Lemma scan_seq_acc rec seq acc :
  scan_seq rec seq acc = add_acc acc (scan_seq rec seq ∅).
Proof.
  revert acc. induction seq as [|b rest IH]; intros acc; simpl.
  - f_equal. f_equal. set_solver.
  - destruct (rec b) as [F|]; [|done]. simpl.
    destruct (bool_decide (epsilon ∈ F)).
    + rewrite (IH (acc ∪ _)), (IH (∅ ∪ _)).
      destruct (scan_seq rec rest ∅) as [[F' e]|]; [|done]. simpl.
      f_equal. f_equal. set_solver.
    + simpl. f_equal. f_equal. set_solver.
Qed.

Lemma scan_rules_cons rec sym r rs acc :
  scan_rules rec sym (r :: rs) acc =
  rule_step rec sym r acc ≫= scan_rules rec sym rs.
Proof.
  unfold rule_step. simpl. destruct (decide (r.1 = sym)); [|done].
  by destruct (scan_body rec sym r.2 acc) as [[F at_end]|].
Qed.

Lemma rule_step_acc rec sym r acc :
  rule_step rec sym r acc = union acc <$> rule_step rec sym r ∅.
Proof.
  unfold rule_step. destruct (decide (r.1 = sym)); simpl.
  - rewrite scan_body_acc.
    destruct (scan_body rec sym r.2 ∅) as [[F at_end]|]; [|done]. simpl.
    f_equal. destruct at_end; set_solver.
  - f_equal. set_solver.
Qed.

Lemma scan_rules_acc rec sym rs acc :
  scan_rules rec sym rs acc = union acc <$> scan_rules rec sym rs ∅.
Proof.
  revert acc. induction rs as [|r rs IH]; intros acc.
  - simpl. f_equal. set_solver.
  - rewrite !scan_rules_cons, rule_step_acc.
    destruct (rule_step rec sym r ∅) as [F|]; [|done]. simpl.
    rewrite (IH (acc ∪ F)), (IH F).
    destruct (scan_rules rec sym rs ∅) as [F'|]; [|done]. simpl.
    f_equal. set_solver.
Qed.

Lemma follow_rules_cons frec wrec nt r rs acc :
  follow_rules frec wrec nt (r :: rs) acc =
  follow_step frec wrec nt r acc ≫= follow_rules frec wrec nt rs.
Proof.
  unfold follow_step. simpl. destruct (decide (r.1 = nt)); [done|].
  destruct (find_after nt r.2) as [after|]; [|done].
  destruct (frec after) as [F|]; [|done]. simpl.
  destruct (bool_decide (after = []) || bool_decide (epsilon ∈ F)); [|done].
  by destruct (wrec r.1).
Qed.

Lemma follow_step_acc frec wrec nt r acc :
  follow_step frec wrec nt r acc = union acc <$> follow_step frec wrec nt r ∅.
Proof.
  unfold follow_step. destruct (decide (r.1 = nt)); simpl.
  { f_equal. set_solver. }
  destruct (find_after nt r.2) as [after|]; simpl.
  2:{ f_equal. set_solver. }
  destruct (frec after) as [F|]; [|done]. simpl.
  destruct (bool_decide (after = []) || bool_decide (epsilon ∈ F)).
  - destruct (wrec r.1) as [F'|]; [|done]. simpl. f_equal. set_solver.
  - simpl. f_equal. set_solver.
Qed.

Lemma follow_rules_acc frec wrec nt rs acc :
  follow_rules frec wrec nt rs acc =
  union acc <$> follow_rules frec wrec nt rs ∅.
Proof.
  revert acc. induction rs as [|r rs IH]; intros acc.
  - simpl. f_equal. set_solver.
  - rewrite !follow_rules_cons, follow_step_acc.
    destruct (follow_step frec wrec nt r ∅) as [F|]; [|done]. simpl.
    rewrite (IH (acc ∪ F)), (IH F).
    destruct (follow_rules frec wrec nt rs ∅) as [F'|]; [|done]. simpl.
    f_equal. set_solver.
Qed.

(** ** More call depth never changes a result *)

Lemma scan_body_mono rec rec' sym body acc res :
  rec_le rec rec' ->
  scan_body rec sym body acc = Some res ->
  scan_body rec' sym body acc = Some res.
Proof.
  intros Hle. revert acc. induction body as [|b rest IH]; intros acc; simpl.
  - done.
  - destruct (decide (b = sym)); [apply IH|].
    destruct (rec b) as [F|] eqn:Hb; [|done].
    rewrite (Hle _ _ Hb). simpl.
    destruct (bool_decide (epsilon ∈ F)); [apply IH|done].
Qed.

Lemma scan_seq_mono rec rec' seq acc res :
  rec_le rec rec' ->
  scan_seq rec seq acc = Some res ->
  scan_seq rec' seq acc = Some res.
Proof.
  intros Hle. revert acc. induction seq as [|b rest IH]; intros acc; simpl.
  - done.
  - destruct (rec b) as [F|] eqn:Hb; [|done].
    rewrite (Hle _ _ Hb). simpl.
    destruct (bool_decide (epsilon ∈ F)); [apply IH|done].
Qed.

Lemma scan_rules_mono rec rec' sym rs acc res :
  rec_le rec rec' ->
  scan_rules rec sym rs acc = Some res ->
  scan_rules rec' sym rs acc = Some res.
Proof.
  intros Hle. revert acc. induction rs as [|r rs IH]; intros acc; simpl.
  - done.
  - destruct (decide (r.1 = sym)); [|apply IH].
    destruct (scan_body rec sym r.2 acc) as [[F at_end]|] eqn:Hb; [|done].
    rewrite (scan_body_mono _ _ _ _ _ _ Hle Hb). apply IH.
Qed.

Lemma follow_rules_mono frec frec' wrec wrec' nt rs acc res :
  rec_le frec frec' -> rec_le wrec wrec' ->
  follow_rules frec wrec nt rs acc = Some res ->
  follow_rules frec' wrec' nt rs acc = Some res.
Proof.
  intros Hf Hw. revert acc. induction rs as [|r rs IH]; intros acc; simpl.
  - done.
  - destruct (decide (r.1 = nt)); [apply IH|].
    destruct (find_after nt r.2) as [after|]; [|apply IH].
    destruct (frec after) as [F|] eqn:Ha; [|done].
    rewrite (Hf _ _ Ha). simpl.
    destruct (bool_decide (after = []) || bool_decide (epsilon ∈ F));
      [|apply IH].
    destruct (wrec r.1) as [F'|] eqn:Hh; [|done].
    rewrite (Hw _ _ Hh). apply IH.
Qed.

Lemma first_single_step g n : rec_le (first_single n g) (first_single (S n) g).
Proof.
  induction n as [|n IH]; intros sym F; [done|].
  change (first_single (S (S n)) g sym) with
    (if bool_decide (sym = epsilon) || has_terminal g sym then Some {[sym]}
     else scan_rules (first_single (S n) g) sym (rules g) ∅).
  simpl. destruct (bool_decide (sym = epsilon) || has_terminal g sym);
    [done|].
  by apply scan_rules_mono.
Qed.

Lemma first_single_mono g n m :
  n <= m -> rec_le (first_single n g) (first_single m g).
Proof.
  induction 1 as [|m _ IH]; intros sym F H; [done|].
  by apply first_single_step, IH.
Qed.

Lemma first_mono g n m : n <= m -> rec_le (first n g) (first m g).
Proof.
  intros Hnm seq F. unfold first. destruct seq as [|s rest]; [done|].
  destruct (scan_seq (first_single n g) (s :: rest) ∅) as [[F' at_end]|]
    eqn:Hs; [|done].
  by rewrite (scan_seq_mono _ _ _ _ _ (first_single_mono g n m Hnm) Hs).
Qed.

Lemma follow_step_fuel g n : rec_le (follow n g) (follow (S n) g).
Proof.
  induction n as [|n IH]; intros nt F; [done|].
  change (follow (S (S n)) g nt) with
    (follow_rules (first (S n) g) (follow (S n) g) nt (rules g)
       (if decide (nt = start g) then {[epsilon]} else ∅)).
  simpl. apply follow_rules_mono; [|done]. apply first_mono. lia.
Qed.

Lemma follow_mono g n m : n <= m -> rec_le (follow n g) (follow m g).
Proof.
  induction 1 as [|m _ IH]; intros nt F H; [done|].
  by apply follow_step_fuel, IH.
Qed.

(** A call has at most one result, whatever the depth it was given. *)
Lemma first_functional g n m seq F F' :
  first n g seq = Some F -> first m g seq = Some F' -> F = F'.
Proof.
  intros H H'.
  apply (first_mono g n (n `max` m)) in H; [|lia].
  apply (first_mono g m (n `max` m)) in H'; [|lia]. congruence.
Qed.

Lemma follow_functional g n m nt F F' :
  follow n g nt = Some F -> follow m g nt = Some F' -> F = F'.
Proof.
  intros H H'.
  apply (follow_mono g n (n `max` m)) in H; [|lia].
  apply (follow_mono g m (n `max` m)) in H'; [|lia]. congruence.
Qed.

(** ** Results hold only terminals and the empty symbol *)

Section terminals_only.
Variable g : Grammar.
#[local] Abbreviation ok := (terminals_or_epsilon g).

Lemma ok_empty : ok ∅.
Proof. intros x. set_solver. Qed.

Lemma ok_union F F' : ok F -> ok F' -> ok (F ∪ F').
Proof. intros H H' x [?|?]%elem_of_union; auto. Qed.

Lemma ok_erase F : ok F -> ok (F ∖ {[epsilon]}).
Proof. intros H x [? _]%elem_of_difference. auto. Qed.

Lemma ok_epsilon : ok {[epsilon]}.
Proof. intros x ->%elem_of_singleton. by left. Qed.

#[local] Hint Resolve ok_empty ok_union ok_erase ok_epsilon : core.

Lemma scan_body_ok rec sym body acc F at_end :
  returns_only ok rec -> ok acc ->
  scan_body rec sym body acc = Some (F, at_end) -> ok F.
Proof.
  intros Hrec. revert acc.
  induction body as [|b rest IH]; intros acc Hacc; simpl.
  - by intros [= <- _].
  - destruct (decide (b = sym)); [by apply IH|].
    destruct (rec b) as [Fb|] eqn:Hb; [|done]. simpl.
    apply Hrec in Hb.
    destruct (bool_decide (epsilon ∈ Fb)); [apply IH; auto|].
    intros [= <- _]. auto.
Qed.

Lemma scan_seq_ok rec seq acc F at_end :
  returns_only ok rec -> ok acc ->
  scan_seq rec seq acc = Some (F, at_end) -> ok F.
Proof.
  intros Hrec. revert acc.
  induction seq as [|b rest IH]; intros acc Hacc; simpl.
  - by intros [= <- _].
  - destruct (rec b) as [Fb|] eqn:Hb; [|done]. simpl.
    apply Hrec in Hb.
    destruct (bool_decide (epsilon ∈ Fb)); [apply IH; auto|].
    intros [= <- _]. auto.
Qed.

Lemma scan_rules_ok rec sym rs acc F :
  returns_only ok rec -> ok acc ->
  scan_rules rec sym rs acc = Some F -> ok F.
Proof.
  intros Hrec. revert acc.
  induction rs as [|r rs IH]; intros acc Hacc; simpl.
  - by intros [= <-].
  - destruct (decide (r.1 = sym)); [|by apply IH].
    destruct (scan_body rec sym r.2 acc) as [[F' at_end]|] eqn:Hb; [|done].
    apply scan_body_ok in Hb; [|done..].
    apply IH. destruct at_end; auto.
Qed.

Lemma follow_rules_ok frec wrec nt rs acc F :
  returns_only ok frec -> returns_only ok wrec -> ok acc ->
  follow_rules frec wrec nt rs acc = Some F -> ok F.
Proof.
  intros Hf Hw. revert acc.
  induction rs as [|r rs IH]; intros acc Hacc; simpl.
  - by intros [= <-].
  - destruct (decide (r.1 = nt)); [by apply IH|].
    destruct (find_after nt r.2) as [after|]; [|by apply IH].
    destruct (frec after) as [Fa|] eqn:Ha; [|done]. simpl.
    apply Hf in Ha.
    destruct (bool_decide (after = []) || bool_decide (epsilon ∈ Fa));
      [|apply IH; auto].
    destruct (wrec r.1) as [Fh|] eqn:Hh; [|done].
    apply Hw in Hh. apply IH; auto.
Qed.

Lemma first_single_ok fuel : returns_only ok (first_single fuel g).
Proof.
  induction fuel as [|n IH]; intros sym F; [done|]. simpl.
  destruct (bool_decide (sym = epsilon)) eqn:He; simpl.
  { apply bool_decide_eq_true in He. intros [= <-] x ->%elem_of_singleton.
    by left. }
  unfold has_terminal. destruct (bool_decide (sym ∈ terminals g)) eqn:Ht.
  { apply bool_decide_eq_true in Ht. intros [= <-] x ->%elem_of_singleton.
    by right. }
  by apply scan_rules_ok.
Qed.

Lemma first_ok fuel : returns_only ok (first fuel g).
Proof.
  intros seq F. unfold first. destruct seq as [|s rest].
  { intros [= <-]. auto. }
  destruct (scan_seq (first_single fuel g) (s :: rest) ∅)
    as [[F' at_end]|] eqn:Hs; [|done].
  apply scan_seq_ok in Hs; [|apply first_single_ok|auto].
  intros [= <-]. destruct at_end; auto.
Qed.

Lemma follow_ok fuel : returns_only ok (follow fuel g).
Proof.
  induction fuel as [|n IH]; intros nt F; [done|]. simpl.
  apply follow_rules_ok; [apply first_ok|done|].
  destruct (decide (nt = start g)); auto.
Qed.
End terminals_only.

(** ** The order of the rules does not matter *)

Lemma scan_body_ext rec rec' sym body acc :
  (∀ x, rec x = rec' x) ->
  scan_body rec sym body acc = scan_body rec' sym body acc.
Proof.
  intros Heq. revert acc. induction body as [|b rest IH]; intros acc; simpl.
  - done.
  - rewrite <- Heq. destruct (decide (b = sym)); [apply IH|].
    destruct (rec b) as [F|]; [|done]. simpl.
    destruct (bool_decide (epsilon ∈ F)); [apply IH|done].
Qed.

Lemma scan_seq_ext rec rec' seq acc :
  (∀ x, rec x = rec' x) -> scan_seq rec seq acc = scan_seq rec' seq acc.
Proof.
  intros Heq. revert acc. induction seq as [|b rest IH]; intros acc; simpl.
  - done.
  - rewrite <- Heq. destruct (rec b) as [F|]; [|done]. simpl.
    destruct (bool_decide (epsilon ∈ F)); [apply IH|done].
Qed.

Lemma scan_rules_ext rec rec' sym rs acc :
  (∀ x, rec x = rec' x) ->
  scan_rules rec sym rs acc = scan_rules rec' sym rs acc.
Proof.
  intros Heq. revert acc. induction rs as [|r rs IH]; intros acc; simpl.
  - done.
  - rewrite (scan_body_ext rec rec') by done.
    destruct (decide (r.1 = sym)); [|apply IH].
    destruct (scan_body rec' sym r.2 acc) as [[F at_end]|]; [apply IH|done].
Qed.

Lemma follow_rules_ext frec frec' wrec wrec' nt rs acc :
  (∀ x, frec x = frec' x) -> (∀ x, wrec x = wrec' x) ->
  follow_rules frec wrec nt rs acc = follow_rules frec' wrec' nt rs acc.
Proof.
  intros Hf Hw. revert acc. induction rs as [|r rs IH]; intros acc; simpl.
  - done.
  - destruct (decide (r.1 = nt)); [apply IH|].
    destruct (find_after nt r.2) as [after|]; [|apply IH].
    rewrite <- Hf, <- Hw.
    destruct (frec after) as [F|]; [|done]. simpl.
    destruct (bool_decide (after = []) || bool_decide (epsilon ∈ F));
      [|apply IH].
    destruct (wrec r.1) as [F'|]; [apply IH|done].
Qed.

Lemma scan_rules_run rec sym rs acc :
  scan_rules rec sym rs acc = run_steps (rule_step rec sym) rs acc.
Proof.
  revert acc. induction rs as [|r rs IH]; intros acc; [done|].
  rewrite scan_rules_cons. cbn [run_steps].
  destruct (rule_step rec sym r acc) as [F|]; [apply IH|done].
Qed.

Lemma follow_rules_run frec wrec nt rs acc :
  follow_rules frec wrec nt rs acc =
  run_steps (follow_step frec wrec nt) rs acc.
Proof.
  revert acc. induction rs as [|r rs IH]; intros acc; [done|].
  rewrite follow_rules_cons. cbn [run_steps].
  destruct (follow_step frec wrec nt r acc) as [F|]; [apply IH|done].
Qed.

Section run_steps_perm.
Context {R : Type} (step : R -> symbol_set -> option symbol_set).
Hypothesis step_acc : ∀ r acc, step r acc = union acc <$> step r ∅.

Lemma run_steps_swap x y l acc :
  run_steps step (y :: x :: l) acc = run_steps step (x :: y :: l) acc.
Proof.
  cbn [run_steps]. rewrite (step_acc y acc), (step_acc x acc).
  destruct (step y ∅) as [Fy|] eqn:Hy; destruct (step x ∅) as [Fx|] eqn:Hx;
    cbn [fmap option_fmap option_map mbind option_bind];
    rewrite ?(step_acc _ (acc ∪ _)), ?Hx, ?Hy;
    cbn [fmap option_fmap option_map mbind option_bind]; try done.
  f_equal. set_solver.
Qed.

Lemma run_steps_perm rs rs' acc :
  rs ≡ₚ rs' -> run_steps step rs acc = run_steps step rs' acc.
Proof.
  intros Hp. revert acc.
  induction Hp as [|x l l' _ IH|x y l|l l' l'' _ IH1 _ IH2]; intros acc.
  - done.
  - cbn [run_steps]. destruct (step x acc) as [F|]; [apply IH|done].
  - apply run_steps_swap.
  - by rewrite IH1.
Qed.
End run_steps_perm.

Lemma scan_rules_perm rec sym rs rs' acc :
  rs ≡ₚ rs' -> scan_rules rec sym rs acc = scan_rules rec sym rs' acc.
Proof.
  intros Hp. rewrite !scan_rules_run.
  apply run_steps_perm; [|done]. intros r a. apply rule_step_acc.
Qed.

Lemma follow_rules_perm frec wrec nt rs rs' acc :
  rs ≡ₚ rs' ->
  follow_rules frec wrec nt rs acc = follow_rules frec wrec nt rs' acc.
Proof.
  intros Hp. rewrite !follow_rules_run.
  apply run_steps_perm; [|done]. intros r a. apply follow_step_acc.
Qed.

Lemma first_single_perm g rs fuel sym :
  rules g ≡ₚ rs ->
  first_single fuel (with_rules g rs) sym = first_single fuel g sym.
Proof.
  intros Hp. revert sym. induction fuel as [|n IH]; intros sym; [done|].
  simpl. unfold has_terminal at 1 2. simpl.
  destruct (bool_decide (sym = epsilon) || bool_decide (sym ∈ terminals g));
    [done|].
  rewrite (scan_rules_ext _ (first_single n g)) by done.
  symmetry. by apply scan_rules_perm.
Qed.

Lemma first_perm g rs fuel seq :
  rules g ≡ₚ rs -> first fuel (with_rules g rs) seq = first fuel g seq.
Proof.
  intros Hp. unfold first. destruct seq as [|s rest]; [done|].
  rewrite (scan_seq_ext _ (first_single fuel g)); [done|].
  intros x. by apply first_single_perm.
Qed.

Lemma follow_perm g rs fuel nt :
  rules g ≡ₚ rs -> follow fuel (with_rules g rs) nt = follow fuel g nt.
Proof.
  intros Hp. revert nt. induction fuel as [|n IH]; intros nt; [done|].
  simpl.
  rewrite (follow_rules_ext _ (first n g) _ (follow n g));
    [|intros x; by apply first_perm|done].
  symmetry. by apply follow_rules_perm.
Qed.

(** ** Auxiliary facts *)

Lemma first_single_S n g sym :
  first_single (S n) g sym =
  if bool_decide (sym = epsilon) || has_terminal g sym then Some {[sym]}
  else scan_rules (first_single n g) sym (rules g) ∅.
Proof. done. Qed.

Lemma follow_S n g nt :
  follow (S n) g nt =
  follow_rules (first n g) (follow n g) nt (rules g)
    (if decide (nt = start g) then {[epsilon]} else ∅).
Proof. done. Qed.

Lemma head_rank_le rank rs r :
  r ∈ rs -> rank r.1 <= max_head_rank rank rs.
Proof.
  induction rs as [|r' rs IH]; simpl.
  - by intros ?%elem_of_nil.
  - intros [->|Hr]%elem_of_cons; [lia|]. apply IH in Hr. lia.
Qed.

Lemma find_after_elem nt body after :
  find_after nt body = Some after ->
  nt ∈ body ∧ ∀ x, x ∈ after -> x ∈ body.
Proof.
  revert after. induction body as [|b rest IH]; intros after; simpl; [done|].
  destruct (decide (b = nt)) as [->|Hne].
  - intros [= ->]. split; [by left|]. intros x Hx. by right.
  - intros [Hnt Hafter]%IH. split; [by right|].
    intros x Hx. right. auto.
Qed.

(** ** How the loops compose *)

Lemma scan_seq_app rec s1 s2 acc :
  scan_seq rec (s1 ++ s2) acc =
  match scan_seq rec s1 acc with
  | None => None
  | Some (F, true) => scan_seq rec s2 F
  | Some (F, false) => Some (F, false)
  end.
Proof.
  revert acc. induction s1 as [|s rest IH]; intros acc; simpl; [done|].
  destruct (rec s) as [Fs|]; [|done]. simpl.
  destruct (bool_decide (epsilon ∈ Fs)); [apply IH|done].
Qed.

Lemma scan_seq_no_epsilon rec seq acc F at_end :
  epsilon ∉ acc -> scan_seq rec seq acc = Some (F, at_end) -> epsilon ∉ F.
Proof.
  revert acc. induction seq as [|s rest IH]; intros acc Hacc; simpl.
  - by intros [= <- _].
  - destruct (rec s) as [Fs|]; [|done]. simpl.
    destruct (bool_decide (epsilon ∈ Fs)).
    + apply IH. set_solver.
    + intros [= <- _]. set_solver.
Qed.

Lemma scan_body_no_epsilon rec sym body acc F at_end :
  epsilon ∉ acc -> scan_body rec sym body acc = Some (F, at_end) ->
  epsilon ∉ F.
Proof.
  revert acc. induction body as [|s rest IH]; intros acc Hacc; simpl.
  - by intros [= <- _].
  - destruct (decide (s = sym)); [by apply IH|].
    destruct (rec s) as [Fs|]; [|done]. simpl.
    destruct (bool_decide (epsilon ∈ Fs)).
    + apply IH. set_solver.
    + intros [= <- _]. set_solver.
Qed.

(** The inner loop of [first_single] is the loop of [first] run over the
    body without the occurrences of the symbol itself. *)
Lemma scan_body_without_self rec sym body acc :
  scan_body rec sym body acc = scan_seq rec (without_self sym body) acc.
Proof.
  unfold without_self. revert acc.
  induction body as [|b rest IH]; intros acc; [done|].
  rewrite filter_cons. simpl. destruct (decide (b = sym)) as [Heq|Hne].
  - rewrite decide_False by (by intros Hn). apply IH.
  - rewrite decide_True by done. simpl.
    destruct (rec b) as [Fb|]; [|done]. simpl.
    destruct (bool_decide (epsilon ∈ Fb)); [apply IH|done].
Qed.

Lemma first_scan fuel g seq :
  seq ≠ [] ->
  first fuel g seq = close_scan <$> scan_seq (first_single fuel g) seq ∅.
Proof.
  intros Hne. unfold first. destruct seq as [|s rest]; [done|].
  by destruct (scan_seq (first_single fuel g) (s :: rest) ∅) as [[F e]|].
Qed.

Lemma first_one fuel g s : first fuel g [s] = first_single fuel g s.
Proof.
  unfold first. cbn [scan_seq].
  destruct (first_single fuel g s) as [Fs|]; [|done].
  unfold erase_epsilon. destruct (decide (epsilon ∈ Fs)) as [Hin|Hout].
  - rewrite bool_decide_true by done. f_equal.
    apply set_eq. intros x. destruct (decide (x = epsilon)) as [->|]; set_solver.
  - rewrite bool_decide_false by done. f_equal. set_solver.
Qed.

Lemma scan_seq_at_end rec seq acc F at_end :
  scan_seq rec seq acc = Some (F, at_end) ->
  at_end = true ↔ Forall (λ s, ∃ Fs, rec s = Some Fs ∧ epsilon ∈ Fs) seq.
Proof.
  revert acc. induction seq as [|s rest IH]; intros acc; simpl.
  - intros [= _ <-]. split; [by constructor|done].
  - destruct (rec s) as [Fs|] eqn:Hs; [|done]. simpl.
    destruct (bool_decide (epsilon ∈ Fs)) eqn:He.
    + intros H. apply IH in H. rewrite H. apply bool_decide_eq_true in He.
      split.
      * intros Hall. constructor; [eauto|done].
      * by intros [_ Hall]%Forall_cons.
    + intros [= _ <-]. apply bool_decide_eq_false in He. split; [done|].
      intros [(Fs' & HFs' & Hin) _]%Forall_cons. congruence.
Qed.

Lemma rule_step_body_first fuel g sym body :
  rule_step (first_single fuel g) sym (sym, body) ∅ =
  body_first fuel g sym body.
Proof.
  unfold rule_step, body_first. cbn [fst snd].
  rewrite decide_True by done. rewrite scan_body_without_self.
  destruct (without_self sym body) as [|b rest] eqn:Hb; [done|].
  rewrite first_scan by done.
  by destruct (scan_seq (first_single fuel g) (b :: rest) ∅) as [[F at_end]|].
Qed.

Section run_steps_elements.
Context {R : Type} (step : R -> symbol_set -> option symbol_set).
Hypothesis step_acc : ∀ r acc, step r acc = union acc <$> step r ∅.

Lemma run_steps_returns rs acc F r :
  run_steps step rs acc = Some F -> r ∈ rs -> is_Some (step r ∅).
Proof.
  revert acc. induction rs as [|r' rs IH]; intros acc; cbn [run_steps].
  - by intros _ ?%elem_of_nil.
  - rewrite step_acc. destruct (step r' ∅) as [Fr|] eqn:Hr'; [|done].
    cbn [fmap option_fmap option_map mbind option_bind].
    intros H [->|Hr]%elem_of_cons; [by rewrite Hr'; eauto|].
    by apply (IH _ H).
Qed.

Lemma run_steps_elements rs acc F x :
  run_steps step rs acc = Some F ->
  x ∈ F ↔ x ∈ acc ∨ ∃ r Fr, r ∈ rs ∧ step r ∅ = Some Fr ∧ x ∈ Fr.
Proof.
  revert acc. induction rs as [|r' rs IH]; intros acc; cbn [run_steps].
  - intros [= <-]. split; [by left|].
    intros [?|(r & Fr & ?%elem_of_nil & _)]; done.
  - rewrite step_acc. destruct (step r' ∅) as [Fr'|] eqn:Hr'; [|done].
    cbn [fmap option_fmap option_map mbind option_bind].
    intros H. rewrite (IH _ H). split.
    + intros [[?|?]%elem_of_union|(r & Fr & Hr & Hs & Hx)]; [by left|..].
      * right. exists r', Fr'. split; [by left|done].
      * right. exists r, Fr. split; [by right|done].
    + intros [?|(r & Fr & [->|Hr]%elem_of_cons & Hs & Hx)].
      * left. set_solver.
      * left. rewrite Hr' in Hs. injection Hs as <-. set_solver.
      * right. exists r, Fr. done.
Qed.
End run_steps_elements.

(** ** A call returns exactly when every chain of calls from it ends *)

Lemma first_single_functional g n m s F F' :
  first_single n g s = Some F -> first_single m g s = Some F' -> F = F'.
Proof.
  intros H H'.
  apply (first_single_mono g n (n `max` m)) in H; [|lia].
  apply (first_single_mono g m (n `max` m)) in H'; [|lia]. congruence.
Qed.

(** A scan that returns has asked for every symbol it could reach. *)
Lemma scan_body_reaches rec sym pre b post acc res :
  scan_body rec sym (pre ++ b :: post)%list acc = Some res -> b ≠ sym ->
  Forall (λ b', b' = sym ∨ ∀ F, rec b' = Some F -> epsilon ∈ F) pre ->
  is_Some (rec b).
Proof.
  intros Hscan Hne Hpre. revert acc Hscan.
  induction Hpre as [|b' pre Hb' _ IH]; intros acc; simpl.
  - rewrite decide_False by done. by destruct (rec b).
  - destruct (decide (b' = sym)) as [|Hne']; [apply IH|].
    destruct (rec b') as [F|] eqn:HF; [|done]. simpl.
    destruct Hb' as [|Hb']; [done|].
    rewrite bool_decide_true by auto. apply IH.
Qed.

Lemma scan_seq_reaches rec pre b post acc res :
  scan_seq rec (pre ++ b :: post)%list acc = Some res ->
  Forall (λ b', ∀ F, rec b' = Some F -> epsilon ∈ F) pre ->
  is_Some (rec b).
Proof.
  intros Hscan Hpre. revert acc Hscan.
  induction Hpre as [|b' pre Hb' _ IH]; intros acc; simpl.
  - by destruct (rec b).
  - destruct (rec b') as [F|] eqn:HF; [|done]. simpl.
    rewrite bool_decide_true by auto. apply IH.
Qed.

Lemma scan_rules_scans rec sym rs acc F body :
  scan_rules rec sym rs acc = Some F -> (sym, body) ∈ rs ->
  ∃ acc', is_Some (scan_body rec sym body acc').
Proof.
  revert acc. induction rs as [|r rs IH]; intros acc Hscan Hin.
  { by apply elem_of_nil in Hin. }
  simpl in Hscan. apply elem_of_cons in Hin as [<-|Hin].
  - simpl in Hscan. rewrite decide_True in Hscan by done.
    exists acc. by destruct (scan_body rec sym body acc).
  - destruct (decide (r.1 = sym)); [|by apply (IH acc)].
    destruct (scan_body rec sym r.2 acc) as [[F' at_end]|]; [|done].
    by apply (IH _ Hscan).
Qed.

Lemma follow_rules_asks frec wrec nt rs acc F h body after :
  follow_rules frec wrec nt rs acc = Some F ->
  (h, body) ∈ rs -> h ≠ nt -> find_after nt body = Some after ->
  ∃ Fa, frec after = Some Fa ∧
        (after = [] ∨ epsilon ∈ Fa -> is_Some (wrec h)).
Proof.
  revert acc. induction rs as [|r rs IH]; intros acc Hrun Hin Hne Ha.
  { by apply elem_of_nil in Hin. }
  simpl in Hrun. apply elem_of_cons in Hin as [<-|Hin].
  - simpl in Hrun. rewrite decide_False, Ha in Hrun by done.
    destruct (frec after) as [Fa|]; [|done]. simpl in Hrun.
    exists Fa. split; [done|]. intros Hor.
    assert (bool_decide (after = []) || bool_decide (epsilon ∈ Fa) = true)
      as Hb.
    { destruct Hor as [->|?]; [done|].
      rewrite (bool_decide_true (epsilon ∈ Fa)) by done.
      by rewrite orb_true_r. }
    rewrite Hb in Hrun. by destruct (wrec h).
  - destruct (decide (r.1 = nt)); [by apply (IH acc)|].
    destruct (find_after nt r.2) as [after'|]; [|by apply (IH acc)].
    destruct (frec after') as [Fa'|]; [|done]. simpl in Hrun.
    destruct (bool_decide (after' = []) || bool_decide (epsilon ∈ Fa')).
    + destruct (wrec r.1); [|done]. by apply (IH _ Hrun).
    + by apply (IH _ Hrun).
Qed.

Lemma gives_epsilon_first_single g n b F :
  gives_epsilon g (first_single_of b) ->
  first_single n g b = Some F -> epsilon ∈ F.
Proof.
  intros (m & F' & Hm & He) Hn.
  by rewrite (first_single_functional _ _ _ _ _ _ Hn Hm).
Qed.

Lemma first_single_returns_calls_end g n :
  (∀ sym F, first_single n g sym = Some F ->
            calls_end g (first_single_of sym)).
Proof.
  induction n as [|n IH]; intros sym F H; [done|].
  constructor. intros c' Hc.
  inversion Hc as [|? pre b post He Ht Hin Hne Hpre| |]; subst.
  rewrite first_single_S in H.
  rewrite bool_decide_false in H by done.
  unfold has_terminal in H. rewrite bool_decide_false in H by done.
  simpl in H.
  destruct (scan_rules_scans _ _ _ _ _ _ H Hin) as [acc' [res Hres]].
  destruct (scan_body_reaches _ _ _ _ _ _ _ Hres Hne) as [Fb HFb].
  - eapply Forall_impl; [exact Hpre|]. intros b' [?|Hb']; [by left|right].
    intros F' HF'. by apply (gives_epsilon_first_single g n b').
  - by apply (IH b Fb).
Qed.

Lemma first_returns_calls_end g n seq F :
  first n g seq = Some F -> calls_end g (first_of seq).
Proof.
  intros H. constructor. intros c' Hc.
  inversion Hc as [pre b post Hpre| | |]; subst.
  unfold first in H.
  destruct (pre ++ b :: post)%list as [|s rest] eqn:Hseq.
  { by destruct pre. }
  rewrite <- Hseq in H.
  destruct (scan_seq (first_single n g) (pre ++ b :: post)%list ∅)
    as [res|] eqn:Hres; [|done].
  destruct (scan_seq_reaches _ _ _ _ _ _ Hres) as [Fb HFb].
  - eapply Forall_impl; [exact Hpre|]. intros b' Hb' F' HF'.
    by apply (gives_epsilon_first_single g n b').
  - by apply (first_single_returns_calls_end g n b Fb).
Qed.

Lemma follow_returns_calls_end g n nt F :
  follow n g nt = Some F -> calls_end g (follow_of nt).
Proof.
  revert nt F. induction n as [|n IH]; intros nt F H; [done|].
  rewrite follow_S in H. constructor. intros c' Hc.
  inversion Hc as [| |? h body after Hin Hne Ha|? h body after Hin Hne Ha Hor];
    subst.
  - destruct (follow_rules_asks _ _ _ _ _ _ _ _ _ H Hin Hne Ha)
      as (Fa & HFa & _).
    by apply (first_returns_calls_end g n after Fa).
  - destruct (follow_rules_asks _ _ _ _ _ _ _ _ _ H Hin Hne Ha)
      as (Fa & HFa & Hw).
    destruct Hw as [Fh HFh].
    + destruct Hor as [?|(m & F' & Hm & He)]; [by left|right].
      simpl in Hm. by rewrite (first_functional _ _ _ _ _ _ HFa Hm).
    + by apply (IH h Fh).
Qed.

(** The other direction: the loops return once the calls they make do. *)
Lemma scan_body_returns g sym pre rest :
  (∀ b, calls g (first_single_of sym) (first_single_of b) ->
        ∃ n F, first_single n g b = Some F) ->
  sym ≠ epsilon -> sym ∉ terminals g ->
  (sym, (pre ++ rest)%list) ∈ rules g ->
  Forall (λ b', b' = sym ∨ gives_epsilon g (first_single_of b')) pre ->
  ∃ n, ∀ m acc, n <= m ->
    is_Some (scan_body (first_single m g) sym rest acc).
Proof.
  intros Hcalls He Ht. revert pre.
  induction rest as [|b rest IH]; intros pre Hin Hpre.
  { exists 0. intros m acc _. simpl. eauto. }
  destruct (decide (b = sym)) as [->|Hne].
  - destruct (IH (pre ++ [sym])%list) as [n Hn].
    + by rewrite <- app_assoc.
    + apply Forall_app. split; [done|]. constructor; [by left|done].
    + exists n. intros m acc Hm. simpl. rewrite decide_True by done. auto.
  - destruct (Hcalls b) as (nb & Fb & HFb).
    { by apply (calls_body g sym pre b rest). }
    destruct (decide (epsilon ∈ Fb)) as [Hin'|Hnin].
    + destruct (IH (pre ++ [b])%list) as [n Hn].
      * by rewrite <- app_assoc.
      * apply Forall_app. split; [done|]. constructor; [|done].
        right. by exists nb, Fb.
      * exists (n `max` nb). intros m acc Hm. simpl.
        rewrite decide_False by done.
        rewrite (first_single_mono g nb m ltac:(lia) _ _ HFb). simpl.
        rewrite bool_decide_true by done. apply Hn. lia.
    + exists nb. intros m acc Hm. simpl. rewrite decide_False by done.
      rewrite (first_single_mono g nb m ltac:(lia) _ _ HFb). simpl.
      rewrite bool_decide_false by done. eauto.
Qed.

Lemma scan_rules_returns g sym rs :
  (∀ b, calls g (first_single_of sym) (first_single_of b) ->
        ∃ n F, first_single n g b = Some F) ->
  sym ≠ epsilon -> sym ∉ terminals g ->
  (∀ r, r ∈ rs -> r ∈ rules g) ->
  ∃ n, ∀ m acc, n <= m ->
    is_Some (scan_rules (first_single m g) sym rs acc).
Proof.
  intros Hcalls He Ht. induction rs as [|r rs IH]; intros Hsub.
  { exists 0. intros m acc _. simpl. eauto. }
  destruct IH as [n Hn]. { intros r' Hr'. apply Hsub. by right. }
  destruct (decide (r.1 = sym)) as [Heq|Hne].
  - destruct (scan_body_returns g sym [] r.2 Hcalls He Ht) as [n' Hn'].
    { simpl. rewrite <- Heq. destruct r. apply Hsub. by left. }
    { done. }
    exists (n `max` n'). intros m acc Hm. simpl.
    rewrite decide_True by done.
    destruct (Hn' m acc ltac:(lia)) as [[F at_end] ->]. apply Hn. lia.
  - exists n. intros m acc Hm. simpl. rewrite decide_False by done. auto.
Qed.

Lemma scan_seq_returns g pre rest :
  (∀ b, calls g (first_of (pre ++ rest)%list) (first_single_of b) ->
        ∃ n F, first_single n g b = Some F) ->
  Forall (λ b', gives_epsilon g (first_single_of b')) pre ->
  ∃ n, ∀ m acc, n <= m -> is_Some (scan_seq (first_single m g) rest acc).
Proof.
  revert pre. induction rest as [|b rest IH]; intros pre Hcalls Hpre.
  { exists 0. intros m acc _. simpl. eauto. }
  destruct (Hcalls b) as (nb & Fb & HFb). { by constructor. }
  destruct (decide (epsilon ∈ Fb)) as [Hin'|Hnin].
  - destruct (IH (pre ++ [b])%list) as [n Hn].
    + by rewrite <- app_assoc.
    + apply Forall_app. split; [done|]. constructor; [|done].
      by exists nb, Fb.
    + exists (n `max` nb). intros m acc Hm. simpl.
      rewrite (first_single_mono g nb m ltac:(lia) _ _ HFb). simpl.
      rewrite bool_decide_true by done. apply Hn. lia.
  - exists nb. intros m acc Hm. simpl.
    rewrite (first_single_mono g nb m ltac:(lia) _ _ HFb). simpl.
    rewrite bool_decide_false by done. eauto.
Qed.

Lemma follow_rules_returns g nt rs :
  (∀ after, calls g (follow_of nt) (first_of after) ->
            ∃ n F, first n g after = Some F) ->
  (∀ h, calls g (follow_of nt) (follow_of h) ->
        ∃ n F, follow n g h = Some F) ->
  (∀ r, r ∈ rs -> r ∈ rules g) ->
  ∃ n, ∀ m acc, n <= m ->
    is_Some (follow_rules (first m g) (follow m g) nt rs acc).
Proof.
  intros Hfirst Hfollow. induction rs as [|r rs IH]; intros Hsub.
  { exists 0. intros m acc _. simpl. eauto. }
  destruct IH as [n Hn]. { intros r' Hr'. apply Hsub. by right. }
  destruct (decide (r.1 = nt)) as [Heq|Hne].
  { exists n. intros m acc Hm. simpl. rewrite decide_True by done. auto. }
  destruct (find_after nt r.2) as [after|] eqn:Ha.
  2:{ exists n. intros m acc Hm. simpl.
      rewrite decide_False, Ha by done. auto. }
  assert ((r.1, r.2) ∈ rules g) as Hin.
  { destruct r. apply Hsub. by left. }
  destruct (Hfirst after) as (na & Fa & HFa).
  { by apply (calls_after g nt r.1 r.2). }
  destruct (bool_decide (after = []) || bool_decide (epsilon ∈ Fa)) eqn:Hb.
  - destruct (Hfollow r.1) as (nh & Fh & HFh).
    { apply (calls_head g nt r.1 r.2 after); [done..|].
      apply orb_true_iff in Hb as [Hb|Hb]; apply bool_decide_eq_true in Hb;
        [by left|right]. by exists na, Fa. }
    exists (n `max` (na `max` nh)). intros m acc Hm. simpl.
    rewrite decide_False, Ha by done.
    rewrite (first_mono g na m ltac:(lia) _ _ HFa). simpl. rewrite Hb.
    rewrite (follow_mono g nh m ltac:(lia) _ _ HFh). apply Hn. lia.
  - exists (n `max` na). intros m acc Hm. simpl.
    rewrite decide_False, Ha by done.
    rewrite (first_mono g na m ltac:(lia) _ _ HFa). simpl. rewrite Hb.
    apply Hn. lia.
Qed.

Lemma calls_end_returns g c :
  calls_end g c -> ∃ n F, run n g c = Some F.
Proof.
  induction 1 as [c _ IH]. destruct c as [sym|seq|nt]; simpl.
  - destruct (decide (sym = epsilon)) as [->|He].
    { by exists 1, {[epsilon]}. }
    destruct (decide (sym ∈ terminals g)) as [Ht|Ht].
    { exists 1, {[sym]}. rewrite first_single_S. unfold has_terminal.
      rewrite (bool_decide_true (sym ∈ terminals g)) by done.
      by rewrite orb_true_r. }
    destruct (scan_rules_returns g sym (rules g)) as [n Hn]; [|done..|].
    { intros b Hb. apply (IH _ Hb). }
    destruct (Hn n ∅ ltac:(lia)) as [F HF]. exists (S n), F.
    rewrite first_single_S, bool_decide_false by done.
    unfold has_terminal. by rewrite bool_decide_false by done.
  - destruct seq as [|s rest]; [by exists 0, ∅|].
    destruct (scan_seq_returns g [] (s :: rest)) as [n Hn]; [|done|].
    { intros b Hb. apply (IH _ Hb). }
    destruct (Hn n ∅ ltac:(lia)) as [[F at_end] HF].
    exists n. unfold first. rewrite HF. eauto.
  - destruct (follow_rules_returns g nt (rules g)) as [n Hn]; [| |done|].
    { intros after Ha. apply (IH _ Ha). }
    { intros h Hh. apply (IH _ Hh). }
    destruct (Hn n (if decide (nt = start g) then {[epsilon]} else ∅)
                ltac:(lia)) as [F HF].
    exists (S n), F. by rewrite follow_S.
Qed.

(** ** Grammars whose symbols can be ranked *)

Lemma gives_epsilon_not_terminal g b :
  gives_epsilon g (first_single_of b) ->
  has_terminal g b && negb (bool_decide (b = epsilon)) = false.
Proof.
  intros (n & F & HF & He). simpl in HF.
  destruct (has_terminal g b) eqn:Ht; [|done].
  destruct (bool_decide (b = epsilon)) eqn:Hb; [done|].
  apply bool_decide_eq_false in Hb.
  destruct n as [|n]; [done|]. rewrite first_single_S, Ht in HF.
  rewrite orb_true_r in HF. injection HF as <-.
  by apply elem_of_singleton in He.
Qed.

Lemma scanned_reach g sym pre b post :
  Forall (λ b', b' = sym ∨ gives_epsilon g (first_single_of b')) pre ->
  b ≠ sym -> b ∈ scanned g sym (pre ++ b :: post)%list.
Proof.
  intros Hpre Hne. induction Hpre as [|b' pre Hb' _ IH]; simpl.
  - rewrite decide_False by done.
    destruct (has_terminal g b && negb (bool_decide (b = epsilon)));
      by left.
  - destruct (decide (b' = sym)); [done|].
    destruct Hb' as [|Hb']; [done|].
    rewrite (gives_epsilon_not_terminal g b' Hb'). by right.
Qed.

Lemma first_gives_epsilon g after :
  gives_epsilon g (first_of after) -> may_give_epsilon g after = true.
Proof.
  intros (n & F & HF & He). simpl in HF.
  destruct after as [|s rest]; [done|].
  rewrite first_scan in HF by done.
  destruct (scan_seq (first_single n g) (s :: rest) ∅) as [[F' e]|] eqn:Hs;
    [|done].
  injection HF as <-.
  pose proof (scan_seq_no_epsilon _ _ _ _ _ (not_elem_of_empty _) Hs) as HF.
  destruct e; [|done].
  apply scan_seq_at_end in Hs. apply proj1 in Hs. specialize (Hs eq_refl).
  unfold may_give_epsilon. apply forallb_forall. intros b Hb.
  apply list_elem_of_In in Hb.
  rewrite Forall_forall in Hs. destruct (Hs b Hb) as (Fb & HFb & Heb).
  pose proof (gives_epsilon_not_terminal g b) as Hnt.
  destruct (has_terminal g b); [|done]. simpl.
  destruct (bool_decide (b = epsilon)); [done|].
  simpl in Hnt. discriminate Hnt. by exists n, Fb.
Qed.

Section guarded_grammar.
Variable rank : symbol -> nat.
Variable g : Grammar.
Hypothesis g_guarded : guarded rank g = true.

Lemma guarded_scanned h body b :
  (h, body) ∈ rules g -> b ∈ scanned g h body ->
  b = epsilon ∨ b ∈ terminals g ∨ rank b < rank h.
Proof.
  intros Hr Hb. unfold guarded in g_guarded.
  rewrite forallb_forall in g_guarded.
  apply list_elem_of_In in Hr. apply g_guarded in Hr.
  apply andb_true_iff in Hr as [Hr _]. rewrite forallb_forall in Hr.
  apply list_elem_of_In in Hb. apply Hr in Hb. simpl in Hb.
  apply orb_true_iff in Hb as [Hb|Hb].
  - apply orb_true_iff in Hb as [Hb|Hb].
    + right. left. by apply bool_decide_eq_true in Hb.
    + left. by apply bool_decide_eq_true in Hb.
  - right. right. by apply Nat.ltb_lt in Hb.
Qed.

Lemma guarded_after h body nt after :
  (h, body) ∈ rules g -> h ≠ nt -> find_after nt body = Some after ->
  may_give_epsilon g after = true -> rank nt < rank h.
Proof.
  intros Hr Hne Ha Hm. unfold guarded in g_guarded.
  rewrite forallb_forall in g_guarded.
  apply list_elem_of_In in Hr. apply g_guarded in Hr.
  apply andb_true_iff in Hr as [_ Hr]. rewrite forallb_forall in Hr.
  pose proof (find_after_elem _ _ _ Ha) as [Hnt _].
  apply list_elem_of_In in Hnt. apply Hr in Hnt. simpl in Hnt.
  rewrite Ha, Hm in Hnt. rewrite bool_decide_false in Hnt by done.
  simpl in Hnt. by apply Nat.ltb_lt in Hnt.
Qed.

Lemma guarded_first_single_ends sym : calls_end g (first_single_of sym).
Proof.
  remember (rank sym) as k eqn:Hk. revert sym Hk.
  induction (lt_wf k) as [k _ IH]. intros sym ->.
  constructor. intros c' Hc.
  inversion Hc as [|? pre b post He Ht Hin Hne Hpre| |]; subst.
  pose proof (scanned_reach g sym pre b post Hpre Hne) as Hb.
  destruct (guarded_scanned _ _ _ Hin Hb) as [->|[Hb'|Hlt]].
  - constructor. intros c'' Hc'. by inversion Hc'.
  - constructor. intros c'' Hc'. by inversion Hc'.
  - by apply (IH (rank b)).
Qed.

Lemma guarded_first_ends seq : calls_end g (first_of seq).
Proof.
  constructor. intros c' Hc. inversion Hc; subst.
  apply guarded_first_single_ends.
Qed.

Lemma guarded_follow_ends nt : calls_end g (follow_of nt).
Proof.
  set (M := max_head_rank rank (rules g)).
  remember (M - rank nt) as k eqn:Hk. revert nt Hk.
  induction (lt_wf k) as [k _ IH]. intros nt ->.
  constructor. intros c' Hc.
  inversion Hc as [| |? h body after Hin Hne Ha|? h body after Hin Hne Ha Hor];
    subst.
  - apply guarded_first_ends.
  - assert (may_give_epsilon g after = true) as Hm.
    { destruct Hor as [->|Hor]; [done|]. by apply first_gives_epsilon. }
    pose proof (guarded_after _ _ _ _ Hin Hne Ha Hm) as Hlt.
    pose proof (head_rank_le rank _ _ Hin) as Hle. simpl in Hle. fold M in Hle.
    apply (IH (M - rank h)); [lia|done].
Qed.
End guarded_grammar.

(** ** Grammars with a cycle *)

Lemma cyclic_scan_S rec :
  rec "A" = None -> scan_rules rec "S" (rules cyclic) ∅ = None.
Proof. intros H. vm_compute. by rewrite H. Qed.

Lemma cyclic_scan_A rec :
  rec "S" = None -> scan_rules rec "A" (rules cyclic) ∅ = None.
Proof. intros H. vm_compute. by rewrite H. Qed.

Lemma cyclic_first_single_diverges fuel :
  first_single fuel cyclic "S" = None ∧ first_single fuel cyclic "A" = None.
Proof.
  induction fuel as [|n [IHS IHA]]; [done|]. rewrite !first_single_S. split.
  - by apply cyclic_scan_S.
  - by apply cyclic_scan_A.
Qed.

Lemma cyclic_first_diverges fuel : first fuel cyclic ["S"] = None.
Proof.
  unfold first. cbn [scan_seq].
  by rewrite (proj1 (cyclic_first_single_diverges fuel)).
Qed.

Lemma cyclic_follow_rules_S frec wrec acc :
  frec [] = Some ∅ -> wrec "A" = None ->
  follow_rules frec wrec "S" (rules cyclic) acc = None.
Proof. intros Hf Hw. vm_compute. rewrite Hf. vm_compute. by rewrite Hw. Qed.

Lemma cyclic_follow_rules_A frec wrec acc :
  frec [] = Some ∅ -> wrec "S" = None ->
  follow_rules frec wrec "A" (rules cyclic) acc = None.
Proof. intros Hf Hw. vm_compute. rewrite Hf. vm_compute. by rewrite Hw. Qed.

Lemma cyclic_follow_diverges fuel :
  follow fuel cyclic "S" = None ∧ follow fuel cyclic "A" = None.
Proof.
  induction fuel as [|n [IHS IHA]]; [done|]. rewrite !follow_S. split.
  - by apply cyclic_follow_rules_S.
  - by apply cyclic_follow_rules_A.
Qed.

Lemma zero_rule_cycle_follow_rules_A frec wrec acc :
  frec [] = Some ∅ -> wrec "B" = None ->
  follow_rules frec wrec "A" (rules zero_rule_cycle) acc = None.
Proof. intros Hf Hw. vm_compute. rewrite Hf. vm_compute. by rewrite Hw. Qed.

Lemma zero_rule_cycle_follow_rules_B frec wrec acc :
  frec [] = Some ∅ -> wrec "A" = None ->
  follow_rules frec wrec "B" (rules zero_rule_cycle) acc = None.
Proof. intros Hf Hw. vm_compute. rewrite Hf. vm_compute. by rewrite Hw. Qed.

Lemma zero_rule_cycle_follow_rules_N frec wrec acc :
  frec [] = Some ∅ -> wrec "A" = None ->
  follow_rules frec wrec "N" (rules zero_rule_cycle) acc = None.
Proof. intros Hf Hw. vm_compute. rewrite Hf. vm_compute. by rewrite Hw. Qed.

Lemma zero_rule_cycle_follow_diverges fuel :
  follow fuel zero_rule_cycle "A" = None ∧
  follow fuel zero_rule_cycle "B" = None.
Proof.
  induction fuel as [|n [IHA IHB]]; [done|]. rewrite !follow_S. split.
  - by apply zero_rule_cycle_follow_rules_A.
  - by apply zero_rule_cycle_follow_rules_B.
Qed.

Lemma zero_rule_cycle_follow_N fuel : follow fuel zero_rule_cycle "N" = None.
Proof.
  destruct fuel as [|n]; [done|]. rewrite follow_S.
  apply zero_rule_cycle_follow_rules_N; [done|].
  apply zero_rule_cycle_follow_diverges.
Qed.

(** ** Symbols without a rule, symbols that occur nowhere *)

Lemma scan_rules_no_rule rec N rs acc :
  Forall (λ r : rule, r.1 ≠ N) rs -> scan_rules rec N rs acc = Some acc.
Proof.
  induction 1 as [|r rs' Hr _ IH]; [done|]. simpl. by rewrite decide_False.
Qed.

Lemma follow_rules_not_in_body frec wrec x rs acc :
  Forall (λ r : rule, (r.1 ≠ x) ∧ (x ∉ r.2)) rs ->
  follow_rules frec wrec x rs acc = Some acc.
Proof.
  induction 1 as [|r rs' [_ Hr] _ IH]; [done|]. simpl.
  destruct (decide (r.1 = x)); [done|].
  destruct (find_after x r.2) as [after|] eqn:Ha; [|done].
  by apply find_after_elem in Ha as [? _].
Qed.

Lemma first_single_no_rule g N fuel :
  no_rule g N ->
  first_single (S fuel) g N =
  Some (if bool_decide (N = epsilon) || has_terminal g N then {[N]} else ∅).
Proof.
  intros HN. rewrite first_single_S.
  destruct (bool_decide (N = epsilon) || has_terminal g N); [done|].
  by apply scan_rules_no_rule.
Qed.

(** * The claims *)

(** C1 (as amended).  [first] and [follow] do not return on every grammar.
    A call of [first] or of [follow] returns exactly when every chain of
    calls that starts with it ends; and a call that returns at some call
    depth returns the same set at every larger depth. *)
Theorem returns_iff_calls_end g :
  (∀ seq,
     (∃ fuel F, first fuel g seq = Some F) ↔ calls_end g (first_of seq)) ∧
  (∀ nt,
     (∃ fuel F, follow fuel g nt = Some F) ↔ calls_end g (follow_of nt)) ∧
  (∀ fuel fuel' seq F,
     fuel <= fuel' -> first fuel g seq = Some F ->
     first fuel' g seq = Some F) ∧
  (∀ fuel fuel' nt F,
     fuel <= fuel' -> follow fuel g nt = Some F ->
     follow fuel' g nt = Some F).
Proof.
  split; [|split; [|split]].
  - intros seq. split.
    + intros (fuel & F & H). by apply (first_returns_calls_end g fuel seq F).
    + apply (calls_end_returns g (first_of seq)).
  - intros nt. split.
    + intros (fuel & F & H). by apply (follow_returns_calls_end g fuel nt F).
    + apply (calls_end_returns g (follow_of nt)).
  - intros fuel fuel' seq F Hle. by apply first_mono.
  - intros fuel fuel' nt F Hle. by apply follow_mono.
Qed.

(** C1 fails as stated: on the grammar S = A, A = S, A = ε neither
    [first([S])] nor [follow(S)] returns, whatever the call depth. *)
Lemma cyclic_grammar_never_returns :
  ¬ (∃ fuel F, first fuel cyclic ["S"] = Some F) ∧
  ¬ (∃ fuel F, follow fuel cyclic "S" = Some F).
Proof.
  split; intros (fuel & F & H).
  - by rewrite cyclic_first_diverges in H.
  - by rewrite (proj1 (cyclic_follow_diverges fuel)) in H.
Qed.

(** C2 (as amended).  [follow(nt)] skips every rule whose head is [nt]: it
    is the loop run over the rules with another head only.  For the grammar
    S = S a, S = b with start S, [follow(S)] is {ε}. *)
Theorem follow_skips_own_rules :
  (∀ g fuel nt,
     follow (S fuel) g nt =
     follow_rules (first fuel g) (follow fuel g) nt
       (filter (λ r : rule, r.1 ≠ nt) (rules g))
       (if decide (nt = start g) then {[epsilon]} else ∅)) ∧
  (∀ fuel, follow (S fuel) scenario2 "S" = Some {[epsilon]}).
Proof.
  split.
  - intros g fuel nt. rewrite follow_S.
    generalize (if decide (nt = start g) then ({[epsilon]} : gset string)
                else ∅).
    induction (rules g) as [|r rs IH]; intros acc; [done|].
    rewrite filter_cons. simpl. destruct (decide (r.1 = nt)) as [Heq|Hne].
    + rewrite decide_False by (by intros Hn). apply IH.
    + rewrite decide_True by done. simpl.
      rewrite decide_False by done.
      destruct (find_after nt r.2) as [after|]; [|apply IH].
      destruct (first fuel g after) as [F|]; [|done]. simpl.
      destruct (bool_decide (after = []) || bool_decide (epsilon ∈ F));
        [|apply IH].
      destruct (follow fuel g r.1); [apply IH|done].
  - intros fuel. apply (follow_mono scenario2 1); [lia|].
    vm_compute. reflexivity.
Qed.

(** C2 fails as stated: [follow(S)] never returns {a, ε} on the grammar
    S = S a, S = b. *)
Lemma scenario2_follow_S_lacks_a :
  ¬ (∃ fuel, follow fuel scenario2 "S" = Some {["a"; epsilon]}).
Proof.
  intros [fuel H].
  assert (follow 1 scenario2 "S" = Some {[epsilon]}) as H1
    by (vm_compute; reflexivity).
  pose proof (follow_functional _ _ _ _ _ _ H H1) as Heq.
  assert ("a" ∈ ({[epsilon]} : gset string)) as Ha
    by (rewrite <- Heq; set_solver).
  by apply elem_of_singleton in Ha.
Qed.

(** C3 (as amended).  A body symbol equal to the symbol being expanded is
    skipped and the scan goes on with the rest of the body; for the grammar
    S = S a, S = b this makes [first([S])] equal to {a, b}. *)
Theorem scenario2_first_S :
  (∀ rec sym rest acc,
     scan_body rec sym (sym :: rest) acc = scan_body rec sym rest acc) ∧
  (∀ fuel, first (2 + fuel) scenario2 ["S"] = Some {["a"; "b"]}).
Proof.
  split.
  - intros rec sym rest acc. simpl. by rewrite decide_True.
  - intros fuel. apply (first_mono scenario2 2); [lia|].
    vm_compute. reflexivity.
Qed.

(** C3 fails as stated: [first([S])] never returns {b} on that grammar. *)
Lemma scenario2_first_S_not_b :
  ¬ (∃ fuel, first fuel scenario2 ["S"] = Some {["b"]}).
Proof.
  intros [fuel H].
  assert (first 2 scenario2 ["S"] = Some {["a"; "b"]}) as H2
    by (vm_compute; reflexivity).
  pose proof (first_functional _ _ _ _ _ _ H H2) as Heq.
  assert ("a" ∈ ({["b"]} : gset string)) as Ha
    by (rewrite Heq; set_solver).
  by apply elem_of_singleton in Ha.
Qed.

(** C4, on the code.  With the rule S = A a A b, [follow(A)] is {a}: only
    the part of the body after the first A is looked at.  The part after the
    second A is [b], whose FIRST is {b}, and b is not in the result. *)
Theorem multi_occurrence_follow_A :
  ∀ fuel,
    follow (2 + fuel) multi_occurrence "A" = Some {["a"]} ∧
    find_after "A" ["A"; "a"; "A"; "b"] = Some ["a"; "A"; "b"] ∧
    find_after "A" ["a"; "A"; "b"] = Some ["b"] ∧
    first (1 + fuel) multi_occurrence ["b"] = Some {["b"]} ∧
    "b" ∉ ({["a"]} : gset string).
Proof.
  intros fuel. split; [|split; [done|split; [done|split]]].
  - apply (follow_mono multi_occurrence 2); [lia|]. vm_compute. reflexivity.
  - apply (first_mono multi_occurrence 1); [lia|]. vm_compute. reflexivity.
  - set_solver.
Qed.

(** C5.  For the grammar S = A b, A = a, A = ε with start S:
    [first([S])] = {a, b}, [first([A])] = {a, ε}, [follow(A)] = {b} and
    [follow(S)] = {ε}, for every call depth of at least 3. *)
Theorem scenario1_sets fuel :
  first (3 + fuel) scenario1 ["S"] = Some {["a"; "b"]} ∧
  first (3 + fuel) scenario1 ["A"] = Some {["a"; epsilon]} ∧
  follow (3 + fuel) scenario1 "A" = Some {["b"]} ∧
  follow (3 + fuel) scenario1 "S" = Some {[epsilon]}.
Proof.
  repeat split;
    (apply (first_mono scenario1 3) || apply (follow_mono scenario1 3));
    try lia; vm_compute; reflexivity.
Qed.

(** C6.  Visiting the rules in another order changes neither the result of
    [first] on any sequence nor the result of [follow] on any symbol, at
    any call depth (a call that does not return in one order does not
    return in the other). *)
Theorem rule_order_irrelevant g rs fuel seq nt :
  rules g ≡ₚ rs ->
  first fuel (with_rules g rs) seq = first fuel g seq ∧
  follow fuel (with_rules g rs) nt = follow fuel g nt.
Proof.
  intros Hp. split; [by apply first_perm|by apply follow_perm].
Qed.

Lemma rule_order_irrelevant_witness :
  rules scenario1 ≡ₚ [("S", ["A"; "b"]); ("A", ["a"]); ("A", [])] ∧
  first 3 (with_rules scenario1 [("S", ["A"; "b"]); ("A", ["a"]); ("A", [])])
    ["S"] = first 3 scenario1 ["S"] ∧
  follow 3 (with_rules scenario1 [("S", ["A"; "b"]); ("A", ["a"]); ("A", [])])
    "A" = follow 3 scenario1 "A".
Proof.
  assert (rules scenario1 ≡ₚ [("S", ["A"; "b"]); ("A", ["a"]); ("A", [])])
    as Hp by (symmetry; apply (reverse_Permutation (rules scenario1))).
  split; [exact Hp|].
  apply (rule_order_irrelevant scenario1 _ 3 ["S"] "A" Hp).
Defined.

(** C7 (as amended).  In every grammar, [follow] of a symbol that occurs
    nowhere in it returns the empty set.  For a declared non-terminal [N]
    without a rule, [first([N])] returns, and so does [first] of every
    sequence that starts with [N] when [N] is not the empty symbol (the
    result is empty unless [N] is the empty symbol or also a terminal).
    [follow(N)] need not return: it returns exactly when every chain of
    calls that starts with it ends. *)
Theorem absent_and_ruleless_symbols g :
  (∀ x fuel, absent g x -> follow (S fuel) g x = Some ∅) ∧
  (∀ N fuel,
     N ∈ non_terminals g -> no_rule g N ->
     first (S fuel) g [N] =
       Some (if bool_decide (N = epsilon) || has_terminal g N then {[N]}
             else ∅) ∧
     (N ≠ epsilon ->
      ∀ rest, first (S fuel) g (N :: rest) =
              Some (if has_terminal g N then {[N]} else ∅)) ∧
     ((∃ fuel' F, follow fuel' g N = Some F) ↔ calls_end g (follow_of N))).
Proof.
  split.
  { intros x fuel (Hstart & _ & _ & Hrules).
    rewrite follow_S, decide_False by done.
    by apply follow_rules_not_in_body. }
  intros N fuel _ HN.
  pose proof (first_single_no_rule g N fuel HN) as Hfs.
  split; [|split].
  - unfold first. cbn [scan_seq]. rewrite Hfs. unfold erase_epsilon.
    destruct (bool_decide (N = epsilon)) eqn:He; simpl.
    { apply bool_decide_eq_true in He as ->.
      rewrite bool_decide_true by set_solver. simpl. f_equal; set_solver. }
    apply bool_decide_eq_false in He.
    destruct (has_terminal g N);
      rewrite bool_decide_false by set_solver; simpl; f_equal; set_solver.
  - intros He rest. unfold first. cbn [scan_seq]. rewrite Hfs.
    rewrite bool_decide_false by done. simpl. unfold erase_epsilon.
    destruct (has_terminal g N);
      rewrite bool_decide_false by set_solver; simpl; f_equal; set_solver.
  - split.
    + intros (fuel' & F & H). by apply (follow_returns_calls_end g fuel' N F).
    + apply (calls_end_returns g (follow_of N)).
Qed.

Lemma absent_and_ruleless_symbols_witness :
  absent scenario1 "x" ∧ follow 1 scenario1 "x" = Some ∅ ∧
  "N" ∈ non_terminals ruleless ∧ no_rule ruleless "N" ∧ "N" ≠ epsilon ∧
  first 1 ruleless ["N"] = Some ∅ ∧
  first 1 ruleless ["N"; "a"] = Some ∅ ∧
  (∃ fuel F, follow fuel ruleless "N" = Some F).
Proof.
  assert (absent scenario1 "x") as Hx.
  { unfold absent. repeat split; try done; try set_solver.
    repeat constructor; try done; set_solver. }
  assert ("N" ∈ non_terminals ruleless) as HN by (simpl; set_solver).
  assert (no_rule ruleless "N") as Hno by (repeat constructor; done).
  assert ("N" ≠ epsilon) as Hne by done.
  destruct (absent_and_ruleless_symbols scenario1) as [H0 _].
  destruct (absent_and_ruleless_symbols ruleless) as [_ HR].
  destruct (HR "N" 0 HN Hno) as (H2 & H3 & H4).
  split; [exact Hx|]. split; [exact (H0 "x" 0 Hx)|].
  split; [exact HN|]. split; [exact Hno|]. split; [exact Hne|].
  split; [exact H2|]. split; [exact (H3 Hne ["a"])|].
  apply H4. apply (guarded_follow_ends rank_S_A). reflexivity.
Defined.

(** C7 fails as stated: N is a declared non-terminal without a rule in the
    grammar A = B, A = N, B = A, and [follow(N)] does not return. *)
Lemma zero_rule_follow_never_returns :
  "N" ∈ non_terminals zero_rule_cycle ∧ no_rule zero_rule_cycle "N" ∧
  ¬ (∃ fuel F, follow fuel zero_rule_cycle "N" = Some F).
Proof.
  split; [simpl; set_solver|]. split; [repeat constructor; done|].
  intros (fuel & F & H). by rewrite zero_rule_cycle_follow_N in H.
Qed.

(** C8.  [first] of the empty sequence is the empty set, which does not
    hold the empty symbol. *)
Theorem first_empty_sequence fuel g :
  first fuel g [] = Some ∅ ∧ (∅ : gset string) ≠ {[epsilon]}.
Proof. split; [done|]. set_solver. Qed.

(** C9 (as amended).  For a declared terminal [s], [first([s])] is {s}.
    For a sequence that starts with a declared terminal [s] other than the
    empty symbol, [first] is {s}, which does not hold the empty symbol,
    whatever follows [s]. *)
Theorem first_of_terminals g fuel s rest :
  s ∈ terminals g ->
  first (S fuel) g [s] = Some {[s]} ∧
  (s ≠ epsilon ->
   first (S fuel) g (s :: rest) = Some {[s]} ∧
   epsilon ∉ ({[s]} : gset string)).
Proof.
  intros Hs.
  assert (first_single (S fuel) g s = Some {[s]}) as Hfs.
  { rewrite first_single_S. unfold has_terminal.
    rewrite (bool_decide_true (s ∈ terminals g)) by done.
    by rewrite orb_true_r. }
  split.
  - unfold first. cbn [scan_seq]. rewrite Hfs. unfold erase_epsilon.
    destruct (bool_decide (epsilon ∈ ({[s]} : gset string))) eqn:He; simpl.
    + apply bool_decide_eq_true, elem_of_singleton in He as <-.
      f_equal; set_solver.
    + apply bool_decide_eq_false in He. f_equal; set_solver.
  - intros Hne. split; [|set_solver].
    unfold first. cbn [scan_seq]. rewrite Hfs. unfold erase_epsilon.
    rewrite bool_decide_false by set_solver. simpl. f_equal; set_solver.
Qed.

Lemma first_of_terminals_witness :
  "a" ∈ terminals scenario1 ∧ "a" ≠ epsilon ∧
  first 1 scenario1 ["a"] = Some {["a"]} ∧
  first 1 scenario1 ["a"; "b"] = Some {["a"]} ∧
  epsilon ∉ ({["a"]} : gset string).
Proof.
  assert ("a" ∈ terminals scenario1) as Ha by (simpl; set_solver).
  assert ("a" ≠ epsilon) as Hne by done.
  destruct (first_of_terminals scenario1 0 "a" ["b"] Ha) as [H1 H2].
  destruct (H2 Hne) as [H3 H4].
  repeat split; assumption.
Defined.

(** C9 fails as stated: the code takes the empty symbol as a terminal when
    it is declared one.  With the terminals ε and a, the sequence [ε, a]
    holds declared terminals only, and [first] of it is {a}, not {ε}; and
    [first([ε])] holds the empty symbol. *)
Lemma first_after_epsilon_terminal :
  Forall (λ x, x ∈ terminals epsilon_terminal) [epsilon; "a"] ∧
  (∀ fuel, first (S fuel) epsilon_terminal [epsilon; "a"] = Some {["a"]}) ∧
  ¬ (∃ fuel, first fuel epsilon_terminal [epsilon; "a"] = Some {[epsilon]}) ∧
  (∀ fuel, first (S fuel) epsilon_terminal [epsilon] = Some {[epsilon]}).
Proof.
  assert (∀ fuel,
            first (S fuel) epsilon_terminal [epsilon; "a"] = Some {["a"]})
    as H.
  { intros fuel. apply (first_mono epsilon_terminal 1); [lia|].
    vm_compute. reflexivity. }
  split; [|split; [exact H|split]].
  - repeat constructor; simpl; set_solver.
  - intros [fuel Hf].
    pose proof (first_functional _ _ _ _ _ _ Hf (H 0)) as Heq.
    assert (epsilon ∈ ({["a"]} : gset string)) as Ha
      by (rewrite <- Heq; set_solver).
    by apply elem_of_singleton in Ha.
  - intros fuel. apply (first_mono epsilon_terminal 1); [lia|].
    vm_compute. reflexivity.
Qed.

(** C10.  Whenever [first] returns, every element of its result is a
    declared terminal or the empty symbol, whatever symbols the sequence
    holds; the same is true of [follow]. *)
Theorem results_hold_terminals_or_epsilon g fuel seq nt F x :
  (first fuel g seq = Some F -> x ∈ F -> x = epsilon ∨ x ∈ terminals g) ∧
  (follow fuel g nt = Some F -> x ∈ F -> x = epsilon ∨ x ∈ terminals g).
Proof.
  split; intros H Hx.
  - by apply (first_ok g fuel seq F H).
  - by apply (follow_ok g fuel nt F H).
Qed.

Lemma results_hold_terminals_or_epsilon_witness :
  first 3 scenario1 ["S"] = Some {["a"; "b"]} ∧
  follow 3 scenario1 "S" = Some {[epsilon]} ∧
  ("a" = epsilon ∨ "a" ∈ terminals scenario1) ∧
  (epsilon = epsilon ∨ epsilon ∈ terminals scenario1).
Proof.
  assert (first 3 scenario1 ["S"] = Some {["a"; "b"]}) as H1
    by (vm_compute; reflexivity).
  assert (follow 3 scenario1 "S" = Some {[epsilon]}) as H2
    by (vm_compute; reflexivity).
  repeat split; try assumption.
  - apply (proj1 (results_hold_terminals_or_epsilon scenario1 3 ["S"] "S"
                      {["a"; "b"]} "a")); [exact H1|set_solver].
  - apply (proj2 (results_hold_terminals_or_epsilon scenario1 3 ["S"] "S"
                      {[epsilon]} epsilon)); [exact H2|set_solver].
Defined.

(** * Further properties of [first] and [follow] *)

(** ** Properties of the results *)

(** X1.  [first] of a concatenation: when [first] of a non-empty front part
    returns a set without the empty symbol, that set is the result whatever
    follows; when it holds the empty symbol, the result is the rest of that
    set together with [first] of the back part, unless the back part is
    empty, in which case the empty symbol stays. *)
Theorem first_app fuel g s1 s2 F1 :
  s1 ≠ [] -> first fuel g s1 = Some F1 ->
  first fuel g (s1 ++ s2) =
  if bool_decide (epsilon ∈ F1) then
    match s2 with
    | [] => Some F1
    | _ => union (F1 ∖ {[epsilon]}) <$> first fuel g s2
    end
  else Some F1.
Proof.
  intros Hne H1.
  assert ((s1 ++ s2)%list ≠ []) as Hne' by (by destruct s1).
  rewrite first_scan in H1 by done. rewrite first_scan by done.
  rewrite scan_seq_app.
  destruct (scan_seq (first_single fuel g) s1 ∅) as [[F e]|] eqn:Hs1;
    [|done].
  pose proof (scan_seq_no_epsilon _ _ _ _ _ (not_elem_of_empty _) Hs1) as HF.
  injection H1 as <-. destruct e; unfold close_scan; simpl.
  - rewrite bool_decide_true by set_solver.
    destruct s2 as [|s rest]; [done|].
    rewrite first_scan by done. rewrite scan_seq_acc.
    destruct (scan_seq (first_single fuel g) (s :: rest) ∅) as [[F' e']|];
      [|done].
    simpl. f_equal. unfold close_scan. simpl. destruct e'; set_solver.
  - by rewrite bool_decide_false.
Qed.

Lemma first_app_witness :
  ["A"] ≠ ([] : list string) ∧
  first 3 scenario1 ["A"] = Some {["a"; epsilon]} ∧
  first 3 scenario1 (["A"] ++ ["b"]) =
    union ({["a"; epsilon]} ∖ {[epsilon]}) <$> first 3 scenario1 ["b"].
Proof.
  assert (first 3 scenario1 ["A"] = Some {["a"; epsilon]}) as H1
    by (vm_compute; reflexivity).
  split; [done|]. split; [exact H1|].
  exact (first_app 3 scenario1 ["A"] ["b"] {["a"; epsilon]} ltac:(done) H1).
Defined.

(** X2.  The result of [first] on a non-empty sequence holds the empty symbol
    exactly when [first] of every single symbol of the sequence returns a set
    that holds it. *)
Theorem first_epsilon_iff fuel g seq F :
  seq ≠ [] -> first fuel g seq = Some F ->
  epsilon ∈ F ↔
  Forall (λ s, ∃ Fs, first fuel g [s] = Some Fs ∧ epsilon ∈ Fs) seq.
Proof.
  intros Hne H. rewrite first_scan in H by done.
  destruct (scan_seq (first_single fuel g) seq ∅) as [[F' e]|] eqn:Hs;
    [|done].
  injection H as <-.
  pose proof (scan_seq_no_epsilon _ _ _ _ _ (not_elem_of_empty _) Hs) as HF.
  apply scan_seq_at_end in Hs.
  assert (Forall (λ s, ∃ Fs, first fuel g [s] = Some Fs ∧ epsilon ∈ Fs) seq ↔
          Forall (λ s, ∃ Fs, first_single fuel g s = Some Fs ∧ epsilon ∈ Fs)
            seq) as ->.
  { apply Forall_proper; [|done]. intros s. by rewrite first_one. }
  rewrite <- Hs. unfold close_scan. simpl.
  destruct e; [set_solver|]. split; [done|]. done.
Qed.

Lemma first_epsilon_iff_witness :
  ["A"; "b"] ≠ ([] : list string) ∧
  first 3 scenario1 ["A"; "b"] = Some {["a"; "b"]} ∧
  (epsilon ∈ ({["a"; "b"]} : gset string) ↔
   Forall (λ s, ∃ Fs, first 3 scenario1 [s] = Some Fs ∧ epsilon ∈ Fs)
     ["A"; "b"]).
Proof.
  assert (first 3 scenario1 ["A"; "b"] = Some {["a"; "b"]}) as H1
    by (vm_compute; reflexivity).
  split; [done|]. split; [exact H1|].
  exact (first_epsilon_iff 3 scenario1 ["A"; "b"] {["a"; "b"]} ltac:(done) H1).
Defined.

(** X3.  Whenever [follow] of the start symbol returns, its result holds the
    empty symbol. *)
Theorem follow_start_epsilon fuel g F :
  follow fuel g (start g) = Some F -> epsilon ∈ F.
Proof.
  destruct fuel as [|n]; [done|]. rewrite follow_S, decide_True by done.
  rewrite follow_rules_acc.
  destruct (follow_rules (first n g) (follow n g) (start g) (rules g) ∅)
    as [F'|]; [|done].
  intros [= <-]. set_solver.
Qed.

Lemma follow_start_epsilon_witness :
  follow 1 scenario2 (start scenario2) = Some {[epsilon]} ∧
  epsilon ∈ ({[epsilon]} : gset string).
Proof.
  assert (follow 1 scenario2 (start scenario2) = Some {[epsilon]}) as H
    by (vm_compute; reflexivity).
  split; [exact H|]. exact (follow_start_epsilon 1 scenario2 _ H).
Defined.

(** X4.  For a symbol [A] that is neither the empty symbol nor a terminal,
    the result of [first([A])] is the union, over the rules [A = body], of
    what [first] returns one call deeper on the body with the occurrences of
    [A] left out (the empty symbol alone when nothing is left); each of
    these calls returns. *)
Theorem first_elements fuel g A F :
  A ≠ epsilon -> A ∉ terminals g -> first (S fuel) g [A] = Some F ->
  (∀ body, (A, body) ∈ rules g -> is_Some (body_first fuel g A body)) ∧
  (∀ x, x ∈ F ↔
        ∃ body Fb, (A, body) ∈ rules g ∧
                   body_first fuel g A body = Some Fb ∧ x ∈ Fb).
Proof.
  intros He Ht. rewrite first_one, first_single_S.
  rewrite bool_decide_false by done. unfold has_terminal.
  rewrite bool_decide_false by done. simpl. rewrite scan_rules_run.
  intros H. split.
  - intros body Hb. rewrite <- rule_step_body_first.
    apply (run_steps_returns _ (rule_step_acc _ _) _ _ _ _ H Hb).
  - intros x.
    rewrite (run_steps_elements _ (rule_step_acc _ _) _ _ _ x H). split.
    + intros [?%not_elem_of_empty|([h body] & Fr & Hr & Hs & Hx)]; [done|].
      destruct (decide (h = A)) as [->|Hne].
      * rewrite rule_step_body_first in Hs. eauto.
      * unfold rule_step in Hs. simpl in Hs.
        rewrite decide_False in Hs by done. injection Hs as <-.
        by apply not_elem_of_empty in Hx.
    + intros (body & Fb & Hb & Hs & Hx). right. exists (A, body), Fb.
      by rewrite rule_step_body_first.
Qed.

Lemma first_elements_witness :
  "S" ≠ epsilon ∧ ("S" ∉ terminals scenario2) ∧
  first 2 scenario2 ["S"] = Some {["a"; "b"]} ∧
  is_Some (body_first 1 scenario2 "S" ["S"; "a"]) ∧
  ("a" ∈ ({["a"; "b"]} : gset string) ↔
   ∃ body Fb, ("S", body) ∈ rules scenario2 ∧
              body_first 1 scenario2 "S" body = Some Fb ∧ "a" ∈ Fb).
Proof.
  assert ("S" ≠ epsilon) as He by done.
  assert ("S" ∉ terminals scenario2) as Ht by (simpl; set_solver).
  assert (first 2 scenario2 ["S"] = Some {["a"; "b"]}) as H
    by (vm_compute; reflexivity).
  destruct (first_elements 1 scenario2 "S" _ He Ht H) as [H1 H2].
  split; [exact He|]. split; [exact Ht|]. split; [exact H|].
  split; [apply H1; simpl; set_solver|apply H2].
Defined.

Lemma follow_step_elements frec wrec nt r Fr x :
  follow_step frec wrec nt r ∅ = Some Fr ->
  x ∈ Fr ↔
  r.1 ≠ nt ∧
  ∃ after Fa, find_after nt r.2 = Some after ∧ frec after = Some Fa ∧
    ((x ∈ Fa ∧ x ≠ epsilon) ∨
     ((after = [] ∨ epsilon ∈ Fa) ∧ ∃ Fh, wrec r.1 = Some Fh ∧ x ∈ Fh)).
Proof.
  unfold follow_step. destruct (decide (r.1 = nt)) as [Heq|Hne].
  { intros [= <-]. split; [by intros ?%not_elem_of_empty|by intros [? _]]. }
  destruct (find_after nt r.2) as [after|] eqn:Ha.
  2:{ intros [= <-]. split; [by intros ?%not_elem_of_empty|].
      by intros (_ & ? & ? & ? & _). }
  destruct (frec after) as [Fa|] eqn:HFa; [|done].
  simpl.
  destruct (bool_decide (after = []) || bool_decide (epsilon ∈ Fa)) eqn:Hb.
  - apply orb_true_iff in Hb.
    rewrite !bool_decide_eq_true in Hb.
    destruct (wrec r.1) as [Fh|] eqn:HFh; [|done]. intros [= <-]. split.
    + intros Hx. split; [done|]. exists after, Fa. split; [done|].
      split; [done|].
      destruct (decide (x ∈ Fh)); [right; eauto|left; set_solver].
    + intros (_ & after' & Fa' & [= <-] & HFa' & Hcase).
      assert (Fa' = Fa) as -> by congruence.
      destruct Hcase as [[? ?]|(_ & Fh' & HFh' & ?)]; [set_solver|].
      assert (Fh' = Fh) as -> by congruence. set_solver.
  - apply orb_false_iff in Hb. rewrite !bool_decide_eq_false in Hb.
    destruct Hb as [Hb1 Hb2]. intros [= <-]. split.
    + intros Hx. split; [done|]. exists after, Fa. split; [done|].
      split; [done|]. left. set_solver.
    + intros (_ & after' & Fa' & [= <-] & HFa' & Hcase).
      assert (Fa' = Fa) as -> by congruence.
      destruct Hcase as [[? ?]|([?|?] & _)]; [set_solver|done..].
Qed.

(** X5.  The result of [follow(nt)] holds the empty symbol when [nt] is the
    start symbol, and otherwise exactly what the rules with another head
    that mention [nt] add: for the part of the body after the first [nt],
    the elements of its [first] other than the empty symbol and, when that
    part is empty or its [first] holds the empty symbol, the elements of
    [follow] of the head.  [first] returns on each such part. *)
Theorem follow_elements fuel g nt F :
  follow (S fuel) g nt = Some F ->
  (∀ r after, r ∈ rules g -> r.1 ≠ nt -> find_after nt r.2 = Some after ->
     is_Some (first fuel g after)) ∧
  (∀ x, x ∈ F ↔
     (x = epsilon ∧ nt = start g) ∨
     ∃ r after Fa,
       r ∈ rules g ∧ r.1 ≠ nt ∧ find_after nt r.2 = Some after ∧
       first fuel g after = Some Fa ∧
       ((x ∈ Fa ∧ x ≠ epsilon) ∨
        ((after = [] ∨ epsilon ∈ Fa) ∧
         ∃ Fh, follow fuel g r.1 = Some Fh ∧ x ∈ Fh))).
Proof.
  rewrite follow_S, follow_rules_run. intros H.
  assert (∀ r, r ∈ rules g ->
            is_Some (follow_step (first fuel g) (follow fuel g) nt r ∅))
    as Hret
    by (intros r; apply (run_steps_returns _ (follow_step_acc _ _ _) _ _ _ r H)).
  split.
  - intros r after Hr Hne Ha. destruct (Hret r Hr) as [Fr HFr].
    unfold follow_step in HFr. rewrite decide_False, Ha in HFr by done.
    destruct (first fuel g after); [eauto|done].
  - intros x.
    rewrite (run_steps_elements _ (follow_step_acc _ _ _) _ _ _ x H). split.
    + intros [Hseed|(r & Fr & Hr & Hs & Hx)].
      * left. destruct (decide (nt = start g)); [|set_solver].
        apply elem_of_singleton in Hseed. done.
      * right. apply (follow_step_elements _ _ _ _ _ x) in Hs.
        apply Hs in Hx as (Hne & after & Fa & Ha & HFa & Hcase).
        exists r, after, Fa. done.
    + intros [[-> ->]|(r & after & Fa & Hr & Hne & Ha & HFa & Hcase)].
      * left. rewrite decide_True by done. set_solver.
      * right. destruct (Hret r Hr) as [Fr HFr]. exists r, Fr.
        split; [done|]. split; [done|].
        apply (follow_step_elements _ _ _ _ _ x HFr).
        split; [done|]. exists after, Fa. done.
Qed.

Lemma follow_elements_witness :
  follow 2 scenario1 "A" = Some {["b"]} ∧
  is_Some (first 1 scenario1 ["b"]) ∧
  ("b" ∈ ({["b"]} : gset string) ↔
   ("b" = epsilon ∧ "A" = start scenario1) ∨
   ∃ r after Fa,
     r ∈ rules scenario1 ∧ r.1 ≠ "A" ∧ find_after "A" r.2 = Some after ∧
     first 1 scenario1 after = Some Fa ∧
     (("b" ∈ Fa ∧ "b" ≠ epsilon) ∨
      ((after = [] ∨ epsilon ∈ Fa) ∧
       ∃ Fh, follow 1 scenario1 r.1 = Some Fh ∧ "b" ∈ Fh))).
Proof.
  assert (follow 2 scenario1 "A" = Some {["b"]}) as H
    by (vm_compute; reflexivity).
  destruct (follow_elements 1 scenario1 "A" _ H) as [H1 H2].
  split; [exact H|]. split; [|apply H2].
  apply (H1 ("S", ["A"; "b"])); [simpl; set_solver|done|done].
Defined.

(** X6.  [first] reads only the terminals and the rules of the grammar, and
    [follow] only the terminals, the rules and the start symbol: the set of
    declared non-terminals has no effect on either. *)
Theorem declared_non_terminals_unused g g' fuel seq nt :
  terminals g = terminals g' -> rules g = rules g' ->
  first fuel g seq = first fuel g' seq ∧
  (start g = start g' -> follow fuel g nt = follow fuel g' nt).
Proof.
  intros Ht Hr.
  assert (∀ n sym, first_single n g sym = first_single n g' sym) as Hfs.
  { induction n as [|n IH]; intros sym; [done|].
    rewrite !first_single_S. unfold has_terminal. rewrite <- Ht, <- Hr.
    destruct (bool_decide (sym = epsilon) || bool_decide (sym ∈ terminals g));
      [done|].
    by apply scan_rules_ext. }
  assert (∀ n s, first n g s = first n g' s) as Hf.
  { intros n s. unfold first. destruct s as [|s rest]; [done|].
    by rewrite (scan_seq_ext _ (first_single n g')). }
  split; [apply Hf|]. intros Hs. revert nt.
  induction fuel as [|n IH]; intros nt; [done|].
  rewrite !follow_S, <- Hr, <- Hs. by apply follow_rules_ext.
Qed.

Lemma declared_non_terminals_unused_witness :
  terminals scenario1 =
    terminals (mkGrammar ∅ {["a"; "b"]} (rules scenario1) "S") ∧
  rules scenario1 = rules (mkGrammar ∅ {["a"; "b"]} (rules scenario1) "S") ∧
  start scenario1 = start (mkGrammar ∅ {["a"; "b"]} (rules scenario1) "S") ∧
  first 3 scenario1 ["S"] =
    first 3 (mkGrammar ∅ {["a"; "b"]} (rules scenario1) "S") ["S"] ∧
  follow 3 scenario1 "A" =
    follow 3 (mkGrammar ∅ {["a"; "b"]} (rules scenario1) "S") "A".
Proof.
  destruct (declared_non_terminals_unused scenario1
              (mkGrammar ∅ {["a"; "b"]} (rules scenario1) "S") 3 ["S"] "A"
              eq_refl eq_refl) as [H1 H2].
  split; [reflexivity|]. split; [reflexivity|]. split; [reflexivity|].
  split; [exact H1|exact (H2 eq_refl)].
Defined.

(** ** A criterion for termination *)

(** X22.  When the symbols can be ranked so that, in every rule, every
    symbol that the scan of the head may ask for (the body symbols other
    than the head, up to the first terminal other than the empty symbol) is
    a terminal, the empty symbol, or ranks below the head, and every body
    symbol other than the head ranks below the head when no terminal other
    than the empty symbol follows its first occurrence, then [first] returns
    on every sequence and [follow] on every symbol. *)
Theorem guarded_grammar_terminates rank g seq nt :
  guarded rank g = true ->
  (∃ fuel F, first fuel g seq = Some F) ∧
  (∃ fuel F, follow fuel g nt = Some F).
Proof.
  intros H. split.
  - apply (calls_end_returns g (first_of seq)).
    by apply (guarded_first_ends rank).
  - apply (calls_end_returns g (follow_of nt)).
    by apply (guarded_follow_ends rank).
Qed.

Lemma guarded_grammar_terminates_witness :
  guarded rank_E_T_F expression = true ∧
  (∃ fuel F, first fuel expression ["E"] = Some F) ∧
  (∃ fuel F, follow fuel expression "F" = Some F).
Proof.
  split; [reflexivity|].
  apply (guarded_grammar_terminates rank_E_T_F expression ["E"] "F").
  reflexivity.
Defined.


(** * Properties of the stream operators *)

(** ** Texts *)

Lemma string_app_cons c (s t : string) :
  (String c s ++ t)%string = String c (s ++ t).
Proof. done. Qed.

Lemma string_app_nil_r (s : string) : (s ++ EmptyString)%string = s.
Proof.
  induction s as [|c s IH]; [done|]. rewrite string_app_cons. by f_equal.
Qed.

Lemma string_app_assoc (s t u : string) :
  ((s ++ t) ++ u)%string = (s ++ (t ++ u))%string.
Proof.
  induction s as [|c s IH]; [done|]. rewrite !string_app_cons. by f_equal.
Qed.

Lemma string_length_app (s t : string) :
  String.length (s ++ t) = String.length s + String.length t.
Proof.
  induction s as [|c s IH]; [done|]. rewrite string_app_cons. cbn.
  by f_equal.
Qed.

Lemma string_rep_length n c : String.length (string_rep n c) = n.
Proof. induction n as [|n IH]; [done|]. cbn. by f_equal. Qed.

Lemma skip_spaces_rep n c rest :
  isspace c = true ->
  skip_spaces (string_rep n c ++ rest) = skip_spaces rest.
Proof.
  intros Hc. induction n as [|n IH]; [done|].
  cbn [string_rep]. rewrite string_app_cons. cbn [skip_spaces].
  by rewrite Hc.
Qed.

Lemma take_token_plain t rest :
  string_forallb (λ c, negb (isspace c)) t = true ->
  ends_token rest = true ->
  take_token (t ++ rest) = (t, rest).
Proof.
  intros Ht Hrest. induction t as [|c t IH].
  - destruct rest as [|c rest]; [done|]. unfold ends_token in Hrest.
    change (take_token (String c rest) = (EmptyString, String c rest)).
    cbn [take_token]. by rewrite Hrest.
  - cbn [string_forallb] in Ht.
    apply andb_true_iff in Ht as [Hc Ht]. apply negb_true_iff in Hc.
    rewrite string_app_cons. cbn [take_token]. by rewrite Hc, (IH Ht).
Qed.

(** ** The loop of [get_quoted] *)

Lemma extract_char_noskip c rest :
  extract_char (mkIstream (String c rest) false false false) =
  (mkIstream rest false false false, Some c).
Proof. done. Qed.

Lemma quoted_loop_S fuel d e ins str :
  quoted_loop (S fuel) d e ins str =
  match extract_char ins with
  | (ins1, None) => (ins1, str)
  | (ins1, Some c) =>
      if Ascii.eqb c e then
        match extract_char ins1 with
        | (ins2, None) => (ins2, str)
        | (ins2, Some c') =>
            quoted_loop fuel d e ins2 (str ++ String c' EmptyString)
        end
      else if Ascii.eqb c d then (ins1, str)
      else quoted_loop fuel d e ins1 (str ++ String c EmptyString)
  end.
Proof. done. Qed.

Lemma quoted_loop_escaped d e s :
  d ≠ e ->
  ∀ fuel rest acc,
    String.length s < fuel ->
    quoted_loop fuel d e
      (mkIstream (escape_chars d e s ++ String d rest) false false false) acc =
    (mkIstream rest false false false, (acc ++ s)%string).
Proof.
  intros Hde. assert (Ascii.eqb d e = false) as Hde'
    by (by apply Ascii.eqb_neq).
  induction s as [|c s IH]; intros fuel rest acc Hfuel;
    (destruct fuel as [|fuel]; [cbn in Hfuel; lia|]); rewrite quoted_loop_S.
  - cbn [escape_chars]. change (EmptyString ++ String d rest)%string
      with (String d rest).
    rewrite extract_char_noskip, Hde', Ascii.eqb_refl.
    by rewrite string_app_nil_r.
  - cbn in Hfuel. cbn [escape_chars].
    destruct (Ascii.eqb c d || Ascii.eqb c e) eqn:Hc.
    + rewrite !string_app_cons, extract_char_noskip, Ascii.eqb_refl.
      rewrite extract_char_noskip, IH by lia.
      by rewrite string_app_assoc.
    + apply orb_false_iff in Hc as [Hcd Hce].
      rewrite string_app_cons, extract_char_noskip, Hce, Hcd.
      rewrite IH by lia. by rewrite string_app_assoc.
Qed.

Lemma escape_chars_length d e s :
  String.length s <= String.length (escape_chars d e s).
Proof.
  induction s as [|c s IH]; [done|]. cbn [escape_chars].
  destruct (Ascii.eqb c d || Ascii.eqb c e); cbn; lia.
Qed.

Lemma quoted_loop_no_delim d e t :
  string_forallb (λ c, negb (Ascii.eqb c d) && negb (Ascii.eqb c e)) t = true ->
  ∀ fuel acc,
    String.length t < fuel ->
    quoted_loop fuel d e (mkIstream t false false false) acc =
    (mkIstream EmptyString true true false, (acc ++ t)%string).
Proof.
  induction t as [|c t IH]; intros Ht fuel acc Hfuel;
    (destruct fuel as [|fuel]; [cbn in Hfuel; lia|]); rewrite quoted_loop_S.
  - cbn. by rewrite string_app_nil_r.
  - cbn [string_forallb] in Ht. apply andb_true_iff in Ht as [Hc Ht].
    apply andb_true_iff in Hc as [Hcd Hce].
    apply negb_true_iff in Hcd, Hce. cbn in Hfuel.
    rewrite extract_char_noskip, Hce, Hcd, IH by (done || lia).
    by rewrite string_app_assoc.
Qed.

Lemma skip_spaces_nonspace c rest :
  isspace c = false -> skip_spaces (String c rest) = String c rest.
Proof. intros Hc. cbn [skip_spaces]. by rewrite Hc. Qed.

Lemma skip_spaces_all ws rest :
  string_forallb isspace ws = true ->
  skip_spaces (ws ++ rest) = skip_spaces rest.
Proof.
  induction ws as [|c ws IH]; intros Hws; [done|].
  cbn [string_forallb] in Hws. apply andb_true_iff in Hws as [Hc Hws].
  rewrite string_app_cons. cbn [skip_spaces]. rewrite Hc. by apply IH.
Qed.

(** Reading the first character of a good stream that starts, after white
    space only if [skipws] is set, with a character that is no white
    space. *)
Lemma extract_char_first c b rest (sk : bool) :
  isspace c = false ->
  (if sk then skip_spaces b else b) = String c rest ->
  extract_char (mkIstream b false false sk) =
  (mkIstream rest false false sk, Some c).
Proof.
  intros Hc Hb. unfold extract_char, sentry. cbn [good eofbit failbit negb andb
    skipws buf]. destruct sk; cbn [negb andb].
  - rewrite Hb. done.
  - rewrite Hb. done.
Qed.

Lemma quoted_text_length d e s :
  String.length (quoted_text d e s) = quoted_length d e s.
Proof.
  unfold quoted_text, quoted_length. cbn [String.length].
  rewrite string_length_app. cbn. lia.
Qed.

Lemma to_size_t_le z : (0 <= z)%Z -> (to_size_t z <= z)%Z.
Proof. intros Hz. unfold to_size_t. apply Z.mod_le; lia. Qed.

(** What [put_quoted] does when the field width asks for no padding. *)
Lemma put_quoted_unpadded d e os s :
  (0 <= width os <= Z.of_nat (quoted_length d e s))%Z ->
  put_quoted d e os s =
  Some (mkOstream (written os ++ quoted_text d e s)%string 0 (adjust_left os)
          (fill os)).
Proof.
  intros Hw. unfold put_quoted. rewrite quoted_text_length.
  pose proof (to_size_t_le (width os) (proj1 Hw)) as Hle.
  by rewrite (proj2 (Z.ltb_ge _ _)) by lia.
Qed.

Lemma put_quoted_no_width d e os s :
  width os = 0%Z ->
  put_quoted d e os s =
  Some (mkOstream (written os ++ quoted_text d e s)%string 0 (adjust_left os)
          (fill os)).
Proof. intros Hw. apply put_quoted_unpadded. rewrite Hw. lia. Qed.

(** ** quoted.h: writing and reading back *)

(** X7.  With no field width [put_quoted] returns, and the string it wrote
    is read back by [get_quoted] unchanged, whatever characters it holds and
    whatever follows it; the stream stays good and stands right after the
    closing delimiter.  (The delimiter differs from the escape character
    and is no white space.) *)
Theorem get_put_quoted d e l f s rest sk str0 :
  d ≠ e -> isspace d = false ->
  ∃ os',
    put_quoted d e (mkOstream EmptyString 0 l f) s = Some os' ∧
    get_quoted d e (mkIstream (written os' ++ rest) false false sk) str0 =
    (mkIstream rest false false sk, s).
Proof.
  intros Hde Hd. rewrite put_quoted_no_width by done.
  eexists. split; [done|].
  cbn [written]. change (EmptyString ++ ?x)%string with x.
  unfold quoted_text.
  rewrite string_app_cons, string_app_assoc, string_app_cons.
  change (EmptyString ++ rest)%string with rest.
  unfold get_quoted.
  rewrite (extract_char_first d _ (escape_chars d e s ++ String d rest))
    by (done || (destruct sk; [by apply skip_spaces_nonspace|done])).
  rewrite Ascii.eqb_refl. unfold set_skipws.
  cbn [negb skipws buf eofbit failbit].
  rewrite quoted_loop_escaped; [done..|].
  rewrite string_length_app. pose proof (escape_chars_length d e s). lia.
Qed.

Lemma get_put_quoted_witness :
  default_delim ≠ default_escape ∧ isspace default_delim = false ∧
  ∃ os',
    put_quoted default_delim default_escape
      (mkOstream EmptyString 0 false " ") "a b" = Some os' ∧
    get_quoted default_delim default_escape
      (mkIstream (written os' ++ " = c") false false true) "old" =
    (mkIstream " = c" false false true, "a b").
Proof.
  assert (default_delim ≠ default_escape) as Hde by done.
  split; [exact Hde|]. split; [reflexivity|].
  exact (get_put_quoted default_delim default_escape false " " "a b" " = c"
           true "old" Hde eq_refl).
Defined.

Lemma string_rep_spaces n f :
  isspace f = true -> string_forallb isspace (string_rep n f) = true.
Proof.
  intros Hf. induction n as [|n IH]; [done|]. cbn [string_rep string_forallb].
  by rewrite Hf, IH.
Qed.

Lemma get_quoted_after_spaces d e s ws rest str0 :
  d ≠ e -> isspace d = false -> string_forallb isspace ws = true ->
  get_quoted d e
    (mkIstream (ws ++ String d (escape_chars d e s ++ String d rest))
       false false true) str0 =
  (mkIstream rest false false true, s).
Proof.
  intros Hde Hd Hws. unfold get_quoted.
  rewrite (extract_char_first d _ (escape_chars d e s ++ String d rest)).
  2: done.
  2:{ rewrite skip_spaces_all by done. by apply skip_spaces_nonspace. }
  rewrite Ascii.eqb_refl. unfold set_skipws.
  cbn [negb skipws buf eofbit failbit].
  rewrite quoted_loop_escaped; [done..|].
  rewrite string_length_app. pose proof (escape_chars_length d e s). lia.
Qed.

Lemma get_quoted_text d e s rest str0 :
  d ≠ e -> isspace d = false ->
  get_quoted d e
    (mkIstream (String d (escape_chars d e s ++ String d rest))
       false false true) str0 =
  (mkIstream rest false false true, s).
Proof.
  intros Hde Hd.
  by apply (get_quoted_after_spaces d e s EmptyString rest str0).
Qed.

Lemma to_size_t_streamsize z :
  (- 2 ^ 63 <= z < 2 ^ 63)%Z ->
  to_size_t z = (if (z <? 0)%Z then z + 2 ^ 64 else z)%Z.
Proof.
  intros Hz. unfold to_size_t. destruct (z <? 0)%Z eqn:Hneg.
  - apply Z.ltb_lt in Hneg. symmetry. apply (Z.mod_unique _ _ (-1)); lia.
  - apply Z.ltb_ge in Hneg. apply Z.mod_small. lia.
Qed.

Lemma to_size_t_difference z n :
  (0 <= n <= z)%Z -> (z < 2 ^ 63)%Z -> to_size_t (z - n) = (z - n)%Z.
Proof. intros Hn Hz. apply Z.mod_small. lia. Qed.

(** What [put_quoted] writes, and when it returns, for a field width in the
    range of [std::streamsize] and a quoted text that a vector holds. *)
Lemma put_quoted_cases d e os s :
  (- 2 ^ 63 <= width os < 2 ^ 63)%Z ->
  (Z.of_nat (quoted_length d e s) <= vector_max_size)%Z ->
  put_quoted d e os s =
  if (width os <? 0)%Z then None
  else if (width os <=? Z.of_nat (quoted_length d e s))%Z then
    Some (mkOstream (written os ++ quoted_text d e s)%string 0
            (adjust_left os) (fill os))
  else if adjust_left os then
    Some (mkOstream
            (written os ++ quoted_text d e s ++
             string_rep (Z.to_nat (width os - Z.of_nat (quoted_length d e s)))
               (fill os))%string 0 (adjust_left os) (fill os))
  else if (width os + Z.of_nat (quoted_length d e s) <=? vector_max_size)%Z
  then
    Some (mkOstream
            (written os ++ string_rep (Z.to_nat (width os)) (fill os) ++
             quoted_text d e s)%string 0 (adjust_left os) (fill os))
  else None.
Proof.
  intros Hw Hq. unfold vector_max_size in *.
  destruct (width os <? 0)%Z eqn:Hneg.
  - apply Z.ltb_lt in Hneg. unfold put_quoted.
    rewrite quoted_text_length, (to_size_t_streamsize _ Hw).
    rewrite (proj2 (Z.ltb_lt _ _) Hneg).
    rewrite (proj2 (Z.ltb_lt _ _)) by lia.
    destruct (adjust_left os).
    + unfold fill_n. rewrite quoted_text_length.
      assert (to_size_t (width os - Z.of_nat (quoted_length d e s)) =
              width os - Z.of_nat (quoted_length d e s) + 2 ^ 64)%Z as ->.
      { unfold to_size_t. symmetry. apply (Z.mod_unique _ _ (-1)); lia. }
      unfold vector_max_size. by rewrite (proj2 (Z.leb_gt _ _)) by lia.
    + cbn [String.length]. unfold fill_n. cbn [String.length].
      rewrite Z.sub_0_r, (to_size_t_streamsize _ Hw).
      rewrite (proj2 (Z.ltb_lt _ _) Hneg).
      unfold vector_max_size. by rewrite (proj2 (Z.leb_gt _ _)) by lia.
  - apply Z.ltb_ge in Hneg.
    destruct (width os <=? Z.of_nat (quoted_length d e s))%Z eqn:Hle.
    { apply Z.leb_le in Hle. apply put_quoted_unpadded. lia. }
    apply Z.leb_gt in Hle. unfold put_quoted.
    rewrite quoted_text_length, (to_size_t_streamsize _ Hw).
    rewrite (proj2 (Z.ltb_ge _ _) Hneg).
    rewrite (proj2 (Z.ltb_lt _ _) Hle).
    destruct (adjust_left os).
    + unfold fill_n. rewrite quoted_text_length.
      rewrite to_size_t_difference by lia.
      unfold vector_max_size. by rewrite (proj2 (Z.leb_le _ _)) by lia.
    + cbn [String.length]. unfold fill_n. cbn [String.length].
      rewrite Z.sub_0_r, (to_size_t_streamsize _ Hw).
      rewrite (proj2 (Z.ltb_ge _ _) Hneg).
      unfold vector_max_size. rewrite (proj2 (Z.leb_le _ _)) by lia.
      cbn [mbind option_bind]. unfold copy_back.
      rewrite string_length_app, string_rep_length, quoted_text_length.
      cbn [String.length Nat.add].
      rewrite Z2Nat.id by lia. unfold vector_max_size.
      change (EmptyString ++ ?x)%string with x.
      by destruct (width os + Z.of_nat (quoted_length d e s) <=? 2 ^ 63 - 1)%Z.
Qed.

(** X8.  For a delimiter that differs from the escape character and is no
    white space, a fill character that is white space, a field width in the
    range of [std::streamsize] and a quoted text that a vector can hold:
    whenever [put_quoted] returns, under whatever adjustment, what it wrote
    is read back unchanged by [get_quoted] from a stream that skips white
    space; the padding written after the text for a left adjustment is left
    unread. *)
Theorem get_put_quoted_padded d e w (l : bool) f s rest str0 os' :
  d ≠ e -> isspace d = false -> isspace f = true ->
  (- 2 ^ 63 <= w < 2 ^ 63)%Z ->
  (Z.of_nat (quoted_length d e s) <= vector_max_size)%Z ->
  put_quoted d e (mkOstream EmptyString w l f) s = Some os' ->
  get_quoted d e (mkIstream (written os' ++ rest) false false true) str0 =
  (mkIstream
     ((if l then string_rep (Z.to_nat (w - Z.of_nat (quoted_length d e s))) f
       else EmptyString) ++ rest) false false true, s).
Proof.
  intros Hde Hd Hf Hw Hq Hput.
  rewrite put_quoted_cases in Hput by done.
  cbn [written width adjust_left fill] in Hput.
  change (EmptyString ++ ?x)%string with x in Hput.
  destruct (w <? 0)%Z; [done|].
  destruct (w <=? Z.of_nat (quoted_length d e s))%Z eqn:Hle.
  { injection Hput as <-. cbn [written]. apply Z.leb_le in Hle.
    replace (Z.to_nat (w - Z.of_nat (quoted_length d e s))) with 0 by lia.
    cbn [string_rep]. unfold quoted_text.
    rewrite string_app_cons, string_app_assoc, string_app_cons.
    change (EmptyString ++ ?x)%string with x.
    rewrite get_quoted_text by done. by destruct l. }
  destruct l.
  - injection Hput as <-. cbn [written]. unfold quoted_text.
    rewrite string_app_assoc, string_app_cons, string_app_assoc,
      string_app_cons.
    change (EmptyString ++ ?x)%string with x.
    by rewrite get_quoted_text.
  - destruct (w + Z.of_nat (quoted_length d e s) <=? vector_max_size)%Z;
      [|done].
    injection Hput as <-. cbn [written]. unfold quoted_text.
    rewrite string_app_assoc, string_app_cons, string_app_assoc,
      string_app_cons.
    change (EmptyString ++ rest)%string with rest.
    rewrite get_quoted_after_spaces; [done..|].
    by apply string_rep_spaces.
Qed.

Lemma get_put_quoted_padded_witness :
  default_delim ≠ default_escape ∧ isspace default_delim = false ∧
  isspace " " = true ∧ (- 2 ^ 63 <= 8 < 2 ^ 63)%Z ∧
  (Z.of_nat (quoted_length default_delim default_escape "a b") <=
   vector_max_size)%Z ∧
  put_quoted default_delim default_escape (mkOstream EmptyString 8 false " ")
    "a b" =
  Some (mkOstream (string_rep 8 " " ++
                   quoted_text default_delim default_escape "a b")
          0 false " ") ∧
  get_quoted default_delim default_escape
    (mkIstream
       (written
          (mkOstream (string_rep 8 " " ++
                      quoted_text default_delim default_escape "a b")
             0 false " ") ++ "c")
       false false true) "old" =
  (mkIstream "c" false false true, "a b").
Proof.
  assert (default_delim ≠ default_escape) as Hde by done.
  assert (- 2 ^ 63 <= 8 < 2 ^ 63)%Z as Hw by lia.
  assert (Z.of_nat (quoted_length default_delim default_escape "a b") <=
          vector_max_size)%Z as Hq by (vm_compute; discriminate).
  assert (put_quoted default_delim default_escape
            (mkOstream EmptyString 8 false " ") "a b" =
          Some (mkOstream (string_rep 8 " " ++
                           quoted_text default_delim default_escape "a b")
                  0 false " ")) as Hput by (vm_compute; reflexivity).
  split; [exact Hde|]. split; [reflexivity|]. split; [reflexivity|].
  split; [exact Hw|]. split; [exact Hq|]. split; [exact Hput|].
  exact (get_put_quoted_padded default_delim default_escape 8 false " " "a b"
           "c" "old" _ Hde eq_refl eq_refl Hw Hq Hput).
Defined.

(** X9.  For a field width in the range of [std::streamsize] and a quoted
    text that a vector can hold, [put_quoted] does not return when the width
    is negative (the width is compared as a [std::size_t], and more fill
    characters are asked for than a vector holds).  Otherwise it writes the
    quoted text as it is when the width is not larger than its size; for a
    larger width and a left adjustment it writes the quoted text and then
    fill characters up to the width; for any other adjustment it writes as
    many fill characters as the whole width and then the quoted text,
    unless a vector cannot hold that many.  The width is reset to 0, the
    adjustment and the fill character are kept. *)
Theorem put_quoted_written d e os s :
  (- 2 ^ 63 <= width os < 2 ^ 63)%Z ->
  (Z.of_nat (quoted_length d e s) <= vector_max_size)%Z ->
  put_quoted d e os s =
  if (width os <? 0)%Z then None
  else if (width os <=? Z.of_nat (quoted_length d e s))%Z then
    Some (mkOstream (written os ++ quoted_text d e s)%string 0
            (adjust_left os) (fill os))
  else if adjust_left os then
    Some (mkOstream
            (written os ++ quoted_text d e s ++
             string_rep (Z.to_nat (width os - Z.of_nat (quoted_length d e s)))
               (fill os))%string 0 (adjust_left os) (fill os))
  else if (width os + Z.of_nat (quoted_length d e s) <=? vector_max_size)%Z
  then
    Some (mkOstream
            (written os ++ string_rep (Z.to_nat (width os)) (fill os) ++
             quoted_text d e s)%string 0 (adjust_left os) (fill os))
  else None.
Proof. apply put_quoted_cases. Qed.

Lemma put_quoted_written_witness :
  (- 2 ^ 63 <= 8 < 2 ^ 63)%Z ∧ (- 2 ^ 63 <= -1 < 2 ^ 63)%Z ∧
  (Z.of_nat (quoted_length default_delim default_escape "a b") <=
   vector_max_size)%Z ∧
  put_quoted default_delim default_escape (mkOstream "x" 8 false "*") "a b" =
  Some (mkOstream
          ("x" ++ "********" ++ quoted_text default_delim default_escape "a b")
          0 false "*") ∧
  put_quoted default_delim default_escape (mkOstream "x" 8 true "*") "a b" =
  Some (mkOstream
          ("x" ++ quoted_text default_delim default_escape "a b" ++ "***")
          0 true "*") ∧
  put_quoted default_delim default_escape (mkOstream "x" (-1) true "*") "a b" =
  None.
Proof.
  assert (- 2 ^ 63 <= 8 < 2 ^ 63)%Z as Hw by lia.
  assert (- 2 ^ 63 <= -1 < 2 ^ 63)%Z as Hn by lia.
  assert (Z.of_nat (quoted_length default_delim default_escape "a b") <=
          vector_max_size)%Z as Hq by (vm_compute; discriminate).
  split; [exact Hw|]. split; [exact Hn|]. split; [exact Hq|].
  split; [|split].
  - exact (put_quoted_written default_delim default_escape
             (mkOstream "x" 8 false "*") "a b" Hw Hq).
  - exact (put_quoted_written default_delim default_escape
             (mkOstream "x" 8 true "*") "a b" Hw Hq).
  - exact (put_quoted_written default_delim default_escape
             (mkOstream "x" (-1) true "*") "a b" Hn Hq).
Defined.

Lemma get_quoted_token d e ws t rest str0 :
  string_forallb isspace ws = true -> plain d t = true ->
  ends_token rest = true ->
  get_quoted d e (mkIstream (ws ++ t ++ rest) false false true) str0 =
  (mkIstream rest (bool_decide (rest = EmptyString)) false true, t).
Proof.
  intros Hws Ht Hrest. destruct t as [|c t]; [done|].
  unfold plain in Ht. apply andb_true_iff in Ht as [Hcd Ht].
  apply negb_true_iff in Hcd.
  pose proof Ht as Ht'. cbn [string_forallb] in Ht'.
  apply andb_true_iff in Ht' as [Hc _]. apply negb_true_iff in Hc.
  unfold get_quoted. rewrite string_app_cons.
  rewrite (extract_char_first c _ (t ++ rest)).
  2: done.
  2:{ rewrite skip_spaces_all by done. by apply skip_spaces_nonspace. }
  rewrite Hcd. cbn [negb]. unfold unget, extract_string, sentry.
  cbn [good eofbit failbit skipws buf negb andb set_buf setstate].
  rewrite skip_spaces_nonspace by done.
  unfold set_buf. cbn [buf eofbit failbit skipws].
  rewrite <- string_app_cons, take_token_plain by done.
  unfold setstate. cbn [buf eofbit failbit skipws orb].
  by rewrite (bool_decide_false (String c t = EmptyString)).
Qed.

(** X10.  From a good stream that skips white space, [get_quoted] reads a
    text that does not start with the delimiter as far as the next white
    space, after dropping the white space before it; [eofbit] is set exactly
    when the text ends the stream, and [failbit] is not set. *)
Theorem get_quoted_plain d e ws t rest str0 :
  string_forallb isspace ws = true -> plain d t = true ->
  ends_token rest = true ->
  get_quoted d e (mkIstream (ws ++ t ++ rest) false false true) str0 =
  (mkIstream rest (bool_decide (rest = EmptyString)) false true, t).
Proof. apply get_quoted_token. Qed.

Lemma get_quoted_plain_witness :
  string_forallb isspace "  " = true ∧ plain default_delim "S" = true ∧
  ends_token " = A b" = true ∧
  get_quoted default_delim default_escape
    (mkIstream ("  " ++ "S" ++ " = A b") false false true) "old" =
  (mkIstream " = A b" false false true, "S").
Proof.
  split; [reflexivity|]. split; [reflexivity|]. split; [reflexivity|].
  exact (get_quoted_plain default_delim default_escape "  " "S" " = A b" "old"
           eq_refl eq_refl eq_refl).
Defined.



(** ** Symbols: writing and reading back *)

Lemma insert_string_no_width os str :
  width os = 0%Z ->
  insert_string os str =
  mkOstream (written os ++ str)%string 0 (adjust_left os) (fill os).
Proof.
  intros Hw. unfold insert_string. rewrite Hw.
  replace (Z.to_nat (0 - Z.of_nat (String.length str))) with 0 by lia.
  cbn [string_rep]. change (EmptyString ++ ?x)%string with x.
  destruct (adjust_left os); [by rewrite string_app_nil_r|done].
Qed.

Lemma put_symbol_written g os sym :
  width os = 0%Z ->
  put_symbol g os sym =
  Some (mkOstream (written os ++ symbol_text g sym)%string 0 (adjust_left os)
          (fill os)).
Proof.
  intros Hw. unfold symbol_text, put_symbol.
  destruct (bool_decide (sym = epsilon) || has_terminal g sym).
  - by apply put_quoted_no_width.
  - by rewrite insert_string_no_width.
Qed.

Lemma plain_not_empty d t : plain d t = true -> t ≠ EmptyString.
Proof. by destruct t. Qed.

(** X12.  With no field width [put_symbol] returns, and the symbol it wrote,
    read by [get_symbol] from a stream that skips white space, comes back
    unchanged when it is the empty symbol or a terminal (these are written
    quoted), or when it is not empty, holds no white space and does not
    start with a double quote; what follows must be the end or white space.
    The stream stands right after the symbol and has not failed. *)
Theorem get_put_symbol g (l : bool) f sym rest str0 :
  sym = epsilon ∨ sym ∈ terminals g ∨ plain default_delim sym = true ->
  ends_token rest = true ->
  ∃ os' ins',
    put_symbol g (mkOstream EmptyString 0 l f) sym = Some os' ∧
    get_symbol (mkIstream (written os' ++ rest) false false true) str0 =
    (ins', sym) ∧
    buf ins' = rest ∧ failbit ins' = false.
Proof.
  intros Hsym Hrest. rewrite put_symbol_written by done.
  cbn [written adjust_left fill]. change (EmptyString ++ ?x)%string with x.
  assert (∃ ins',
            get_symbol
              (mkIstream (symbol_text g sym ++ rest) false false true) str0 =
            (ins', sym) ∧ buf ins' = rest ∧ failbit ins' = false)
    as (ins' & Hget).
  { unfold get_symbol, symbol_text.
    destruct (bool_decide (sym = epsilon) || has_terminal g sym) eqn:Hq.
    - unfold quoted_text.
      rewrite string_app_cons, string_app_assoc, string_app_cons.
      change (EmptyString ++ rest)%string with rest.
      rewrite get_quoted_text by done. eauto.
    - apply orb_false_iff in Hq as [He Ht].
      apply bool_decide_eq_false in He. unfold has_terminal in Ht.
      apply bool_decide_eq_false in Ht.
      destruct Hsym as [?|[?|Hp]]; [done..|].
      rewrite (get_quoted_token _ _ EmptyString sym rest) by done. eauto. }
  eauto.
Qed.

Lemma get_put_symbol_witness :
  ("a" = epsilon ∨ "a" ∈ terminals scenario1 ∨
   plain default_delim "a" = true) ∧
  ends_token " b" = true ∧
  ∃ os' ins',
    put_symbol scenario1 (mkOstream EmptyString 0 false " ") "a" = Some os' ∧
    get_symbol (mkIstream (written os' ++ " b") false false true) "old" =
    (ins', "a") ∧
    buf ins' = " b" ∧ failbit ins' = false.
Proof.
  assert ("a" = epsilon ∨ "a" ∈ terminals scenario1 ∨
          plain default_delim "a" = true) as H
    by (right; right; reflexivity).
  split; [exact H|]. split; [reflexivity|].
  exact (get_put_symbol scenario1 false " " "a" " b" "old" H eq_refl).
Defined.

(** X13.  A symbol that is not a terminal is written as it is.  When it
    is made of a part [t] that is not empty, holds no white space and does
    not start with a double quote, then a white-space character, then
    anything, [get_symbol] reads back [t] only: such a symbol does not
    survive being written and read. *)
Theorem get_put_symbol_cut g (l : bool) f t c u rest str0 :
  has_terminal g (t ++ String c u) = false ->
  plain default_delim t = true -> isspace c = true ->
  ∃ os' ins',
    put_symbol g (mkOstream EmptyString 0 l f) (t ++ String c u) = Some os' ∧
    get_symbol (mkIstream (written os' ++ rest) false false true) str0 =
    (ins', t) ∧
    t ≠ (t ++ String c u)%string.
Proof.
  intros Ht Hp Hc. rewrite put_symbol_written by done.
  eexists. eexists. split; [reflexivity|].
  cbn [written]. change (EmptyString ++ ?x)%string with x.
  unfold get_symbol, symbol_text.
  assert ((t ++ String c u)%string ≠ epsilon) as He.
  { destruct t as [|c' t']; [done|]. by rewrite string_app_cons. }
  rewrite bool_decide_false, Ht by done. cbn [orb].
  rewrite string_app_assoc, string_app_cons.
  rewrite (get_quoted_token _ _ EmptyString t (String c (u ++ rest)))
    by done.
  split; [done|]. intros Heq.
  apply (f_equal String.length) in Heq. rewrite string_length_app in Heq.
  cbn in Heq. lia.
Qed.

Lemma get_put_symbol_cut_witness :
  has_terminal scenario1 ("my" ++ String " " "rule") = false ∧
  plain default_delim "my" = true ∧ isspace " " = true ∧
  ∃ os' ins',
    put_symbol scenario1 (mkOstream EmptyString 0 false " ")
      ("my" ++ String " " "rule") = Some os' ∧
    get_symbol (mkIstream (written os' ++ " = a") false false true) "old" =
    (ins', "my") ∧
    "my" ≠ ("my" ++ String " " "rule")%string.
Proof.
  split; [reflexivity|]. split; [reflexivity|]. split; [reflexivity|].
  exact (get_put_symbol_cut scenario1 false " " "my" " " "rule" " = a" "old"
           eq_refl eq_refl eq_refl).
Defined.


(** ** Symbol sequences: writing and reading back *)

Lemma put_symbols_written g os x rest :
  width os = 0%Z ->
  put_symbols g os x rest =
  Some (mkOstream (written os ++ symbols_text g x rest)%string 0
          (adjust_left os) (fill os)).
Proof.
  revert os x. induction rest as [|y rest IH]; intros os x Hw.
  - by apply put_symbol_written.
  - cbn [put_symbols symbols_text]. rewrite put_symbol_written by done.
    unfold insert_char. rewrite insert_string_no_width by done.
    rewrite IH by done. cbn [written adjust_left fill].
    by rewrite !string_app_assoc.
Qed.

Lemma writable_no_lf g sym :
  writable g sym = true ->
  string_forallb (λ c, negb (Ascii.eqb c "010")) sym = true.
Proof. unfold writable. by intros [? _]%andb_true_iff. Qed.

Lemma string_forallb_app p (s t : string) :
  string_forallb p (s ++ t) = string_forallb p s && string_forallb p t.
Proof.
  induction s as [|c s IH]; [done|]. rewrite string_app_cons.
  cbn [string_forallb]. by rewrite IH, andb_assoc.
Qed.

Lemma escape_chars_forallb p d e s :
  p e = true -> string_forallb p s = true ->
  string_forallb p (escape_chars d e s) = true.
Proof.
  intros He. induction s as [|c s IH]; [done|]. cbn [string_forallb].
  intros [Hc Hs]%andb_true_iff. cbn [escape_chars].
  destruct (Ascii.eqb c d || Ascii.eqb c e); cbn [string_forallb];
    by rewrite ?He, Hc, IH.
Qed.

(** The text of a writable symbol, in both forms. *)
Lemma symbol_text_cases g sym :
  writable g sym = true ->
  symbol_text g sym =
    String default_delim
      (escape_chars default_delim default_escape sym ++
       String default_delim EmptyString) ∨
  (symbol_text g sym = sym ∧ plain default_delim sym = true).
Proof.
  unfold writable, symbol_text.
  intros [_ Hw]%andb_true_iff.
  destruct (bool_decide (sym = epsilon) || has_terminal g sym).
  - by left.
  - by right.
Qed.

Lemma plain_head d t :
  plain d t = true -> ∃ c r, t = String c r ∧ isspace c = false.
Proof.
  destruct t as [|c r]; [done|]. unfold plain. cbn [string_forallb].
  intros [_ [Hc _]%andb_true_iff]%andb_true_iff.
  apply negb_true_iff in Hc. eauto.
Qed.

Lemma plain_no_space d t :
  plain d t = true -> string_forallb (λ c, negb (isspace c)) t = true.
Proof. destruct t as [|c r]; [done|]. by intros [_ ?]%andb_true_iff. Qed.

Lemma symbol_text_head g sym :
  writable g sym = true ->
  ∃ c r, symbol_text g sym = String c r ∧ isspace c = false.
Proof.
  intros [->|[-> Hp]]%symbol_text_cases.
  - by eexists _, _.
  - by apply (plain_head default_delim).
Qed.

Lemma symbol_text_no_lf g sym :
  writable g sym = true ->
  string_forallb (λ c, negb (Ascii.eqb c "010")) (symbol_text g sym) = true.
Proof.
  intros Hw. pose proof (writable_no_lf _ _ Hw) as Hlf.
  destruct (symbol_text_cases _ _ Hw) as [->|[-> _]]; [|done].
  cbn [string_forallb]. rewrite string_forallb_app.
  by rewrite escape_chars_forallb.
Qed.

Lemma symbols_text_head g x rest :
  writable g x = true ->
  ∃ c r, symbols_text g x rest = String c r ∧ isspace c = false.
Proof.
  intros (c & r & Hx & Hc)%symbol_text_head.
  destruct rest as [|y rest]; cbn [symbols_text]; rewrite Hx.
  - eauto.
  - rewrite string_app_cons. eauto.
Qed.

Lemma symbols_text_no_lf g x rest :
  Forall (λ s, writable g s = true) (x :: rest) ->
  string_forallb (λ c, negb (Ascii.eqb c "010")) (symbols_text g x rest)
  = true.
Proof.
  revert x. induction rest as [|y rest IH]; intros x [Hx Hrest]%Forall_cons.
  - by apply symbol_text_no_lf.
  - cbn [symbols_text]. rewrite string_forallb_app. cbn [string_forallb].
    by rewrite symbol_text_no_lf, IH.
Qed.

Lemma symbols_text_length g x rest :
  Forall (λ s, writable g s = true) (x :: rest) ->
  length rest < String.length (symbols_text g x rest).
Proof.
  revert x. induction rest as [|y rest IH]; intros x [Hx Hrest]%Forall_cons.
  - cbn [symbols_text].
    destruct (symbol_text_head _ _ Hx) as (c & r & -> & _). cbn. lia.
  - cbn [symbols_text]. rewrite string_length_app. cbn [String.length length].
    specialize (IH _ Hrest). lia.
Qed.

(** Reading one writable symbol from its text. *)
Lemma get_symbol_text g pre x rest sym0 :
  writable g x = true -> string_forallb isspace pre = true ->
  ends_token rest = true ->
  ∃ e : bool,
    get_symbol
      (mkIstream (pre ++ symbol_text g x ++ rest) false false true) sym0 =
    (mkIstream rest e false true, x).
Proof.
  intros Hw Hpre Hrest. unfold get_symbol.
  destruct (symbol_text_cases _ _ Hw) as [->|[-> Hp]].
  - rewrite string_app_cons, string_app_assoc, string_app_cons.
    change (EmptyString ++ rest)%string with rest.
    rewrite get_quoted_after_spaces by done. eauto.
  - rewrite get_quoted_token by done. eauto.
Qed.

Lemma symbols_loop_end fuel (e : bool) sym acc :
  symbols_loop fuel (mkIstream EmptyString e false true) sym acc = acc.
Proof. destruct fuel as [|n]; [done|]. by destruct e. Qed.

Lemma symbols_loop_text g rest :
  ∀ x fuel pre sym acc,
    Forall (λ s, writable g s = true) (x :: rest) ->
    S (length rest) < fuel -> string_forallb isspace pre = true ->
    symbols_loop fuel
      (mkIstream (pre ++ symbols_text g x rest) false false true) sym acc =
    (acc ++ x :: rest)%list.
Proof.
  induction rest as [|y rest IH];
    intros x fuel pre sym acc [Hx Hrest]%Forall_cons Hfuel Hpre;
    (destruct fuel as [|fuel]; [lia|]); cbn [symbols_loop symbols_text].
  - destruct (get_symbol_text g pre x EmptyString sym Hx Hpre eq_refl)
      as [e He].
    rewrite string_app_nil_r in He. rewrite He. cbn [failbit].
    by rewrite symbols_loop_end.
  - destruct (get_symbol_text g pre x (String " " (symbols_text g y rest))
                sym Hx Hpre eq_refl) as [e He].
    rewrite He. cbn [failbit].
    assert (e = false) as ->.
    { unfold get_symbol in He.
      destruct (symbol_text_cases _ _ Hx) as [Hq|[Hq Hp]]; rewrite Hq in He.
      - rewrite string_app_cons, string_app_assoc, string_app_cons in He.
        rewrite get_quoted_after_spaces in He by done. by injection He.
      - rewrite get_quoted_token in He by done. by injection He. }
    change (String " " (symbols_text g y rest))
      with (String " " EmptyString ++ symbols_text g y rest)%string.
    rewrite IH; [|done|cbn [length] in Hfuel; lia|done].
    by rewrite <- app_assoc.
Qed.

Lemma take_line_text t tail :
  string_forallb (λ c, negb (Ascii.eqb c "010")) t = true ->
  ends_line tail = true ->
  take_line (t ++ tail) =
  (t, match tail with
      | EmptyString => None
      | String _ more => Some more
      end).
Proof.
  intros Ht Htail. induction t as [|c t IH].
  - destruct tail as [|c more]; [done|]. unfold ends_line in Htail.
    change (take_line (String c more) = (EmptyString, Some more)).
    cbn [take_line]. by rewrite Htail.
  - cbn [string_forallb] in Ht. apply andb_true_iff in Ht as [Hc Ht].
    apply negb_true_iff in Hc. rewrite string_app_cons. cbn [take_line].
    by rewrite Hc, (IH Ht).
Qed.

Lemma get_symbol_sequence_text g pre x rest tail :
  Forall (λ s, writable g s = true) (x :: rest) ->
  string_forallb isspace pre = true -> ends_line tail = true ->
  get_symbol_sequence
    (mkIstream (pre ++ symbols_text g x rest ++ tail) false false true) =
  (mkIstream (after_line_feed tail) (bool_decide (tail = EmptyString)) false
     true, x :: rest).
Proof.
  intros Hall Hpre Htail.
  pose proof Hall as [Hx _]%Forall_cons.
  destruct (symbols_text_head g x rest Hx) as (c & r & Htext & Hc).
  unfold get_symbol_sequence, std_ws, sentry.
  cbn [good eofbit failbit negb andb buf]. unfold set_buf, setstate.
  cbn [buf eofbit failbit skipws orb].
  assert (skip_spaces (pre ++ symbols_text g x rest ++ tail) =
          (symbols_text g x rest ++ tail)%string) as ->.
  { rewrite skip_spaces_all by done.
    rewrite Htext, string_app_cons. by apply skip_spaces_nonspace. }
  rewrite bool_decide_false by (by rewrite Htext, string_app_cons).
  cbn [failbit]. unfold getline, sentry.
  cbn [good eofbit failbit negb andb buf].
  rewrite take_line_text by (done || by apply symbols_text_no_lf).
  pose proof (symbols_text_length g x rest Hall) as Hlen.
  assert (symbols_loop (S (String.length (symbols_text g x rest)))
            (stringstream (symbols_text g x rest)) EmptyString [] =
          x :: rest) as Hloop.
  { apply (symbols_loop_text g rest x _ EmptyString EmptyString []);
      [done|lia|done]. }
  destruct tail as [|c' more].
  - unfold set_buf, setstate. cbn [buf eofbit failbit skipws orb].
    rewrite bool_decide_false by (by rewrite Htext).
    cbn [failbit]. by rewrite Hloop.
  - unfold set_buf. cbn [buf eofbit failbit skipws].
    by rewrite Hloop.
Qed.

(** X14.  A non-empty sequence of writable symbols, written by
    [put_symbol_sequence] with no field width and followed by a line feed or
    by the end of the stream, is read back unchanged by
    [get_symbol_sequence]; the stream has not failed and stands after the
    line feed. *)
Theorem get_put_symbol_sequence g (l : bool) f x rest os' tail :
  Forall (λ s, writable g s = true) (x :: rest) ->
  ends_line tail = true ->
  put_symbol_sequence g (mkOstream EmptyString 0 l f) (x :: rest) = Some os' ->
  ∃ ins',
    get_symbol_sequence (mkIstream (written os' ++ tail) false false true) =
    (ins', x :: rest) ∧
    failbit ins' = false ∧ buf ins' = after_line_feed tail.
Proof.
  intros Hall Htail Hput. cbn [put_symbol_sequence] in Hput.
  rewrite put_symbols_written in Hput by done. injection Hput as <-.
  cbn [written]. change (EmptyString ++ ?x)%string with x.
  pose proof (get_symbol_sequence_text g EmptyString x rest tail Hall eq_refl
                Htail) as H.
  change (EmptyString ++ ?x)%string with x in H. rewrite H. eauto.
Qed.

Lemma get_put_symbol_sequence_witness :
  Forall (λ s, writable scenario1 s = true) ["A"; "b"; epsilon] ∧
  ends_line (String "010" "next") = true ∧
  put_symbol_sequence scenario1 (mkOstream EmptyString 0 false " ")
    ["A"; "b"; epsilon] =
  Some (mkOstream (symbols_text scenario1 "A" ["b"; epsilon]) 0 false " ") ∧
  ∃ ins',
    get_symbol_sequence
      (mkIstream
         (written
            (mkOstream (symbols_text scenario1 "A" ["b"; epsilon]) 0 false
               " ") ++ String "010" "next") false false true) =
    (ins', ["A"; "b"; epsilon]) ∧
    failbit ins' = false ∧ buf ins' = after_line_feed (String "010" "next").
Proof.
  assert (Forall (λ s, writable scenario1 s = true) ["A"; "b"; epsilon])
    as Hall by (repeat constructor).
  split; [exact Hall|]. split; [reflexivity|]. split; [reflexivity|].
  exact (get_put_symbol_sequence scenario1 false " " "A" ["b"; epsilon] _
           (String "010" "next") Hall eq_refl eq_refl).
Defined.


(** ** Rules: writing and reading back *)

Lemma get_symbol_text_more g pre x rest sym0 :
  writable g x = true -> string_forallb isspace pre = true ->
  ends_token rest = true -> rest ≠ EmptyString ->
  get_symbol
    (mkIstream (pre ++ symbol_text g x ++ rest) false false true) sym0 =
  (mkIstream rest false false true, x).
Proof.
  intros Hw Hpre Hrest Hne. unfold get_symbol.
  destruct (symbol_text_cases _ _ Hw) as [->|[-> Hp]].
  - rewrite string_app_cons, string_app_assoc, string_app_cons.
    change (EmptyString ++ rest)%string with rest.
    by rewrite get_quoted_after_spaces.
  - rewrite get_quoted_token by done. by rewrite bool_decide_false.
Qed.

Lemma put_rule_written g os h x rest :
  width os = 0%Z ->
  ∃ os', put_rule g os (h, x :: rest) = Some os' ∧ width os' = 0%Z ∧
         written os' = (written os ++ rule_text g h x rest)%string.
Proof.
  intros Hw. unfold put_rule. cbn [fst snd put_symbol_sequence].
  rewrite put_symbol_written by done.
  rewrite insert_string_no_width by done.
  rewrite put_symbols_written by done. cbn [written adjust_left fill].
  eexists. split; [done|]. split; [done|]. cbn [written].
  unfold rule_text. by rewrite !string_app_assoc.
Qed.

Lemma get_rule_text g pre h x rest tail r0 :
  writable g h = true -> Forall (λ s, writable g s = true) (x :: rest) ->
  string_forallb isspace pre = true -> ends_line tail = true ->
  get_rule (mkIstream (pre ++ rule_text g h x rest ++ tail) false false true)
    r0 =
  (mkIstream (after_line_feed tail) (bool_decide (tail = EmptyString)) false
     true, (h, x :: rest)).
Proof.
  intros Hh Hall Hpre Htail. unfold get_rule, rule_text.
  rewrite !string_app_assoc.
  rewrite get_symbol_text_more by done. cbn [failbit].
  change (" = " ++ symbols_text g x rest ++ tail)%string
    with (" " ++ "=" ++ " " ++ symbols_text g x rest ++ tail)%string.
  unfold get_symbol at 1. rewrite get_quoted_token by done.
  cbn [failbit].
  rewrite (bool_decide_false (_ = EmptyString))
    by (by rewrite string_app_cons).
  rewrite (bool_decide_false ("=" ≠ "=")) by (intros Hn; by apply Hn).
  by rewrite get_symbol_sequence_text.
Qed.

(** X15.  A rule with a writable head and a non-empty body of writable
    symbols, written with no field width and followed by a line feed or by
    the end of the stream, is read back unchanged by [get_rule]; the stream
    has not failed and stands after the line feed. *)
Theorem get_put_rule g (l : bool) f h x rest os' tail r0 :
  writable g h = true -> Forall (λ s, writable g s = true) (x :: rest) ->
  ends_line tail = true ->
  put_rule g (mkOstream EmptyString 0 l f) (h, x :: rest) = Some os' ->
  ∃ ins',
    get_rule (mkIstream (written os' ++ tail) false false true) r0 =
    (ins', (h, x :: rest)) ∧
    failbit ins' = false ∧ buf ins' = after_line_feed tail.
Proof.
  intros Hh Hall Htail Hput.
  destruct (put_rule_written g (mkOstream EmptyString 0 l f) h x rest eq_refl)
    as (os1 & Hput1 & _ & Hw).
  rewrite Hput in Hput1. injection Hput1 as <-. rewrite Hw. cbn [written].
  change (EmptyString ++ ?x)%string with x.
  pose proof (get_rule_text g EmptyString h x rest tail r0 Hh Hall eq_refl
                Htail) as H.
  change (EmptyString ++ ?x)%string with x in H. rewrite H. eauto.
Qed.

Lemma get_put_rule_witness :
  writable scenario2 "S" = true ∧
  Forall (λ s, writable scenario2 s = true) ["S"; "a"] ∧
  ends_line EmptyString = true ∧
  put_rule scenario2 (mkOstream EmptyString 0 false " ") ("S", ["S"; "a"]) =
    Some (mkOstream (rule_text scenario2 "S" "S" ["a"]) 0 false " ") ∧
  ∃ ins',
    get_rule
      (mkIstream
         (written (mkOstream (rule_text scenario2 "S" "S" ["a"]) 0 false " ")
          ++ EmptyString)
         false false true) ("old", ["x"]) = (ins', ("S", ["S"; "a"])) ∧
    failbit ins' = false ∧ buf ins' = after_line_feed EmptyString.
Proof.
  assert (Forall (λ s, writable scenario2 s = true) ["S"; "a"]) as Hall
    by (repeat constructor).
  split; [reflexivity|]. split; [exact Hall|]. split; [reflexivity|].
  split; [reflexivity|].
  exact (get_put_rule scenario2 false " " "S" "S" ["a"] _ EmptyString
           ("old", ["x"]) eq_refl Hall eq_refl eq_refl).
Defined.

(** ** Symbol sets: writing and reading back *)

Lemma symbols_loop_acc fuel ss sym acc :
  symbols_loop fuel ss sym acc = (acc ++ symbols_loop fuel ss sym [])%list.
Proof.
  revert ss sym acc. induction fuel as [|n IH]; intros ss sym acc.
  - cbn. by rewrite app_nil_r.
  - cbn [symbols_loop]. destruct (get_symbol ss sym) as [ss1 sym1].
    destruct (failbit ss1); [by rewrite app_nil_r|].
    rewrite (IH _ _ (acc ++ [sym1])%list), (IH _ _ ([] ++ [sym1])%list).
    by rewrite <- app_assoc.
Qed.

Lemma symbol_set_loop_list fuel ss sym S :
  symbol_set_loop fuel ss sym S =
  S ∪ list_to_set (symbols_loop fuel ss sym []).
Proof.
  revert ss sym S. induction fuel as [|n IH]; intros ss sym S.
  - cbn. set_solver.
  - cbn [symbol_set_loop symbols_loop].
    destruct (get_symbol ss sym) as [ss1 sym1].
    destruct (failbit ss1); [cbn; set_solver|].
    rewrite IH, (symbols_loop_acc _ _ _ ([] ++ [sym1])%list).
    rewrite list_to_set_app_L. cbn. set_solver.
Qed.

Lemma get_symbol_set_sequence ins :
  get_symbol_set ins =
  (let '(ins', seq) := get_symbol_sequence ins in (ins', list_to_set seq)).
Proof.
  unfold get_symbol_set, get_symbol_sequence.
  destruct (failbit (std_ws ins)); [done|].
  destruct (getline (std_ws ins) EmptyString) as [ins2 line].
  destruct (failbit ins2); [done|].
  rewrite symbol_set_loop_list. f_equal. set_solver.
Qed.

Lemma set_order_elem S x : x ∈ set_order S ↔ x ∈ S.
Proof.
  unfold set_order. rewrite merge_sort_Permutation. apply elem_of_elements.
Qed.

Lemma set_order_to_set S : list_to_set (set_order S) = S.
Proof. apply set_eq. intros x. rewrite elem_of_list_to_set. apply set_order_elem. Qed.

Lemma get_symbol_set_text g pre (S : gset string) tail :
  S ≠ ∅ -> (∀ s, s ∈ S -> writable g s = true) ->
  string_forallb isspace pre = true -> ends_line tail = true ->
  ∃ x rest,
    set_order S = x :: rest ∧
    get_symbol_set
      (mkIstream (pre ++ symbols_text g x rest ++ tail) false false true) =
    (mkIstream (after_line_feed tail) (bool_decide (tail = EmptyString))
       false true, S).
Proof.
  intros Hne Hall Hpre Htail.
  destruct (set_order S) as [|x rest] eqn:Hord.
  { exfalso. apply Hne. rewrite <- (set_order_to_set S), Hord. done. }
  exists x, rest. split; [done|].
  rewrite get_symbol_set_sequence, get_symbol_sequence_text; [|
    |done..].
  - by rewrite <- Hord, set_order_to_set.
  - rewrite <- Hord. apply Forall_forall. intros s Hs.
    by apply Hall, set_order_elem.
Qed.

(** X16.  A non-empty set of writable symbols, written by [put_symbol_set]
    with no field width and followed by a line feed or by the end of the
    stream, is read back as the same set by [get_symbol_set]; the stream has
    not failed and stands after the line feed. *)
Theorem get_put_symbol_set g (l : bool) f (S : gset string) os' tail :
  S ≠ ∅ -> (∀ s, s ∈ S -> writable g s = true) -> ends_line tail = true ->
  put_symbol_set g (mkOstream EmptyString 0 l f) S = Some os' ->
  ∃ ins',
    get_symbol_set (mkIstream (written os' ++ tail) false false true) =
    (ins', S) ∧
    failbit ins' = false ∧ buf ins' = after_line_feed tail.
Proof.
  intros Hne Hall Htail Hput.
  destruct (get_symbol_set_text g EmptyString S tail Hne Hall eq_refl Htail)
    as (x & rest & Hord & Hget).
  unfold put_symbol_set in Hput. rewrite Hord in Hput.
  cbn [put_symbol_sequence] in Hput.
  rewrite put_symbols_written in Hput by done. injection Hput as <-.
  cbn [written].
  change (EmptyString ++ ?x)%string with x in *. rewrite Hget. eauto.
Qed.

Lemma get_put_symbol_set_witness :
  ({["a"; "b"]} : gset string) ≠ ∅ ∧
  (∀ s, s ∈ ({["a"; "b"]} : gset string) -> writable scenario2 s = true) ∧
  ends_line EmptyString = true ∧
  put_symbol_set scenario2 (mkOstream EmptyString 0 false " ") {["a"; "b"]} =
    Some (mkOstream (symbols_text scenario2 "a" ["b"]) 0 false " ") ∧
  ∃ ins',
    get_symbol_set
      (mkIstream
         (written (mkOstream (symbols_text scenario2 "a" ["b"]) 0 false " ")
          ++ EmptyString) false false true) =
    (ins', {["a"; "b"]}) ∧
    failbit ins' = false ∧ buf ins' = after_line_feed EmptyString.
Proof.
  assert (({["a"; "b"]} : gset string) ≠ ∅) as Hne by set_solver.
  assert (∀ s, s ∈ ({["a"; "b"]} : gset string) ->
               writable scenario2 s = true) as Hall.
  { intros s [->%elem_of_singleton| ->%elem_of_singleton]%elem_of_union;
      reflexivity. }
  assert (put_symbol_set scenario2 (mkOstream EmptyString 0 false " ")
            {["a"; "b"]} =
          Some (mkOstream (symbols_text scenario2 "a" ["b"]) 0 false " "))
    as Hput by (vm_compute; reflexivity).
  split; [exact Hne|]. split; [exact Hall|]. split; [reflexivity|].
  split; [exact Hput|].
  exact (get_put_symbol_set scenario2 false " " {["a"; "b"]} _ EmptyString
           Hne Hall eq_refl Hput).
Defined.

(** ** Rules that cannot be read *)

(** X17.  When the token after the head of a rule is not the equals sign,
    [get_rule] sets [failbit]; the head has been stored and the body of the
    rule is left as it was. *)
Theorem get_rule_not_equals g h t rest r0 :
  writable g h = true -> plain default_delim t = true -> t ≠ "=" ->
  ends_token rest = true ->
  get_rule
    (mkIstream (symbol_text g h ++ " " ++ t ++ rest) false false true) r0 =
  (mkIstream rest (bool_decide (rest = EmptyString)) true true, (h, r0.2)).
Proof.
  intros Hh Ht Hne Hrest. unfold get_rule.
  pose proof (get_symbol_text_more g EmptyString h (" " ++ t ++ rest) r0.1 Hh
                eq_refl eq_refl) as H1.
  change (EmptyString ++ ?x)%string with x in H1.
  rewrite H1 by (by rewrite string_app_cons). cbn [failbit].
  unfold get_symbol. rewrite get_quoted_token by done. cbn [failbit].
  rewrite bool_decide_true by done. unfold setstate.
  cbn [buf eofbit failbit skipws]. by rewrite !orb_false_r.
Qed.

Lemma get_rule_not_equals_witness :
  writable scenario2 "S" = true ∧ plain default_delim "->" = true ∧
  "->" ≠ "=" ∧ ends_token " b" = true ∧
  get_rule
    (mkIstream (symbol_text scenario2 "S" ++ " " ++ "->" ++ " b") false false
       true) ("old", ["x"]) =
  (mkIstream " b" false true true, ("S", ["x"])).
Proof.
  assert ("->" ≠ "=") as Hne by done.
  split; [reflexivity|]. split; [reflexivity|]. split; [exact Hne|].
  split; [reflexivity|].
  exact (get_rule_not_equals scenario2 "S" "->" " b" ("old", ["x"]) eq_refl
           eq_refl Hne eq_refl).
Defined.

Lemma std_ws_good b (sk : bool) :
  std_ws (mkIstream b false false sk) =
  mkIstream (skip_spaces b) (bool_decide (skip_spaces b = EmptyString)) false
    sk.
Proof. done. Qed.

Lemma std_ws_at_end b (f sk : bool) :
  std_ws (mkIstream b true f sk) = mkIstream b true true sk.
Proof. unfold std_ws, sentry, setstate. cbn. by rewrite orb_true_r. Qed.

Lemma getline_at_end b (f sk : bool) str :
  getline (mkIstream b true f sk) str = (mkIstream b true true sk, str).
Proof. unfold getline, sentry, setstate. cbn. by rewrite orb_true_r. Qed.

(** X18.  When only white space, or nothing, comes after the equals sign,
    [get_rule] fails: [failbit] and [eofbit] are set, the head has been
    stored and the body is empty. *)
Theorem get_rule_no_body g h sp r0 :
  writable g h = true -> string_forallb isspace sp = true ->
  get_rule (mkIstream (symbol_text g h ++ " =" ++ sp) false false true) r0 =
  (mkIstream EmptyString true true true, (h, [])).
Proof.
  intros Hh Hsp. unfold get_rule.
  pose proof (get_symbol_text_more g EmptyString h (" =" ++ sp) r0.1 Hh
                eq_refl eq_refl) as H1.
  change (EmptyString ++ ?x)%string with x in H1.
  rewrite H1 by (by rewrite string_app_cons). cbn [failbit].
  change (" =" ++ sp)%string with (" " ++ "=" ++ sp)%string.
  assert (ends_token sp = true) as Hend.
  { destruct sp as [|c sp]; [done|]. cbn [string_forallb] in Hsp.
    by apply andb_true_iff in Hsp as [? _]. }
  unfold get_symbol. rewrite get_quoted_token by done. cbn [failbit].
  rewrite (bool_decide_false ("=" ≠ "=")) by (intros Hn; by apply Hn).
  unfold get_symbol_sequence.
  destruct sp as [|c sp].
  - rewrite bool_decide_true by done. by rewrite std_ws_at_end.
  - rewrite bool_decide_false by done. rewrite std_ws_good.
    pose proof (skip_spaces_all (String c sp) EmptyString Hsp) as Hskip.
    rewrite string_app_nil_r in Hskip. rewrite Hskip. cbn [skip_spaces].
    rewrite bool_decide_true by done. cbn [failbit].
    by rewrite getline_at_end.
Qed.

Lemma get_rule_no_body_witness :
  writable scenario2 "S" = true ∧ string_forallb isspace "  " = true ∧
  get_rule (mkIstream (symbol_text scenario2 "S" ++ " =" ++ "  ") false false
              true) ("old", ["x"]) =
  (mkIstream EmptyString true true true, ("S", [])).
Proof.
  split; [reflexivity|]. split; [reflexivity|].
  exact (get_rule_no_body scenario2 "S" "  " ("old", ["x"]) eq_refl eq_refl).
Defined.

Lemma get_quoted_open d e t (sk : bool) str0 :
  isspace d = false ->
  string_forallb (λ c, negb (Ascii.eqb c d) && negb (Ascii.eqb c e)) t = true ->
  get_quoted d e (mkIstream (String d t) false false sk) str0 =
  (mkIstream EmptyString true true sk, t).
Proof.
  intros Hd Ht. unfold get_quoted.
  rewrite (extract_char_first d _ t)
    by (done || (destruct sk; [by apply skip_spaces_nonspace|done])).
  rewrite Ascii.eqb_refl. unfold set_skipws.
  cbn [negb skipws buf eofbit failbit].
  rewrite quoted_loop_no_delim by (done || lia). done.
Qed.

(** X23.  A line that holds, after the equals sign, an opening double quote
    and then characters among which there is no double quote, no backslash
    and no line feed, is read by [get_rule] as a rule with an empty body,
    and the stream has not failed: the quoted symbol that is not closed
    fails on the string stream of the line only. *)
Theorem get_rule_open_quote g h t tail r0 :
  writable g h = true ->
  string_forallb
    (λ c, negb (Ascii.eqb c default_delim) &&
          negb (Ascii.eqb c default_escape)) t = true ->
  string_forallb (λ c, negb (Ascii.eqb c "010")) t = true ->
  ends_line tail = true ->
  get_rule
    (mkIstream
       (symbol_text g h ++ " = " ++ String default_delim t ++ tail)
       false false true) r0 =
  (mkIstream (after_line_feed tail) (bool_decide (tail = EmptyString)) false
     true, (h, [])).
Proof.
  intros Hh Ht Hlf Htail. unfold get_rule.
  pose proof (get_symbol_text_more g EmptyString h
                (" = " ++ String default_delim t ++ tail) r0.1 Hh eq_refl
                eq_refl) as H1.
  change (EmptyString ++ ?x)%string with x in H1.
  rewrite H1 by (by rewrite string_app_cons). cbn [failbit].
  change (" = " ++ String default_delim t ++ tail)%string
    with (" " ++ "=" ++ " " ++ String default_delim t ++ tail)%string.
  unfold get_symbol at 1. rewrite get_quoted_token by done.
  cbn [failbit].
  rewrite (bool_decide_false (_ = EmptyString))
    by (by rewrite string_app_cons).
  rewrite (bool_decide_false ("=" ≠ "=")) by (intros Hn; by apply Hn).
  unfold get_symbol_sequence. rewrite std_ws_good.
  assert (skip_spaces (" " ++ String default_delim t ++ tail) =
          (String default_delim t ++ tail)%string) as -> by done.
  rewrite bool_decide_false by (by rewrite string_app_cons).
  cbn [failbit]. unfold getline, sentry.
  cbn [good eofbit failbit negb andb buf].
  rewrite take_line_text by done.
  assert (symbols_loop (S (String.length (String default_delim t)))
            (stringstream (String default_delim t)) EmptyString [] = [])
    as Hloop.
  { cbn [symbols_loop]. unfold get_symbol, stringstream.
    by rewrite get_quoted_open. }
  destruct tail as [|c' more].
  - unfold set_buf, setstate. cbn [buf eofbit failbit skipws orb].
    rewrite bool_decide_false by done. cbn [failbit]. by rewrite Hloop.
  - unfold set_buf. cbn [buf eofbit failbit skipws]. by rewrite Hloop.
Qed.

Lemma get_rule_open_quote_witness :
  writable scenario2 "S" = true ∧
  string_forallb
    (λ c, negb (Ascii.eqb c default_delim) &&
          negb (Ascii.eqb c default_escape)) "a b" = true ∧
  string_forallb (λ c, negb (Ascii.eqb c "010")) "a b" = true ∧
  ends_line EmptyString = true ∧
  get_rule
    (mkIstream
       (symbol_text scenario2 "S" ++ " = " ++ String default_delim "a b" ++
        EmptyString) false false true) ("old", ["x"]) =
  (mkIstream EmptyString true false true, ("S", [])).
Proof.
  split; [reflexivity|]. split; [reflexivity|]. split; [reflexivity|].
  split; [reflexivity|].
  exact (get_rule_open_quote scenario2 "S" "a b" EmptyString ("old", ["x"])
           eq_refl eq_refl eq_refl eq_refl).
Defined.

(** ** Rule sets: writing and reading back *)

Lemma sequence_compare_antisym l1 l2 :
  sequence_compare l1 l2 = CompOpp (sequence_compare l2 l1).
Proof.
  revert l2. induction l1 as [|x l1 IH]; intros [|y l2]; cbn; try done.
  rewrite (String.compare_antisym y x).
  destruct (String.compare x y); cbn; [apply IH|done..].
Qed.

Lemma rule_compare_antisym r1 r2 :
  rule_compare r1 r2 = CompOpp (rule_compare r2 r1).
Proof.
  unfold rule_compare. rewrite (String.compare_antisym r2.1 r1.1).
  destruct (String.compare r1.1 r2.1); cbn;
    [apply sequence_compare_antisym|done..].
Qed.

Lemma rule_set_insert_last r acc :
  Forall (λ a, rule_compare a r = Lt) acc ->
  rule_set_insert r acc = (acc ++ [r])%list.
Proof.
  induction 1 as [|a acc Ha _ IH]; [done|]. cbn [rule_set_insert].
  rewrite rule_compare_antisym, Ha. cbn. by rewrite IH.
Qed.

Lemma ascending_before acc r rest :
  ascending (acc ++ r :: rest) = true ->
  Forall (λ a, rule_compare a r = Lt) acc.
Proof.
  induction acc as [|a acc IH]; [by constructor|].
  cbn [app ascending]. intros [Ha Hrest]%andb_true_iff.
  constructor; [|by apply IH].
  rewrite forallb_app in Ha. apply andb_true_iff in Ha as [_ Ha].
  cbn [forallb] in Ha. apply andb_true_iff in Ha as [Ha _].
  by destruct (rule_compare a r).
Qed.

Lemma writable_rule_body g r :
  writable_rule g r = true ->
  writable g r.1 = true ∧
  ∃ x rest, r = (r.1, x :: rest) ∧
            Forall (λ s, writable g s = true) (x :: rest) ∧
            rule_line g r = rule_text g r.1 x rest.
Proof.
  destruct r as [h body]. unfold writable_rule, rule_line. cbn [fst snd].
  intros [Hh Hb]%andb_true_iff. split; [done|].
  destruct body as [|x rest]; [done|]. exists x, rest.
  split; [done|]. split; [|done]. apply Forall_forall. intros s Hs.
  rewrite forallb_forall in Hb. apply Hb. by apply list_elem_of_In.
Qed.

Lemma rule_text_head g h x rest :
  writable g h = true ->
  ∃ c r, rule_text g h x rest = String c r ∧ isspace c = false.
Proof.
  intros (c & r & Hh & Hc)%symbol_text_head. unfold rule_text.
  rewrite Hh, string_app_cons. eauto.
Qed.

Lemma rule_text_no_lf g h x rest :
  writable g h = true -> Forall (λ s, writable g s = true) (x :: rest) ->
  string_forallb (λ c, negb (Ascii.eqb c "010")) (rule_text g h x rest)
  = true.
Proof.
  intros Hh Hall. unfold rule_text. rewrite !string_forallb_app.
  by rewrite symbol_text_no_lf, symbols_text_no_lf.
Qed.

Lemma rule_line_head g r :
  writable_rule g r = true ->
  ∃ c t, rule_line g r = String c t ∧ isspace c = false.
Proof.
  intros (Hh & x & rest & _ & _ & ->)%writable_rule_body.
  by apply rule_text_head.
Qed.

Lemma rules_text_head g r rest :
  writable_rule g r = true ->
  ∃ c t, rules_text g r rest = String c t ∧ isspace c = false.
Proof.
  intros (c & t & Hr & Hc)%rule_line_head.
  destruct rest as [|r' rest]; cbn [rules_text]; rewrite Hr.
  - eauto.
  - rewrite string_app_cons. eauto.
Qed.

Lemma put_rules_written g os r rest :
  width os = 0%Z -> Forall (λ r, writable_rule g r = true) (r :: rest) ->
  ∃ os', put_rules g os r rest = Some os' ∧ width os' = 0%Z ∧
         written os' = (written os ++ rules_text g r rest)%string.
Proof.
  revert os r. induction rest as [|r' rest IH];
    intros os r Hw [Hr Hrest]%Forall_cons;
    destruct (writable_rule_body _ _ Hr) as (_ & x & body & Hshape & _ & Hl);
    destruct (put_rule_written g os r.1 x body Hw) as (os1 & Hput & Hw1 & Ht);
    rewrite <- Hshape in Hput; cbn [put_rules rules_text]; rewrite Hput.
  - exists os1. by rewrite Hl.
  - destruct (IH (endl os1) r') as (os2 & Hput2 & Hw2 & Ht2); [done..|].
    exists os2. split; [done|]. split; [done|].
    rewrite Ht2. cbn [endl written]. rewrite Ht, Hl.
    by rewrite !string_app_assoc.
Qed.

Lemma rules_text_length g r rest :
  Forall (λ r, writable_rule g r = true) (r :: rest) ->
  length rest < String.length (rules_text g r rest).
Proof.
  revert r. induction rest as [|r' rest IH]; intros r [Hr Hrest]%Forall_cons.
  - cbn [rules_text]. destruct (rule_line_head _ _ Hr) as (c & t & -> & _).
    cbn. lia.
  - cbn [rules_text]. rewrite string_length_app. cbn [String.length length].
    specialize (IH _ Hrest). lia.
Qed.

Lemma getline_text t tail (sk : bool) str :
  string_forallb (λ c, negb (Ascii.eqb c "010")) t = true ->
  getline (mkIstream (t ++ String "010" tail) false false sk) str =
  (mkIstream tail false false sk, t).
Proof.
  intros Ht. unfold getline, sentry. cbn [good eofbit failbit negb andb buf].
  by rewrite (take_line_text t (String "010" tail)).
Qed.

Lemma rules_loop_text g more rest :
  ∀ r fuel line0 r0 acc,
    Forall (λ r, writable_rule g r = true) (r :: rest) ->
    ascending (acc ++ r :: rest) = true ->
    S (length rest) < fuel ->
    rules_loop fuel
      (mkIstream
         (rules_text g r rest ++ String "010" (String "010" more))
         false false true) line0 r0 acc =
    (mkIstream more false false true, (acc ++ r :: rest)%list).
Proof.
  induction rest as [|r' rest IH];
    intros [h b] fuel line0 r0 acc [Hr Hrest]%Forall_cons Hasc Hfuel;
    (destruct fuel as [|fuel]; [lia|]);
    destruct (writable_rule_body _ _ Hr)
      as (Hh & x & body & Hshape & Hbody & Hl);
    cbn [fst snd] in Hh, Hshape, Hl; injection Hshape as ->;
    pose proof (rule_text_no_lf g h x body Hh Hbody) as Hlf;
    destruct (rule_text_head g h x body Hh) as (c & t & Hhead & _);
    pose proof (get_rule_text g EmptyString h x body EmptyString r0 Hh
                  Hbody eq_refl eq_refl) as Hget;
    change (EmptyString ++ ?x)%string with x in Hget;
    rewrite string_app_nil_r in Hget;
    cbn [rules_loop rules_text]; rewrite Hl.
  - rewrite getline_text by done. cbn [failbit].
    rewrite bool_decide_false by (by rewrite Hhead).
    unfold stringstream. rewrite Hget. cbn [failbit].
    rewrite rule_set_insert_last by (by apply (ascending_before _ _ [])).
    destruct fuel as [|fuel]; [cbn [length] in Hfuel; lia|].
    cbn [rules_loop].
    pose proof (getline_text EmptyString more true (rule_text g h x body)
                  eq_refl) as Hgl.
    change (EmptyString ++ ?x)%string with x in Hgl. rewrite Hgl.
    cbn [failbit]. by rewrite bool_decide_true.
  - rewrite string_app_assoc, string_app_cons.
    rewrite getline_text by done. cbn [failbit].
    rewrite bool_decide_false by (by rewrite Hhead).
    unfold stringstream. rewrite Hget. cbn [failbit].
    rewrite rule_set_insert_last
      by (by apply (ascending_before _ _ (r' :: rest))).
    rewrite IH; [|done| |cbn [length] in Hfuel; lia].
    + by rewrite <- app_assoc.
    + by rewrite <- app_assoc.
Qed.

Lemma get_rule_set_text g pre r rest more :
  Forall (λ r, writable_rule g r = true) (r :: rest) ->
  ascending (r :: rest) = true -> string_forallb isspace pre = true ->
  get_rule_set
    (mkIstream
       (pre ++ rules_text g r rest ++ String "010" (String "010" more))
       false false true) =
  (mkIstream more false false true, r :: rest).
Proof.
  intros Hall Hasc Hpre. unfold get_rule_set. rewrite std_ws_good.
  pose proof Hall as [Hr _]%Forall_cons.
  destruct (rules_text_head g r rest Hr) as (c & t & Hhead & Hc).
  assert (skip_spaces
            (pre ++ rules_text g r rest ++ String "010" (String "010" more)) =
          (rules_text g r rest ++ String "010" (String "010" more))%string)
    as ->.
  { rewrite skip_spaces_all by done. rewrite Hhead, string_app_cons.
    by apply skip_spaces_nonspace. }
  rewrite bool_decide_false by (by rewrite Hhead, string_app_cons).
  cbn [failbit buf].
  apply (rules_loop_text g more rest r _ EmptyString (EmptyString, []) []);
    [done..|].
  rewrite string_length_app. pose proof (rules_text_length g r rest Hall).
  cbn [String.length]. lia.
Qed.

(** X19.  A non-empty rule set in which every rule has a writable head and
    a non-empty body of writable symbols, written by [put_rule_set] with no
    field width and followed by an empty line, is read back unchanged by
    [get_rule_set]; the stream is good and stands after the empty line. *)
Theorem get_put_rule_set g (l : bool) f r rest os' more :
  Forall (λ r, writable_rule g r = true) (r :: rest) ->
  ascending (r :: rest) = true ->
  put_rule_set g (mkOstream EmptyString 0 l f) (r :: rest) = Some os' ->
  get_rule_set
    (mkIstream (written os' ++ String "010" (String "010" more)) false false
       true) =
  (mkIstream more false false true, r :: rest).
Proof.
  intros Hall Hasc Hput.
  destruct (put_rules_written g (mkOstream EmptyString 0 l f) r rest eq_refl
              Hall) as (os1 & Hput1 & _ & Hw).
  cbn [put_rule_set] in Hput. rewrite Hput in Hput1. injection Hput1 as <-.
  rewrite Hw. cbn [written]. change (EmptyString ++ ?x)%string with x.
  pose proof (get_rule_set_text g EmptyString r rest more Hall Hasc eq_refl)
    as H.
  by change (EmptyString ++ ?x)%string with x in H.
Qed.

Lemma get_put_rule_set_witness :
  Forall (λ r, writable_rule scenario2 r = true) (rules scenario2) ∧
  ascending (rules scenario2) = true ∧
  ∃ os',
    put_rule_set scenario2 (mkOstream EmptyString 0 false " ")
      (rules scenario2) = Some os' ∧
    get_rule_set
      (mkIstream (written os' ++ String "010" (String "010" "S")) false false
         true) =
    (mkIstream "S" false false true, rules scenario2).
Proof.
  assert (Forall (λ r, writable_rule scenario2 r = true) (rules scenario2))
    as Hall by (repeat constructor).
  split; [exact Hall|]. split; [reflexivity|].
  eexists. split; [reflexivity|].
  exact (get_put_rule_set scenario2 false " " ("S", ["S"; "a"]) [("S", ["b"])]
           _ "S" Hall eq_refl eq_refl).
Defined.

(** ** The grammar: writing and reading back *)

Lemma string_app_nil_l (s : string) : (EmptyString ++ s)%string = s.
Proof. done. Qed.

Lemma put_symbol_set_written g os (S : gset string) :
  width os = 0%Z -> S ≠ ∅ ->
  ∃ x rest os',
    set_order S = x :: rest ∧ put_symbol_set g os S = Some os' ∧
    width os' = 0%Z ∧
    written os' = (written os ++ symbols_text g x rest)%string.
Proof.
  intros Hw Hne. unfold put_symbol_set.
  destruct (set_order S) as [|x rest] eqn:Hord.
  { exfalso. apply Hne. rewrite <- (set_order_to_set S), Hord. done. }
  cbn [put_symbol_sequence]. rewrite put_symbols_written by done.
  eexists x, rest, _. split; [done|]. split; [done|]. by split.
Qed.

Lemma printable_parts g :
  printable g = true ->
  non_terminals g ≠ ∅ ∧ terminals g ≠ ∅ ∧
  (∀ s, s ∈ non_terminals g -> writable g s = true) ∧
  (∀ s, s ∈ terminals g -> writable g s = true) ∧
  rules g ≠ [] ∧ Forall (λ r, writable_rule g r = true) (rules g) ∧
  ascending (rules g) = true ∧ writable g (start g) = true.
Proof.
  unfold printable. rewrite !andb_true_iff, !negb_true_iff.
  rewrite !bool_decide_eq_false, !forallb_forall.
  intros (((((((H1 & H2) & H3) & H4) & H5) & H6) & H7) & H8).
  repeat split; try done.
  - intros s Hs. apply H3, list_elem_of_In, elem_of_elements, Hs.
  - intros s Hs. apply H4, list_elem_of_In, elem_of_elements, Hs.
  - apply Forall_forall. intros r Hr. by apply H6, list_elem_of_In.
Qed.

(** X20.  A grammar whose components are all non-empty, whose symbols are
    all writable, whose rules all have a body and are in the order of the
    rule set, is written by [put_grammar] with no field width without
    undefined behaviour, and the text, followed by white space or by the
    end, is read back by [get_grammar] as the same grammar; the stream has
    not failed and stands right after the start symbol. *)
Theorem get_put_grammar g (l : bool) f tail g0 :
  printable g = true -> ends_token tail = true ->
  ∃ os' ins',
    put_grammar g (mkOstream EmptyString 0 l f) = Some os' ∧
    get_grammar (mkIstream (written os' ++ tail) false false true) g0 =
    (ins', g) ∧
    failbit ins' = false ∧ buf ins' = tail.
Proof.
  intros (Hn & Ht & Hnw & Htw & Hr & Hrw & Hasc & Hs)%printable_parts Htail.
  destruct (put_symbol_set_written g (mkOstream EmptyString 0 l f)
              (non_terminals g) eq_refl Hn)
    as (xn & restn & os1 & Hordn & Hput1 & Hw1 & Htext1).
  destruct (put_symbol_set_written g (endl (endl os1)) (terminals g) Hw1 Ht)
    as (xt & restt & os2 & Hordt & Hput2 & Hw2 & Htext2).
  destruct (rules g) as [|r rest] eqn:Hrules; [done|].
  destruct (put_rules_written g (endl (endl os2)) r rest Hw2 Hrw)
    as (os3 & Hput3 & Hw3 & Htext3).
  unfold put_grammar. rewrite Hput1, Hput2, Hrules. cbn [put_rule_set].
  rewrite Hput3.
  rewrite put_symbol_written by done.
  match goal with |- ∃ os' ins', Some ?o = Some os' ∧ _ => exists o end.
  cbn [endl written].
  rewrite Htext3. cbn [endl written]. rewrite Htext2. cbn [endl written].
  rewrite Htext1. cbn [written].
  change (EmptyString ++ ?x)%string with x.
  rewrite !string_app_assoc, !string_app_cons.
  change (EmptyString ++ ?x)%string with x.
  destruct (get_symbol_set_text g EmptyString (non_terminals g)
              (String "010"
                 (String "010"
                    (symbols_text g xt restt ++
                     String "010"
                       (String "010"
                          (rules_text g r rest ++
                           String "010"
                             (String "010" (symbol_text g (start g) ++ tail)))))))
              Hn Hnw eq_refl eq_refl)
    as (xn' & restn' & Hordn' & Hget1).
  rewrite Hordn in Hordn'. injection Hordn' as <- <-.
  change (EmptyString ++ ?x)%string with x in Hget1.
  destruct (get_symbol_set_text g (String "010" EmptyString) (terminals g)
              (String "010"
                 (String "010"
                    (rules_text g r rest ++
                     String "010"
                       (String "010" (symbol_text g (start g) ++ tail)))))
              Ht Htw eq_refl eq_refl)
    as (xt' & restt' & Hordt' & Hget2).
  rewrite Hordt in Hordt'. injection Hordt' as <- <-.
  rewrite string_app_cons in Hget2.
  change (EmptyString ++ ?x)%string with x in Hget2.
  pose proof (get_rule_set_text g (String "010" EmptyString) r rest
                (symbol_text g (start g) ++ tail) Hrw Hasc eq_refl) as Hget3.
  rewrite string_app_cons in Hget3.
  change (EmptyString ++ ?x)%string with x in Hget3.
  destruct (get_symbol_text g EmptyString (start g) tail (start g0) Hs eq_refl
              Htail) as [e Hget4].
  change (EmptyString ++ ?x)%string with x in Hget4.
  exists (mkIstream tail e false true). split; [done|].
  split; [|done].
  unfold get_grammar. rewrite ?string_app_nil_l.
  rewrite Hget1. cbn [failbit after_line_feed].
  rewrite bool_decide_false by done. rewrite Hget2.
  cbn [failbit after_line_feed]. rewrite bool_decide_false by done.
  rewrite Hget3. cbn [failbit]. rewrite Hget4.
  f_equal. destruct g. cbn in *. by rewrite Hrules.
Qed.

Lemma get_put_grammar_witness :
  printable scenario2 = true ∧ ends_token EmptyString = true ∧
  ∃ os' ins',
    put_grammar scenario2 (mkOstream EmptyString 0 false " ") = Some os' ∧
    get_grammar (mkIstream (written os' ++ EmptyString) false false true)
      (mkGrammar ∅ ∅ [] EmptyString) = (ins', scenario2) ∧
    failbit ins' = false ∧ buf ins' = EmptyString.
Proof.
  split; [vm_compute; reflexivity|]. split; [reflexivity|].
  apply (get_put_grammar scenario2 false " " EmptyString
           (mkGrammar ∅ ∅ [] EmptyString)); [vm_compute; reflexivity|
                                             reflexivity].
Defined.

(** ** A rule set that ends the stream *)

Lemma getline_last t (sk : bool) str :
  string_forallb (λ c, negb (Ascii.eqb c "010")) t = true ->
  t ≠ EmptyString ->
  getline (mkIstream t false false sk) str = (mkIstream EmptyString true false sk, t).
Proof.
  intros Ht Hne. unfold getline, sentry.
  cbn [good eofbit failbit negb andb buf].
  pose proof (take_line_text t EmptyString Ht eq_refl) as Hl.
  rewrite string_app_nil_r in Hl. rewrite Hl.
  unfold setstate, set_buf. cbn [buf eofbit failbit skipws orb].
  by rewrite bool_decide_false.
Qed.

Lemma rules_loop_text_end g rest :
  ∀ r fuel line0 r0 acc,
    Forall (λ r, writable_rule g r = true) (r :: rest) ->
    ascending (acc ++ r :: rest) = true ->
    S (length rest) < fuel ->
    rules_loop fuel (mkIstream (rules_text g r rest) false false true) line0
      r0 acc =
    (mkIstream EmptyString true true true, (acc ++ r :: rest)%list).
Proof.
  induction rest as [|r' rest IH];
    intros [h b] fuel line0 r0 acc [Hr Hrest]%Forall_cons Hasc Hfuel;
    (destruct fuel as [|fuel]; [lia|]);
    destruct (writable_rule_body _ _ Hr)
      as (Hh & x & body & Hshape & Hbody & Hl);
    cbn [fst snd] in Hh, Hshape, Hl; injection Hshape as ->;
    pose proof (rule_text_no_lf g h x body Hh Hbody) as Hlf;
    destruct (rule_text_head g h x body Hh) as (c & t & Hhead & _);
    pose proof (get_rule_text g EmptyString h x body EmptyString r0 Hh
                  Hbody eq_refl eq_refl) as Hget;
    rewrite string_app_nil_l, string_app_nil_r in Hget;
    cbn [rules_loop rules_text]; rewrite Hl.
  - rewrite getline_last by (done || by rewrite Hhead). cbn [failbit].
    rewrite bool_decide_false by (by rewrite Hhead).
    unfold stringstream. rewrite Hget. cbn [failbit].
    rewrite rule_set_insert_last by (by apply (ascending_before _ _ [])).
    destruct fuel as [|fuel]; [cbn [length] in Hfuel; lia|].
    cbn [rules_loop]. by rewrite getline_at_end.
  - rewrite getline_text by done. cbn [failbit].
    rewrite bool_decide_false by (by rewrite Hhead).
    unfold stringstream. rewrite Hget. cbn [failbit].
    rewrite rule_set_insert_last
      by (by apply (ascending_before _ _ (r' :: rest))).
    rewrite IH; [|done| |cbn [length] in Hfuel; lia].
    + by rewrite <- app_assoc.
    + by rewrite <- app_assoc.
Qed.

(** X21.  [put_rule_set] writes no line feed after the last rule.  When
    the stream ends there, right after the text of the last rule,
    [get_rule_set] stores every rule but leaves the stream with [eofbit] and
    [failbit] set: the line of the last rule is read up to the end of the
    stream, and the next [getline] fails. *)
Theorem get_rule_set_at_end g (l : bool) f r rest os' :
  Forall (λ r, writable_rule g r = true) (r :: rest) ->
  ascending (r :: rest) = true ->
  put_rule_set g (mkOstream EmptyString 0 l f) (r :: rest) = Some os' ->
  get_rule_set (mkIstream (written os') false false true) =
  (mkIstream EmptyString true true true, r :: rest).
Proof.
  intros Hall Hasc Hput.
  destruct (put_rules_written g (mkOstream EmptyString 0 l f) r rest eq_refl
              Hall) as (os1 & Hput1 & _ & Hw).
  cbn [put_rule_set] in Hput. rewrite Hput in Hput1. injection Hput1 as <-.
  rewrite Hw. cbn [written]. rewrite string_app_nil_l.
  unfold get_rule_set. rewrite std_ws_good.
  pose proof Hall as [Hr _]%Forall_cons.
  destruct (rules_text_head g r rest Hr) as (c & t & Hhead & Hc).
  assert (skip_spaces (rules_text g r rest) = rules_text g r rest) as ->.
  { rewrite Hhead. by apply skip_spaces_nonspace. }
  rewrite bool_decide_false by (by rewrite Hhead).
  cbn [failbit buf].
  apply (rules_loop_text_end g rest r _ EmptyString (EmptyString, []) []);
    [done..|].
  pose proof (rules_text_length g r rest Hall). lia.
Qed.

Lemma get_rule_set_at_end_witness :
  Forall (λ r, writable_rule scenario2 r = true) (rules scenario2) ∧
  ascending (rules scenario2) = true ∧
  ∃ os',
    put_rule_set scenario2 (mkOstream EmptyString 0 false " ")
      (rules scenario2) = Some os' ∧
    get_rule_set (mkIstream (written os') false false true) =
    (mkIstream EmptyString true true true, rules scenario2).
Proof.
  assert (Forall (λ r, writable_rule scenario2 r = true) (rules scenario2))
    as Hall by (repeat constructor).
  split; [exact Hall|]. split; [reflexivity|].
  eexists. split; [reflexivity|].
  exact (get_rule_set_at_end scenario2 false " " ("S", ["S"; "a"])
           [("S", ["b"])] _ Hall eq_refl eq_refl).
Defined.
